(** * Logogen: the logo/animation wizard (src/App.tsx) and its media request
      client (services/geminiService.ts), embedded as interaction trees.

    The two source modules are asynchronous TypeScript.  Every [await] of the
    source is an event of an interaction tree; the answer of the event is how
    the awaited promise settles.  A [try]/[catch] is a match on that answer.
    The polling loop of [animateLogo] is an [ITree.iter]: it is unbounded in
    the embedding exactly as it is in the source; only the interpreters below
    take a step budget. *)

From ITree Require Import ITree.
From Stdlib Require Import List String Ascii Bool Arith ZArith Lia.
Import ListNotations.
Import ITreeNotations.
Local Open Scope itree_scope.
Local Open Scope string_scope.

(* ===================================================================== *)
(** ** JavaScript values the code relies on *)
(* ===================================================================== *)

Module Js.

(** A thrown value, as the handlers read it: [err.message], which may be
    missing ([err: any]); [new Error(m)] has [message = m]. *)
Record JsError : Type := mkError { message : option string }.

Definition Error (m : string) : JsError := mkError (Some m).

(** How an awaited promise settles. *)
Inductive Settled (A : Type) : Type :=
| Resolved (a : A)
| Rejected (e : JsError).
Arguments Resolved {A} a.
Arguments Rejected {A} e.

(** [s.includes(sub)]. *)
Fixpoint includes (s sub : string) : bool :=
  String.prefix sub s ||
  match s with
  | EmptyString => false
  | String _ s' => includes s' sub
  end.

(** Truthiness of a [string | undefined]: undefined and the empty string are
    falsy. *)
Definition truthy (v : option string) : bool :=
  match v with
  | Some (String _ _) => true
  | _ => false
  end.

(** [v || d] on a [string | undefined]. *)
Definition or_else (v : option string) (d : string) : string :=
  match v with
  | Some (String c s) => String c s
  | _ => d
  end.

(** Truthiness of a [boolean | undefined]. *)
Definition truthy_bool (v : option bool) : bool :=
  match v with
  | Some true => true
  | _ => false
  end.

(** [`${v}`] inside a template literal. *)
Definition interpolate (v : option string) : string :=
  match v with
  | Some s => s
  | None => "undefined"
  end.

(** *** [async] functions

    The body of an [async] function over the events [E]: a tree that ends
    with how the function's promise settles.  [bind] is sequencing: a
    rejection skips the rest, as a [throw] does. *)
Definition Async (E : Type -> Type) (A : Type) : Type := itree E (Settled A).

Definition ret {E A} (a : A) : Async E A := Ret (Resolved a).

Definition throw {E A} (e : JsError) : Async E A := Ret (Rejected e).

Definition bind {E A B} (m : Async E A) (k : A -> Async E B) : Async E B :=
  ITree.bind m (fun r =>
    match r with
    | Resolved a => k a
    | Rejected e => Ret (Rejected e)
    end).

(** [await e]: suspend until the promise of the call [e] settles. *)
Definition await {E X} (e : E (Settled X)) : Async E X := ITree.trigger e.

(** A synchronous call that returns [X] and does not throw. *)
Definition call {E X} (e : E X) : Async E X :=
  ITree.bind (ITree.trigger e) (fun x => Ret (Resolved x)).

(** [try { body } catch (err) { handler }] *)
Definition tryCatch {E A} (body : Async E A) (handler : JsError -> Async E A)
  : Async E A :=
  ITree.bind body (fun r =>
    match r with
    | Resolved a => Ret (Resolved a)
    | Rejected err => handler err
    end).

(** [try { body } finally { finalizer }]: the finalizer runs however the body
    settled; the body's outcome stands unless the finalizer throws. *)
Definition tryFinally {E A} (body : Async E A) (finalizer : Async E unit)
  : Async E A :=
  ITree.bind body (fun r =>
    ITree.bind finalizer (fun f =>
      match f with
      | Resolved _ => Ret r
      | Rejected e => Ret (Rejected e)
      end)).

End Js.
Import Js.

Declare Scope async_scope.
Delimit Scope async_scope with async.
Notation "x <- t1 ;; t2" := (Js.bind t1 (fun x => t2))
  (at level 61, t1 at next level, right associativity) : async_scope.
Notation "t1 ;; t2" := (Js.bind t1 (fun _ => t2))
  (at level 61, right associativity) : async_scope.

(* ===================================================================== *)
(** ** types.ts *)
(* ===================================================================== *)

Module Types.

Inductive AppStep : Type := Setup | Design | Animate | View.

Record LogoData : Type := mkLogoData {
  url : string;
  base64 : string;
  mimeType : string;
  prompt : string
}.

Record AnimationData : Type := mkAnimationData {
  videoUrl : string;
  animPrompt : string   (* the field [prompt] of AnimationData *)
}.

(** ['1K' | '2K' | '4K'] *)
Inductive ImageSize : Type := Size1K | Size2K | Size4K.

(** ['1:1' | '16:9' | '9:16'] *)
Inductive AspectRatio : Type := Ratio1x1 | Ratio16x9 | Ratio9x16.

End Types.
Import Types.

(* ===================================================================== *)
(** ** services/geminiService.ts *)
(* ===================================================================== *)

Module GeminiService.

(** The parts of the provider's responses that the code reads.  Every field
    the code reaches through [?.] is optional. *)
Record InlineData : Type := mkInlineData {
  data : string;
  inlineMimeType : option string
}.

Record Part : Type := mkPart {
  text : option string;
  inlineData : option InlineData
}.

Record Content : Type := mkContent { parts : option (list Part) }.
Record Candidate : Type := mkCandidate { content : option Content }.
Record GenerateContentResponse : Type := mkResponse {
  candidates : option (list Candidate)
}.

Record Video : Type := mkVideo { uri : option string }.
Record GeneratedVideo : Type := mkGeneratedVideo { video : option Video }.
Record GenerateVideosResponse : Type := mkVideosResponse {
  generatedVideos : option (list GeneratedVideo)
}.
Record Operation : Type := mkOperation {
  done : option bool;
  response : option GenerateVideosResponse
}.

(** What [fetch] resolves with, and the blob read from it.  [fetch] resolves
    for every HTTP status; it rejects on a network failure only. *)
Record FetchResponse : Type := mkFetchResponse {
  status : Z;
  body : string
}.
Record BlobData : Type := mkBlob { bytes : string }.

Record GenerateContentRequest : Type := mkContentRequest {
  gc_apiKey : option string;
  gc_model : string;
  gc_text : string;
  gc_aspectRatio : string;
  gc_imageSize : ImageSize
}.

Record GenerateVideosRequest : Type := mkVideosRequest {
  gv_apiKey : option string;
  gv_model : string;
  gv_prompt : string;
  gv_imageBytes : string;
  gv_mimeType : string;
  gv_numberOfVideos : Z;
  gv_resolution : string;
  gv_aspectRatio : AspectRatio
}.

(** The awaits and calls of the module: each event is one call to the
    outside, answered by how it settles. *)
Variant ProviderE : Type -> Type :=
| GenerateContent (req : GenerateContentRequest)
    : ProviderE (Settled GenerateContentResponse)
| GenerateVideos (req : GenerateVideosRequest) : ProviderE (Settled Operation)
| SetTimeout (ms : Z) : ProviderE unit
| GetVideosOperation (operation : Operation) : ProviderE (Settled Operation)
| Fetch (target : string) : ProviderE (Settled FetchResponse)
| ReadBlob (r : FetchResponse) : ProviderE (Settled BlobData)
| CreateObjectURL (b : BlobData) : ProviderE string.

Record LogoResult : Type := mkLogoResult {
  r_url : string;
  r_base64 : string;
  r_mimeType : string
}.

Record ImageArg : Type := mkImageArg {
  i_base64 : string;
  i_mimeType : string
}.

Definition NoImageReturned : JsError :=
  Error "No image data returned from model.".

Definition NoVideoReturned : JsError :=
  Error "Failed to get video download link.".

(** [response.candidates?.[0]?.content?.parts || []] *)
Definition firstCandidateParts (r : GenerateContentResponse) : list Part :=
  match candidates r with
  | Some (c :: _) =>
      match content c with
      | Some ct =>
          match parts ct with
          | Some ps => ps
          | None => []
          end
      | None => []
      end
  | _ => []
  end.

(** The [for] loop of [generateLogo]: return at the first part that carries
    [inlineData]; throw when the parts are exhausted. *)
Fixpoint firstInline (ps : list Part) : Settled LogoResult :=
  match ps with
  | [] => Rejected NoImageReturned
  | part :: rest =>
      match inlineData part with
      | Some payload =>
          let base64 := data payload in
          let mimeType := or_else (inlineMimeType payload) "image/png" in
          Resolved (mkLogoResult
                      ("data:" ++ mimeType ++ ";base64," ++ base64)
                      base64 mimeType)
      | None => firstInline rest
      end
  end.

Definition logoPrompt (prompt : string) : string :=
  "A clean, professional, high-resolution logo design for: " ++ prompt ++
  ". Minimalist, vector style, suitable for educational non-profits. White background.".

Section WithApiKey.

(** [process.env.API_KEY] *)
Variable API_KEY : option string.

(** The argument of [ai.models.generateContent]. *)
Definition contentRequest (prompt : string) (size : ImageSize)
  : GenerateContentRequest :=
  mkContentRequest API_KEY "gemini-3-pro-image-preview" (logoPrompt prompt)
    "1:1" size.

Definition generateLogo (prompt : string) (size : ImageSize)
  : Async ProviderE LogoResult :=
  (response <- await (GenerateContent (contentRequest prompt size)) ;;
   Ret (firstInline (firstCandidateParts response)))%async.

(** One turn of [while (!operation.done) { ... }]: leave with the operation
    when it reports done; otherwise sleep, fetch the status again and go
    round with the new operation.  A status fetch that rejects leaves the
    loop with its error. *)
Definition pollBody (operation : Operation)
  : itree ProviderE (Operation + Settled Operation) :=
  if truthy_bool (done operation) then Ret (inr (Resolved operation))
  else
    ITree.trigger (SetTimeout 10000) ;;
    r <- ITree.trigger (GetVideosOperation operation) ;;
    match r with
    | Resolved operation' => Ret (inl operation')
    | Rejected e => Ret (inr (Rejected e))
    end.

Definition pollUntilDone (operation : Operation) : Async ProviderE Operation :=
  ITree.iter pollBody operation.

(** [operation.response?.generatedVideos?.[0]?.video?.uri] *)
Definition downloadLink (operation : Operation) : option string :=
  match response operation with
  | Some resp =>
      match generatedVideos resp with
      | Some (gv :: _) =>
          match video gv with
          | Some v => uri v
          | None => None
          end
      | _ => None
      end
  | None => None
  end.

(** What [animateLogo] does once the loop has left with a finished
    operation: the download link, the fetch, the blob and its object URL. *)
Definition download (operation : Operation) : Async ProviderE string :=
  let link := downloadLink operation in
  if negb (truthy link) then throw NoVideoReturned
  else
    (resp <- await (Fetch (interpolate link ++ "&key=" ++ interpolate API_KEY)) ;;
     blob <- await (ReadBlob resp) ;;
     call (CreateObjectURL blob))%async.

(** The argument of [ai.models.generateVideos]. *)
Definition videosRequest (image : ImageArg) (animationPrompt : string)
    (aspectRatio : AspectRatio) : GenerateVideosRequest :=
  mkVideosRequest API_KEY "veo-3.1-fast-generate-preview" animationPrompt
    (i_base64 image) (i_mimeType image) 1 "720p" aspectRatio.

Definition animateLogo (image : ImageArg) (animationPrompt : string)
    (aspectRatio : AspectRatio) : Async ProviderE string :=
  (operation <- await
     (GenerateVideos (videosRequest image animationPrompt aspectRatio)) ;;
   operation <- pollUntilDone operation ;;
   download operation)%async.

End WithApiKey.

(** *** Running the client against a provider *)

(** A provider: how each call settles.  The status fetches are answered in
    order: [getVideosOperation n] is the answer to the [n]-th fetch. *)
Record Provider : Type := mkProvider {
  generateContent : GenerateContentRequest -> Settled GenerateContentResponse;
  generateVideos : GenerateVideosRequest -> Settled Operation;
  getVideosOperation : nat -> Operation -> Settled Operation;
  fetch : string -> Settled FetchResponse;
  readBlob : FetchResponse -> Settled BlobData;
  createObjectURL : BlobData -> string
}.

(** One entry of the trace: a call and what it answered. *)
Record Call : Type := mkCall {
  call_type : Type;
  call_event : ProviderE call_type;
  call_answer : call_type
}.
Arguments mkCall {call_type} call_event call_answer.

(** The state of a run: the number of status fetches made and the calls so
    far, oldest first. *)
Record Run : Type := mkRun {
  fetches : nat;
  calls : list Call
}.

Definition answer (p : Provider) (n : nat) {X} (e : ProviderE X) : X :=
  match e in ProviderE X return X with
  | GenerateContent req => generateContent p req
  | GenerateVideos req => generateVideos p req
  | SetTimeout _ => tt
  | GetVideosOperation operation => getVideosOperation p n operation
  | Fetch target => fetch p target
  | ReadBlob r => readBlob p r
  | CreateObjectURL b => createObjectURL p b
  end.

Definition countFetch {X} (e : ProviderE X) (n : nat) : nat :=
  match e with
  | GetVideosOperation _ => S n
  | _ => n
  end.

(** Run a tree for at most [fuel] steps (a step is an event, a silent [Tau]
    or the final return).  [None]: still running when the budget ended. *)
Fixpoint exec {R} (fuel : nat) (p : Provider) (t : itree ProviderE R) (s : Run)
  : Run * option R :=
  match fuel with
  | O => (s, None)
  | S fuel' =>
      match observe t with
      | RetF r => (s, Some r)
      | TauF t' => exec fuel' p t' s
      | VisF e k =>
          let x := answer p (fetches s) e in
          exec fuel' p (k x)
               (mkRun (countFetch e (fetches s)) (calls s ++ [mkCall e x]))
      end
  end.

Definition start : Run := mkRun 0 [].

End GeminiService.

(* ===================================================================== *)
(** ** App.tsx: the workflow controller *)
(* ===================================================================== *)

Module App.

Import GeminiService.

(** The [useState] cells of [App]. *)
Record AppState : Type := mkState {
  step : AppStep;
  logo : option LogoData;
  animation : option AnimationData;
  isGenerating : bool;
  error : option string;
  imageSize : ImageSize;
  aspectRatio : AspectRatio;
  progressMessage : string
}.

Definition initialState : AppState :=
  mkState Setup None None false None Size1K Ratio16x9 "".

Definition loadingMessages : list string :=
  [ "Synthesizing visual concepts...";
    "Perfecting geometric proportions...";
    "Applying professional color palettes...";
    "Polishing vector edges...";
    "Optimizing for education and impact...";
    "Adding that 'More Wisdom' touch..." ].

Definition animationMessages : list string :=
  [ "Infusing motion into the design...";
    "Calculating fluid dynamics...";
    "Rendering cinematic lighting...";
    "Bringing your brand to life...";
    "Finalizing visual storytelling...";
    "Just a moment longer, greatness takes time..." ].

(** What the handlers do to the outside: the state setters, the interval
    timer, the key picker of [window.aistudio], and the two awaited calls
    into geminiService. *)
Variant AppE : Type -> Type :=
| SetStep (s : AppStep) : AppE unit
| SetLogo (l : LogoData) : AppE unit
| SetAnimation (a : AnimationData) : AppE unit
| SetIsGenerating (b : bool) : AppE unit
| SetError (e : option string) : AppE unit
| SetImageSize (z : ImageSize) : AppE unit
| SetAspectRatio (r : AspectRatio) : AppE unit
| SetInterval (messages : list string) (ms : Z) : AppE nat
| ClearInterval (interval : nat) : AppE unit
| HasSelectedApiKey : AppE (Settled bool)
| OpenSelectKey : AppE (Settled unit)
| GenerateLogo (prompt : string) (size : ImageSize) : AppE (Settled LogoResult)
| AnimateLogo (image : ImageArg) (animationPrompt : string)
    (ratio : AspectRatio) : AppE (Settled string).

Definition keyCheckFailed : string :=
  "Failed to verify API key selection. Please try again.".

Definition accessRecovery : string :=
  "Your API key may not have access or has been reset. Please re-select.".

(** [err.message?.includes("Requested entity was not found")] *)
Definition entityNotFound (err : JsError) : bool :=
  match message err with
  | Some m => includes m "Requested entity was not found"
  | None => false
  end.

Definition checkApiKey : Async AppE unit :=
  tryCatch
    (hasKey <- await HasSelectedApiKey ;;
     if (hasKey : bool) then call (SetStep Design)
     else (await OpenSelectKey ;; call (SetStep Design)))%async
    (fun _ => call (SetError (Some keyCheckFailed))).

(** [imageSize] is the state cell as the handler's closure holds it. *)
Definition handleGenerateLogo (imageSize : ImageSize) (description : string)
  : Async AppE unit :=
  (call (SetIsGenerating true) ;;
   call (SetError None) ;;
   interval <- call (SetInterval loadingMessages 3000) ;;
   tryFinally
     (tryCatch
        (result <- await (GenerateLogo description imageSize) ;;
         call (SetLogo (mkLogoData (r_url result) (r_base64 result)
                          (r_mimeType result) description)) ;;
         call (SetStep Design))
        (fun err =>
           if entityNotFound err then
             call (SetError (Some accessRecovery)) ;;
             await OpenSelectKey
           else
             call (SetError
                     (Some (or_else (message err)
                              "Something went wrong while generating the logo.")))))
     (call (ClearInterval interval) ;;
      call (SetIsGenerating false)))%async.

(** [logo] and [aspectRatio] are the state cells as the handler's closure
    holds them. *)
Definition handleAnimate (logo : option LogoData) (aspectRatio : AspectRatio)
    (animPrompt : string) : Async AppE unit :=
  match logo with
  | None => ret tt
  | Some logo =>
      (call (SetIsGenerating true) ;;
       call (SetError None) ;;
       interval <- call (SetInterval animationMessages 4000) ;;
       tryFinally
         (tryCatch
            (videoUrl <- await (AnimateLogo
                                  (mkImageArg (base64 logo) (mimeType logo))
                                  animPrompt aspectRatio) ;;
             call (SetAnimation (mkAnimationData videoUrl animPrompt)) ;;
             call (SetStep View))
            (fun err =>
               if entityNotFound err then
                 call (SetError (Some accessRecovery)) ;;
                 await OpenSelectKey
               else
                 call (SetError
                         (Some (or_else (message err) "Failed to animate logo.")))))
         (call (ClearInterval interval) ;;
          call (SetIsGenerating false)))%async
  end.

(** *** The controls of the page and their [onClick]/[onChange] *)

Inductive Control : Type :=
| GetStarted                         (* Setup screen *)
| NavDesigner                        (* header *)
| NavAnimator                        (* header *)
| Generate (description : string)    (* Design screen, text of #logo-prompt *)
| SelectImageSize (z : ImageSize)    (* Design screen *)
| NextAnimate                        (* Design screen, "Next: Animate This Logo" *)
| BackToDesign                       (* Animate screen *)
| AnimateButton (animPrompt : string) (* Animate screen, text of #animation-prompt *)
| SelectAspectRatio (r : AspectRatio) (* Animate screen *)
| ChangeAnimation                    (* View screen *)
| CreateNew.                         (* View screen *)

Definition isSome {A} (o : option A) : bool :=
  match o with Some _ => true | None => false end.

Definition stepIs (s : AppState) (x : AppStep) : bool :=
  match step s, x with
  | Setup, Setup | Design, Design | Animate, Animate | View, View => true
  | _, _ => false
  end.

(** Whether the control is in the rendered page: the conditions of the JSX
    ([step === ... &&], [logo &&], [animation &&]).  The header is always
    rendered; its Animator button is [disabled] without a logo, and its
    handler tests [logo] again, so it counts as rendered here. *)
Definition rendered (s : AppState) (c : Control) : bool :=
  match c with
  | GetStarted => stepIs s Setup
  | NavDesigner | NavAnimator => true
  | Generate _ | SelectImageSize _ => stepIs s Design
  | NextAnimate => stepIs s Design && isSome (logo s)
  | BackToDesign | AnimateButton _ | SelectAspectRatio _ =>
      stepIs s Animate && isSome (logo s)
  | ChangeAnimation | CreateNew => stepIs s View && isSome (animation s)
  end.

(** The handler a control runs, closed over the state of the render. *)
Definition onClick (s : AppState) (c : Control) : Async AppE unit :=
  match c with
  | GetStarted => checkApiKey
  | NavDesigner => call (SetStep Design)
  | NavAnimator => if isSome (logo s) then call (SetStep Animate) else ret tt
  | Generate description => handleGenerateLogo (imageSize s) description
  | SelectImageSize z => call (SetImageSize z)
  | NextAnimate => call (SetStep Animate)
  | BackToDesign => call (SetStep Design)
  | AnimateButton animPrompt => handleAnimate (logo s) (aspectRatio s) animPrompt
  | SelectAspectRatio r => call (SetAspectRatio r)
  | ChangeAnimation => call (SetStep Animate)
  | CreateNew => call (SetStep Design)
  end.

(** *** The world the handlers run in *)

(** A running [setInterval]: its id, the messages its callback cycles
    through, its period and the callback's [msgIndex]. *)
Record Timer : Type := mkTimer {
  timerId : nat;
  timerMessages : list string;
  timerPeriod : Z;
  msgIndex : nat
}.

(** One entry of the trace: an event and its answer. *)
Record Obs : Type := mkObs {
  obs_type : Type;
  obs_event : AppE obs_type;
  obs_answer : obs_type
}.
Arguments mkObs {obs_type} obs_event obs_answer.

Record World : Type := mkWorld {
  app : AppState;
  timers : list Timer;
  nextTimer : nat;
  trace : list Obs       (* oldest first *)
}.

Definition initialWorld : World := mkWorld initialState [] 0 [].

Definition withApp (f : AppState -> AppState) (w : World) : World :=
  mkWorld (f (app w)) (timers w) (nextTimer w) (trace w).

Definition record {X} (e : AppE X) (x : X) (w : World) : World :=
  mkWorld (app w) (timers w) (nextTimer w) (trace w ++ [mkObs e x]).

Definition stillRunning (interval : nat) (t : Timer) : bool :=
  negb (Nat.eqb (timerId t) interval).

(** The synchronous events: what each does to the world and returns.  The
    awaited ones ([None]) are answered by the host. *)
Definition perform {X} (e : AppE X) (w : World) : option (X * World) :=
  match e in AppE X return option (X * World) with
  | SetStep x =>
      Some (tt, withApp (fun s => mkState x (logo s) (animation s)
              (isGenerating s) (error s) (imageSize s) (aspectRatio s)
              (progressMessage s)) w)
  | SetLogo l =>
      Some (tt, withApp (fun s => mkState (step s) (Some l) (animation s)
              (isGenerating s) (error s) (imageSize s) (aspectRatio s)
              (progressMessage s)) w)
  | SetAnimation a =>
      Some (tt, withApp (fun s => mkState (step s) (logo s) (Some a)
              (isGenerating s) (error s) (imageSize s) (aspectRatio s)
              (progressMessage s)) w)
  | SetIsGenerating b =>
      Some (tt, withApp (fun s => mkState (step s) (logo s) (animation s)
              b (error s) (imageSize s) (aspectRatio s)
              (progressMessage s)) w)
  | SetError e =>
      Some (tt, withApp (fun s => mkState (step s) (logo s) (animation s)
              (isGenerating s) e (imageSize s) (aspectRatio s)
              (progressMessage s)) w)
  | SetImageSize z =>
      Some (tt, withApp (fun s => mkState (step s) (logo s) (animation s)
              (isGenerating s) (error s) z (aspectRatio s)
              (progressMessage s)) w)
  | SetAspectRatio r =>
      Some (tt, withApp (fun s => mkState (step s) (logo s) (animation s)
              (isGenerating s) (error s) (imageSize s) r
              (progressMessage s)) w)
  | SetInterval messages ms =>
      Some (nextTimer w,
            mkWorld (app w)
              (timers w ++ [mkTimer (nextTimer w) messages ms 0])
              (S (nextTimer w)) (trace w))
  | ClearInterval interval =>
      Some (tt, mkWorld (app w) (filter (stillRunning interval) (timers w))
                  (nextTimer w) (trace w))
  | HasSelectedApiKey | OpenSelectKey | GenerateLogo _ _ | AnimateLogo _ _ _ =>
      None
  end.

(** The interval callback:
    [setProgressMessage(messages[msgIndex % messages.length]); msgIndex++]. *)
Definition tickTimer (t : Timer) (s : AppState) : Timer * AppState :=
  (mkTimer (timerId t) (timerMessages t) (timerPeriod t) (S (msgIndex t)),
   mkState (step s) (logo s) (animation s) (isGenerating s) (error s)
     (imageSize s) (aspectRatio s)
     (nth (msgIndex t mod List.length (timerMessages t)) (timerMessages t) "")).

(** *** Running one handler to its end *)

(** The host: how each awaited call settles; [None] when it never does. *)
Record Host : Type := mkHost {
  hasSelectedApiKey : option (Settled bool);
  openSelectKey : option (Settled unit);
  generateLogoAnswer : string -> ImageSize -> option (Settled LogoResult);
  animateLogoAnswer : ImageArg -> string -> AspectRatio -> option (Settled string)
}.

Definition settle (h : Host) {X} (e : AppE X) : option X :=
  match e in AppE X return option X with
  | HasSelectedApiKey => hasSelectedApiKey h
  | OpenSelectKey => openSelectKey h
  | GenerateLogo prompt size => generateLogoAnswer h prompt size
  | AnimateLogo image animationPrompt ratio =>
      animateLogoAnswer h image animationPrompt ratio
  | _ => None
  end.

(** One event of a handler in the world [w]: its answer and the world after
    it, with the event appended to the trace.  A synchronous event is
    performed; an awaited call is answered by the host, and [None] when it
    never settles. *)
Definition answerOf (h : Host) {X} (e : AppE X) (w : World) : option (X * World) :=
  match perform e w with
  | Some (x, w') => Some (x, record e x w')
  | None =>
      match settle h e with
      | Some x => Some (x, record e x w)
      | None => None
      end
  end.

(** Run a handler for at most [fuel] steps.  The result is [None] when the
    handler has not returned: the budget ended, or it awaits a call that
    never settles; the world is then the one it is suspended in. *)
Fixpoint run {R} (fuel : nat) (h : Host) (t : itree AppE R) (w : World)
  : World * option R :=
  match fuel with
  | O => (w, None)
  | S fuel' =>
      match observe t with
      | RetF r => (w, Some r)
      | TauF t' => run fuel' h t' w
      | VisF e k =>
          match answerOf h e w with
          | Some (x, w') => run fuel' h (k x) w'
          | None => (w, None)
          end
      end
  end.

(** The host whose two media calls are geminiService run against a provider
    with a budget of [fuel] steps each. *)
Definition connect (fuel : nat) (API_KEY : option string) (p : Provider)
    (hasKey : option (Settled bool)) (selectKey : option (Settled unit)) : Host :=
  mkHost hasKey selectKey
    (fun prompt size =>
       snd (exec fuel p (generateLogo API_KEY prompt size) start))
    (fun image animationPrompt ratio =>
       snd (exec fuel p (animateLogo API_KEY image animationPrompt ratio) start)).

(** *** The page as a whole: handlers in flight together

    A click starts the control's handler as a task.  A task moves one event
    at a time: [Step] for a synchronous event, [Settle] when the call it
    awaits settles (with any answer of the call's type).  A call that never
    settles is a task that is never settled.  [Tick] fires an interval.  The
    browser runs a handler without interruption up to its next [await]; the
    schedules here include those and finer ones.  The progress overlay shown
    while [isGenerating] covers the page and disables nothing, so a click is
    taken whenever its control is rendered. *)

Record System : Type := mkSystem {
  world : World;
  tasks : list (Async AppE unit)
}.

Definition initialSystem : System := mkSystem initialWorld [].

Inductive Answer : Type :=
| BoolAnswer (r : Settled bool)
| UnitAnswer (r : Settled unit)
| LogoAnswer (r : Settled LogoResult)
| UrlAnswer (r : Settled string).

(** The answer as a value of the type the awaited call settles with. *)
Definition coerce {X} (e : AppE X) (a : Answer) : option X :=
  match e in AppE X return option X with
  | HasSelectedApiKey => match a with BoolAnswer r => Some r | _ => None end
  | OpenSelectKey => match a with UnitAnswer r => Some r | _ => None end
  | GenerateLogo _ _ => match a with LogoAnswer r => Some r | _ => None end
  | AnimateLogo _ _ _ => match a with UrlAnswer r => Some r | _ => None end
  | _ => None
  end.

Inductive Input : Type :=
| Click (c : Control)
| Step (i : nat)
| Settle (i : nat) (a : Answer)
| Tick (interval : nat).

Definition replaceTask (i : nat) (t : option (Async AppE unit))
    (ts : list (Async AppE unit)) : list (Async AppE unit) :=
  firstn i ts ++ match t with Some t' => [t'] | None => [] end ++ skipn (S i) ts.

(** The next synchronous move of a task: it returns (and is gone), or does
    one synchronous event.  [None] when it is suspended on an awaited call. *)
Definition stepTask (w : World) (t : Async AppE unit)
  : option (World * option (Async AppE unit)) :=
  match observe t with
  | RetF _ => Some (w, None)
  | TauF t' => Some (w, Some t')
  | VisF e k =>
      match perform e w with
      | Some (x, w') => Some (record e x w', Some (k x))
      | None => None
      end
  end.

(** The call a task awaits settles with [a]. *)
Definition settleTask (a : Answer) (w : World) (t : Async AppE unit)
  : option (World * option (Async AppE unit)) :=
  match observe t with
  | VisF e k =>
      match perform e w, coerce e a with
      | None, Some x => Some (record e x w, Some (k x))
      | _, _ => None
      end
  | _ => None
  end.

Definition tick (interval : nat) (w : World) : World :=
  match find (fun t => Nat.eqb (timerId t) interval) (timers w) with
  | Some t =>
      mkWorld (snd (tickTimer t (app w)))
        (map (fun u => if Nat.eqb (timerId u) interval
                       then fst (tickTimer t (app w)) else u) (timers w))
        (nextTimer w) (trace w)
  | None => w
  end.

Definition moveTask (f : World -> Async AppE unit ->
                         option (World * option (Async AppE unit)))
    (i : nat) (sys : System) : System :=
  match nth_error (tasks sys) i with
  | Some t =>
      match f (world sys) t with
      | Some (w', t') => mkSystem w' (replaceTask i t' (tasks sys))
      | None => sys
      end
  | None => sys
  end.

Definition react (sys : System) (input : Input) : System :=
  match input with
  | Click c =>
      if rendered (app (world sys)) c
      then mkSystem (world sys) (tasks sys ++ [onClick (app (world sys)) c])
      else sys
  | Step i => moveTask stepTask i sys
  | Settle i a => moveTask (settleTask a) i sys
  | Tick interval => mkSystem (tick interval (world sys)) (tasks sys)
  end.

Definition runInputs (inputs : list Input) : System :=
  fold_left react inputs initialSystem.

End App.

(* ===================================================================== *)
(** ** The vocabulary of the statements *)
(* ===================================================================== *)

(** *** The media request client *)

Module ClientSpec.

Import GeminiService.

(** The calls of [n] turns of the polling loop, from the [i]-th status
    report on: each turn sleeps 10 s and fetches the status once. *)
Fixpoint pollCalls (ops : nat -> Operation) (i n : nat) : list Call :=
  match n with
  | O => []
  | S n' =>
      mkCall (SetTimeout 10000) tt
        :: mkCall (GetVideosOperation (ops i)) (Resolved (ops (S i)))
        :: pollCalls ops (S i) n'
  end.

(** The provider's reports from the [i]-th on, for [n] turns: the operation
    is not done, and the next status fetch resolves with the next report. *)
Definition pending (p : Provider) (ops : nat -> Operation) (i n : nat) : Prop :=
  forall j, j < n ->
    truthy_bool (done (ops (i + j))) = false /\
    getVideosOperation p (i + j) (ops (i + j)) = Resolved (ops (S (i + j))).

(** What follows the loop in [animateLogo]. *)
Definition afterPolling (K : option string) (r : Settled Operation)
  : Async ProviderE string :=
  match r with
  | Resolved operation => download K operation
  | Rejected e => Ret (Rejected e)
  end.

(** A sample provider: the image request is answered with one text part
    and one inline image; the video operation is reported done at the third
    status fetch, with a download link; the download succeeds. *)
Definition sampleReports (i : nat) : Operation :=
  if Nat.ltb i 3 then mkOperation None None
  else mkOperation (Some true)
         (Some (mkVideosResponse
                  (Some [mkGeneratedVideo (Some (mkVideo (Some "https://video/1?alt=media")))]))).

Definition sampleImageResponse : GenerateContentResponse :=
  mkResponse
    (Some [mkCandidate
             (Some (mkContent
                      (Some [mkPart (Some "Here is your logo.") None;
                             mkPart None (Some (mkInlineData "AAAA" None))])))]).

Definition sampleProvider : Provider :=
  mkProvider
    (fun _ => Resolved sampleImageResponse)
    (fun _ => Resolved (sampleReports 0))
    (fun i _ => Resolved (sampleReports (S i)))
    (fun target => Resolved (mkFetchResponse 200 target))
    (fun r => Resolved (mkBlob (body r)))
    (fun b => "blob:" ++ bytes b).

(** A provider that refuses the video job. *)
Definition refusingProvider : Provider :=
  mkProvider (generateContent sampleProvider)
    (fun _ => Rejected (Error "quota"))
    (getVideosOperation sampleProvider) (fetch sampleProvider)
    (readBlob sampleProvider) (createObjectURL sampleProvider).

(** A provider whose second status fetch rejects. *)
Definition flakyProvider : Provider :=
  mkProvider (generateContent sampleProvider) (generateVideos sampleProvider)
    (fun i operation =>
       if Nat.eqb i 1 then Rejected (Error "503")
       else getVideosOperation sampleProvider i operation)
    (fetch sampleProvider) (readBlob sampleProvider)
    (createObjectURL sampleProvider).

(** The first generated video of the operation's response has the URI
    [link]: the response is there, it lists a video first, that entry has
    its video, and the video has this URI. *)
Definition firstVideoUri (operation : Operation) (link : string) : Prop :=
  exists resp gv others v,
    response operation = Some resp /\
    generatedVideos resp = Some (gv :: others) /\
    video gv = Some v /\
    uri v = Some link.

(** [response.ok]: the HTTP status is one of 200 to 299. *)
Definition httpOk (r : FetchResponse) : bool :=
  (200 <=? status r)%Z && (status r <? 300)%Z.

(** The fetch of the binary content failed: it was rejected, or it was
    answered with an HTTP error status. *)
Definition fetchFailed (r : Settled FetchResponse) : bool :=
  match r with
  | Rejected _ => true
  | Resolved resp => negb (httpOk resp)
  end.

(** A failed fetch of the content at the download URI makes the call fail:
    [outcome] is what [animateLogo] settled with on the finished
    [operation]. *)
Definition failedDownloadFails (K : option string) (p : Provider)
    (operation : Operation) (outcome : option (Settled string)) : Prop :=
  forall link,
    firstVideoUri operation link -> link <> "" ->
    fetchFailed (fetch p (link ++ "&key=" ++ interpolate K)) = true ->
    exists e, outcome = Some (Rejected e).

(** A provider whose download is refused: the video operation is done from
    the start, with a download link, and the fetch of the link is answered
    403 with the text of the refusal as its body. *)
Definition deniedProvider : Provider :=
  mkProvider
    (generateContent sampleProvider)
    (fun _ => Resolved (sampleReports 3))
    (getVideosOperation sampleProvider)
    (fun _ => Resolved (mkFetchResponse 403 "PERMISSION_DENIED"))
    (readBlob sampleProvider)
    (createObjectURL sampleProvider).

End ClientSpec.

(** *** One handler of the controller *)

Module AppSpec.

Import GeminiService App.
Local Open Scope list_scope.

Definition obs {X} (e : AppE X) (x : X) : Obs := mkObs e x.

(** The values written to [isGenerating], in order. *)
Definition busyWrites (tr : list Obs) : list bool :=
  flat_map (fun o => match obs_event o with
                     | SetIsGenerating b => [b]
                     | _ => []
                     end) tr.

(** The number of times the key picker was opened and settled. *)
Definition keySelections (tr : list Obs) : nat :=
  List.length (filter (fun o => match obs_event o with
                                | OpenSelectKey => true
                                | _ => false
                                end) tr).

(** The intervals started and cleared, in order: [inl] a start, [inr] a
    clear. *)
Definition intervalEvents (tr : list Obs) : list (nat + nat) :=
  flat_map (fun o => match o with
                     | mkObs (SetInterval _ _) id => [inl id]
                     | mkObs (ClearInterval id) _ => [inr id]
                     | _ => []
                     end) tr.

(** The key check of [checkApiKey] succeeds: a key is already selected, or
    the picker it opens settles normally. *)
Definition keyCheckSucceeds (h : Host) : bool :=
  match hasSelectedApiKey h with
  | Some (Resolved true) => true
  | Some (Resolved false) =>
      match openSelectKey h with
      | Some (Resolved _) => true
      | _ => false
      end
  | _ => false
  end.

(** The key check fails: one of its two calls rejects. *)
Definition keyCheckFails (h : Host) : bool :=
  match hasSelectedApiKey h with
  | Some (Rejected _) => true
  | Some (Resolved false) =>
      match openSelectKey h with
      | Some (Rejected _) => true
      | _ => false
      end
  | _ => false
  end.

(** The controls that navigate. *)
Definition isNavigation (c : Control) : bool :=
  match c with
  | NavDesigner | NavAnimator | NextAnimate | BackToDesign | ChangeAnimation
  | CreateNew => true
  | _ => false
  end.

(** Everything of the state but [step]. *)
Definition sameButStep (s s' : AppState) : Prop :=
  logo s' = logo s /\ animation s' = animation s /\
  isGenerating s' = isGenerating s /\ error s' = error s /\
  imageSize s' = imageSize s /\ aspectRatio s' = aspectRatio s /\
  progressMessage s' = progressMessage s.

(** Sample hosts and worlds. *)
Definition sampleLogo : LogoResult :=
  mkLogoResult "data:image/png;base64,AAAA" "AAAA" "image/png".

Definition entityNotFoundError : JsError :=
  Error "404: Requested entity was not found.".

Definition quotaError : JsError := Error "429: quota exceeded".

(** Every call settles and succeeds. *)
Definition obligingHost : Host :=
  mkHost (Some (Resolved true)) (Some (Resolved tt))
    (fun _ _ => Some (Resolved sampleLogo))
    (fun _ _ _ => Some (Resolved "blob:1")).

(** No key is selected and the picker rejects. *)
Definition keylessHost : Host :=
  mkHost (Some (Resolved false)) (Some (Rejected (Error "dismissed")))
    (fun _ _ => Some (Rejected quotaError))
    (fun _ _ _ => Some (Rejected quotaError)).

(** Both media calls reject with "entity not found"; the picker settles
    according to [picker]. *)
Definition lostAccessHost (picker : option (Settled unit)) : Host :=
  mkHost (Some (Resolved true)) picker
    (fun _ _ => Some (Rejected entityNotFoundError))
    (fun _ _ _ => Some (Rejected entityNotFoundError)).

Definition withLogo (l : LogoData) (st : AppStep) : World :=
  mkWorld (mkState st (Some l) None false None Size1K Ratio16x9 "") [] 0 [].

Definition owl : LogoData :=
  mkLogoData "data:image/png;base64,AAAA" "AAAA" "image/png" "blue owl logo".

(** [runs h n t w w' r]: run from the world [w] with the host [h], the tree
    [t] returns [r] in the world [w'] after [n] events and silent steps. *)
Inductive runs (h : Host) {R} : nat -> itree AppE R -> World -> World -> R -> Prop :=
| runs_ret t w r :
    observe t = RetF r -> runs h 0 t w w r
| runs_tau n t t' w w' r :
    observe t = TauF t' -> runs h n t' w w' r -> runs h (S n) t w w' r
| runs_vis n X (e : AppE X) k t w x w1 w' r :
    observe t = VisF e k -> answerOf h e w = Some (x, w1) ->
    runs h n (k x) w1 w' r -> runs h (S n) t w w' r.

(** [hangs h n t w w']: after [n] events and silent steps the tree awaits a
    call that never settles, in the world [w']. *)
Inductive hangs (h : Host) {R} : nat -> itree AppE R -> World -> World -> Prop :=
| hangs_here X (e : AppE X) k t w :
    observe t = VisF e k -> answerOf h e w = None -> hangs h 0 t w w
| hangs_tau n t t' w w' :
    observe t = TauF t' -> hangs h n t' w w' -> hangs h (S n) t w w'
| hangs_vis n X (e : AppE X) k t w x w1 w' :
    observe t = VisF e k -> answerOf h e w = Some (x, w1) ->
    hangs h n (k x) w1 w' -> hangs h (S n) t w w'.

(** The body that [handleGenerateLogo] and [handleAnimate] share, with the
    parts in which they differ as parameters. *)
Definition generationFlow {X} (messages : list string) (ms : Z)
    (media : AppE (Settled X)) (onSuccess : X -> Async AppE unit)
    (fallback : string) : Async AppE unit :=
  (call (SetIsGenerating true) ;;
   call (SetError None) ;;
   interval <- call (SetInterval messages ms) ;;
   tryFinally
     (tryCatch
        (x <- await media ;; onSuccess x)
        (fun err =>
           if entityNotFound err then
             call (SetError (Some accessRecovery)) ;;
             await OpenSelectKey
           else
             call (SetError (Some (or_else (message err) fallback)))))
     (call (ClearInterval interval) ;;
      call (SetIsGenerating false)))%async.

Definition storeLogo (description : string) (result : LogoResult)
  : Async AppE unit :=
  (call (SetLogo (mkLogoData (r_url result) (r_base64 result)
                    (r_mimeType result) description)) ;;
   call (SetStep Design))%async.

Definition storeAnimation (animPrompt : string) (videoUrl : string)
  : Async AppE unit :=
  (call (SetAnimation (mkAnimationData videoUrl animPrompt)) ;;
   call (SetStep View))%async.

(** The world after a synchronous event. *)
Definition did {X} (e : AppE X) (w : World) : World :=
  match perform e w with
  | Some (x, w') => record e x w'
  | None => w
  end.

(** The world after the opening of a generation handler, and after the
    call it awaits has settled with [r]. *)
Definition opened (messages : list string) (ms : Z) (w : World) : World :=
  did (SetInterval messages ms) (did (SetError None) (did (SetIsGenerating true) w)).

Definition settled {X} (messages : list string) (ms : Z)
    (media : AppE (Settled X)) (r : Settled X) (w : World) : World :=
  record media r (opened messages ms w).

(** The world after the [finally] block that clears the interval [id]. *)
Definition closed (id : nat) (w : World) : World :=
  did (SetIsGenerating false) (did (ClearInterval id) w).

(** The trace of a generation handler up to the point where its media call
    has rejected with "entity not found" and the recovery message is set. *)
Definition rejectionTrace {X} (messages : list string) (ms : Z) (id : nat)
    (media : AppE (Settled X)) (err : JsError) : list Obs :=
  [ obs (SetIsGenerating true) tt;
    obs (SetError None) tt;
    obs (SetInterval messages ms) id;
    obs media (Rejected err);
    obs (SetError (Some accessRecovery)) tt ].

(** The rest of that trace once the picker has settled with [picker]. *)
Definition recoveryTrace (id : nat) (picker : Settled unit) : list Obs :=
  [ obs OpenSelectKey picker;
    obs (ClearInterval id) tt;
    obs (SetIsGenerating false) tt ].

(** The error has a message, and the text "Requested entity was not found"
    occurs in it. *)
Definition mentionsLostEntity (err : JsError) : Prop :=
  exists m before rest,
    message err = Some m /\
    m = (before ++ "Requested entity was not found" ++ rest)%string.

(** What the [catch] block makes of one generation handler [t] with
    interval messages [messages], period [ms] and fallback text [fallback],
    run from [w], when its media call [media] rejected with [err]: one thing
    when the error mentions the lost entity, another when it does not. *)
Definition recoversAccess {X} (h : Host) (w : World) (t : Async AppE unit)
    (messages : list string) (ms : Z) (media : AppE (Settled X))
    (fallback : string) (err : JsError) : Prop :=
  let w' := fst (run 9 h t w) in
  (mentionsLostEntity err ->
   error (app w') = Some accessRecovery /\
   match openSelectKey h with
   | Some picker =>
       (* the picker was opened once and has settled: the call is over *)
       snd (run 9 h t w) = Some picker
       /\ trace w' = trace w ++ rejectionTrace messages ms (nextTimer w) media err
                             ++ recoveryTrace (nextTimer w) picker
       /\ keySelections (trace w') = S (keySelections (trace w))
       /\ isGenerating (app w') = false
   | None =>
       (* the picker is open and stays open: the handler awaits it *)
       snd (run 9 h t w) = None
       /\ trace w' = trace w ++ rejectionTrace messages ms (nextTimer w) media err
       /\ isGenerating (app w') = true
   end)
  /\
  (~ mentionsLostEntity err ->
   snd (run 9 h t w) = Some (Resolved tt)
   /\ keySelections (trace w') = keySelections (trace w)
   /\ error (app w') = Some (or_else (message err) fallback)
   /\ isGenerating (app w') = false).

(** The media call settled with an "entity not found" rejection: the
    handler goes on to await the key picker. *)
Definition awaitsPicker {X} (r : Settled X) : bool :=
  match r with
  | Rejected err => entityNotFound err
  | Resolved _ => false
  end.

(** One call of a generation handler [t], run from [w], whose media call
    [media] settled with [r]: the handler returns; its trace opens with
    the write of [true], the interval started and the media call, and closes
    with the interval cleared and the write of [false], next to each other;
    nothing in between writes [isGenerating] or touches an interval. *)
Definition busyOncePerCall {X} (h : Host) (w : World) (t : Async AppE unit)
    (messages : list string) (ms : Z) (media : AppE (Settled X))
    (r : Settled X) : Prop :=
  exists fuel w' outcome mid,
    run fuel h t w = (w', Some outcome) /\
    trace w' = trace w ++
      ([ obs (SetIsGenerating true) tt;
         obs (SetError None) tt;
         obs (SetInterval messages ms) (nextTimer w);
         obs media r ] ++ mid ++
       [ obs (ClearInterval (nextTimer w)) tt;
         obs (SetIsGenerating false) tt ]) /\
    busyWrites mid = [] /\ intervalEvents mid = [] /\
    isGenerating (app w') = false /\
    (forall t, In t (timers w') -> timerId t <> nextTimer w).

(** A provider that answers the image request with text only. *)
Definition textOnlyProvider : Provider :=
  mkProvider
    (fun _ => Resolved
                (mkResponse
                   (Some [mkCandidate
                            (Some (mkContent
                                     (Some [mkPart (Some "I cannot draw that.")
                                              None])))])))
    (generateVideos ClientSpec.sampleProvider)
    (getVideosOperation ClientSpec.sampleProvider)
    (fetch ClientSpec.sampleProvider)
    (readBlob ClientSpec.sampleProvider)
    (createObjectURL ClientSpec.sampleProvider).

End AppSpec.

(** *** The page with handlers in flight together *)

Module PageSpec.

Import GeminiService App.
Local Open Scope list_scope.

(** The logos and animations stored so far, and the calls of [animateLogo]
    that have settled, each with its arguments and answer. *)
Definition logosSet (tr : list Obs) : list LogoData :=
  flat_map (fun o => match obs_event o with
                     | SetLogo l => [l]
                     | _ => []
                     end) tr.

Definition animationsSet (tr : list Obs) : list AnimationData :=
  flat_map (fun o => match obs_event o with
                     | SetAnimation a => [a]
                     | _ => []
                     end) tr.

Definition AnimateCall : Type := ImageArg * string * AspectRatio * Settled string.

Definition animateCallOf (o : Obs) : list AnimateCall :=
  match obs_event o in AppE X return X -> list AnimateCall with
  | AnimateLogo image animationPrompt ratio =>
      fun x => [(image, animationPrompt, ratio, x)]
  | _ => fun _ => []
  end (obs_answer o).

Definition animateCalls (tr : list Obs) : list AnimateCall :=
  flat_map animateCallOf tr.

Definition imageOf (l : LogoData) : ImageArg :=
  mkImageArg (base64 l) (mimeType l).

(** The animation [a] is the answer of a call of [animateLogo] on the image
    of the logo [l], with the prompt of [a]. *)
Definition animatedFrom (tr : list Obs) (a : AnimationData) (l : LogoData)
  : Prop :=
  exists ratio,
    In (imageOf l, animPrompt a, ratio, Resolved (videoUrl a)) (animateCalls tr).

(** ... on the image of some logo that the page has stored. *)
Definition derived (tr : list Obs) (a : AnimationData) : Prop :=
  exists l, In l (logosSet tr) /\ animatedFrom tr a l.

(** The history [tr'] holds what [tr] holds: the logos and animations stored
    and the calls settled. *)
Definition extends (tr tr' : list Obs) : Prop :=
  incl (logosSet tr) (logosSet tr') /\
  incl (animationsSet tr) (animationsSet tr') /\
  incl (animateCalls tr) (animateCalls tr').

(** *** What a handler may do, given the history

    [setStep(Animate)] needs a stored logo, [setStep(View)] a stored
    animation, [setAnimation(a)] an [a] that is derived, and a call of
    [animateLogo] the image of a stored logo. *)
Definition allowed (tr : list Obs) {X} (e : AppE X) : Prop :=
  match e with
  | SetStep Animate => logosSet tr <> []
  | SetStep View => animationsSet tr <> []
  | SetAnimation a => derived tr a
  | AnimateLogo image _ _ => exists l, In l (logosSet tr) /\ image = imageOf l
  | _ => True
  end.

(** [safe Q tr t]: run from the history [tr], with other handlers adding
    to the history between its events, [t] does allowed events only, and if
    it returns [r] with the history [tr'] then [Q r tr']. *)
Inductive safe {R} (Q : R -> list Obs -> Prop)
  : list Obs -> itree AppE R -> Prop :=
| safe_ret tr t r :
    observe t = RetF r -> Q r tr -> safe Q tr t
| safe_tau tr t t' :
    observe t = TauF t' -> safe Q tr t' -> safe Q tr t
| safe_vis tr t X (e : AppE X) k :
    observe t = VisF e k -> allowed tr e ->
    (forall x tr', extends (tr ++ [mkObs e x]) tr' -> safe Q tr' (k x)) ->
    safe Q tr t.

Definition anyOutcome {R} : R -> list Obs -> Prop := fun _ _ => True.

(** After an event answered [x], the history holds the event. *)
Definition since {X} (tr : list Obs) (e : AppE X) : X -> list Obs -> Prop :=
  fun x tr' => extends (tr ++ [mkObs e x]) tr'.

(** The state agrees with the history: what is stored was stored by a
    setter in the history, nothing stored is ever dropped, the step is
    Animate or View only with a logo in the history and View only with an
    animation, every animation in the history is derived, and every call
    of [animateLogo] in it was made on the image of a stored logo. *)
Record consistent (s : AppState) (tr : list Obs) : Prop := mkConsistent {
  logo_stored : forall l, logo s = Some l -> In l (logosSet tr);
  animation_stored : forall a, animation s = Some a -> In a (animationsSet tr);
  logo_kept : logosSet tr <> [] -> logo s <> None;
  animation_kept : animationsSet tr <> [] -> animation s <> None;
  animate_has_logo : step s = Animate \/ step s = View -> logosSet tr <> [];
  view_has_animation : step s = View -> animationsSet tr <> [];
  animations_derived : forall a, In a (animationsSet tr) -> derived tr a;
  calls_on_stored_logos :
    forall image animationPrompt ratio x,
      In (image, animationPrompt, ratio, x) (animateCalls tr) ->
      exists l, In l (logosSet tr) /\ image = imageOf l
}.

Definition good (sys : System) : Prop :=
  consistent (app (world sys)) (trace (world sys)) /\
  forall t, In t (tasks sys) -> safe anyOutcome (trace (world sys)) t.

(** The stored animation is the answer of a call of [animateLogo] on the
    image of the logo that is stored now. *)
Definition derivedFromCurrent (w : World) : Prop :=
  forall a, animation (app w) = Some a ->
            exists l, logo (app w) = Some l /\ animatedFrom (trace w) a l.

Definition owlResult : LogoResult :=
  mkLogoResult "data:image/png;base64,AAAA" "AAAA" "image/png".

Definition foxResult : LogoResult :=
  mkLogoResult "data:image/png;base64,BBBB" "BBBB" "image/png".

(** A session: get started, generate a logo, animate it, "Create New",
    generate another logo.  Every handler runs without interruption up to
    its await and from the answer to its end; no two are in flight
    together. *)
Definition secondLogoSession : list Input :=
  [Click GetStarted; Settle 0 (BoolAnswer (Resolved true))]
    ++ repeat (Step 0) 2
    ++ [Click (Generate "blue owl logo")] ++ repeat (Step 0) 3
    ++ [Settle 0 (LogoAnswer (Resolved owlResult))] ++ repeat (Step 0) 5
    ++ [Click NextAnimate] ++ repeat (Step 0) 2
    ++ [Click (AnimateButton "pages turn slowly")] ++ repeat (Step 0) 3
    ++ [Settle 0 (UrlAnswer (Resolved "blob:1"))] ++ repeat (Step 0) 5
    ++ [Click CreateNew] ++ repeat (Step 0) 2
    ++ [Click (Generate "red fox logo")] ++ repeat (Step 0) 3
    ++ [Settle 0 (LogoAnswer (Resolved foxResult))] ++ repeat (Step 0) 5.

End PageSpec.

(** *** App.tsx: what [App] returns

    The JSX that the component returns, as far as it depends on the state:
    which screen of [<main>] is rendered and with which values, whether the
    progress overlay and the error banner are shown and with what text, and
    whether the Animator button of the header is disabled.  Fixed texts,
    icons and class names are left out, the class of the video frame apart
    (it is chosen by [aspectRatio]). *)

Module Render.

Import App.
Local Open Scope list_scope.

(** The text the description box falls back to. *)
Definition sampleDescription : string :=
  "A clean educational logo for 'More Wisdom' non-profit, featuring a stylized open book and a sun rising, blue and gold colors, minimalist vector style.".

(** The screens of [<main>], each with the values of the state that its
    JSX reads. *)
Inductive Screen : Type :=
| SetupScreen
| DesignScreen
    (defaultDescription : string)   (* defaultValue of #logo-prompt *)
    (quality : ImageSize)           (* value of the Image Quality select *)
    (preview : option string)       (* src of the preview and of its download link *)
    (nextButton : bool)             (* "Next: Animate This Logo" is there *)
| AnimateScreen
    (format : AspectRatio)          (* value of the Format select *)
    (reference : string)            (* src of the static logo reference *)
| ViewScreen
    (videoSrc : string)             (* src of the video *)
    (frame : string)                (* class of the video frame *)
    (miniLogo : option string)      (* logo?.url *)
    (logoCaption : option string)   (* logo?.prompt *)
    (animationStyle : string)       (* animation.prompt *)
    (downloadHref : string).        (* href of "Download Animation" *)

(** The page: [disabled={!logo}] of the Animator button,
    [isGenerating && renderProgress()], [error && (...)], and the four
    guarded screens of [<main>]. *)
Record Page : Type := mkPage {
  animatorDisabled : bool;
  overlay : option string;
  banner : option string;
  screens : list Screen
}.

Definition videoFrame (r : AspectRatio) : string :=
  match r with
  | Ratio9x16 => "max-w-sm mx-auto aspect-[9/16]"
  | _ => "aspect-video"
  end.

Definition render (s : AppState) : Page :=
  mkPage
    (negb (isSome (logo s)))
    (if isGenerating s then Some (progressMessage s) else None)
    (if truthy (error s) then error s else None)
    ((if stepIs s Setup then [SetupScreen] else []) ++
     (if stepIs s Design
      then [DesignScreen
              (or_else (option_map prompt (logo s)) sampleDescription)
              (imageSize s)
              (option_map url (logo s))
              (isSome (logo s))]
      else []) ++
     (if stepIs s Animate
      then match logo s with
           | Some l => [AnimateScreen (aspectRatio s) (url l)]
           | None => []
           end
      else []) ++
     (if stepIs s View
      then match animation s with
           | Some a =>
               [ViewScreen (videoUrl a) (videoFrame (aspectRatio s))
                  (option_map url (logo s)) (option_map prompt (logo s))
                  (animPrompt a) (videoUrl a)]
           | None => []
           end
      else [])).

(** The step a screen belongs to. *)
Definition screenStep (screen : Screen) : AppStep :=
  match screen with
  | SetupScreen => Setup
  | DesignScreen _ _ _ _ => Design
  | AnimateScreen _ _ => Animate
  | ViewScreen _ _ _ _ _ _ => View
  end.

(** The View screen shows the logo it names. *)
Definition showsItsLogo (screen : Screen) : Prop :=
  match screen with
  | ViewScreen _ _ miniLogo logoCaption _ _ =>
      miniLogo <> None /\ logoCaption <> None
  | _ => True
  end.

End Render.

(** *** The calls of a whole run of the client *)

Module ClientEdgeSpec.

Import GeminiService.
Local Open Scope list_scope.

(** The calls of the download part of [animateLogo] on a finished
    operation: none without a download link; otherwise the fetch of the link
    with [&key=] and the API key appended, then, when the fetch resolved, the
    blob read, then, when that resolved, the object URL made of the blob. *)
Definition downloadCalls (K : option string) (p : Provider)
    (operation : Operation) : list Call :=
  let link := downloadLink operation in
  let target := (interpolate link ++ "&key=" ++ interpolate K)%string in
  if truthy link then
    match fetch p target with
    | Resolved resp =>
        mkCall (Fetch target) (Resolved resp)
          :: match readBlob p resp with
             | Resolved blob =>
                 [ mkCall (ReadBlob resp) (Resolved blob);
                   mkCall (CreateObjectURL blob) (createObjectURL p blob) ]
             | Rejected e => [ mkCall (ReadBlob resp) (Rejected e) ]
             end
    | Rejected e => [ mkCall (Fetch target) (Rejected e) ]
    end
  else [].

(** The sleeps among the calls, in order. *)
Definition sleeps (cs : list Call) : list Z :=
  flat_map (fun c => match call_event c with
                     | SetTimeout ms => [ms]
                     | _ => []
                     end) cs.

(** The number of downloads started among the calls. *)
Definition downloads (cs : list Call) : nat :=
  List.length (filter (fun c => match call_event c with
                                | Fetch _ => true
                                | _ => false
                                end) cs).

End ClientEdgeSpec.

(** *** What a handler leaves of the state *)

Module HandlerSpec.

Import GeminiService App.
Local Open Scope list_scope.

(** Everything of the state but [progressMessage]. *)
Definition sameButMessage (s s' : AppState) : Prop :=
  step s' = step s /\ logo s' = logo s /\ animation s' = animation s /\
  isGenerating s' = isGenerating s /\ error s' = error s /\
  imageSize s' = imageSize s /\ aspectRatio s' = aspectRatio s.

(** Everything of the state but [error] and [isGenerating]. *)
Definition sameAssets (s s' : AppState) : Prop :=
  step s' = step s /\ logo s' = logo s /\ animation s' = animation s /\
  imageSize s' = imageSize s /\ aspectRatio s' = aspectRatio s /\
  progressMessage s' = progressMessage s.

(** What a handler stores for the user: everything of the state but
    [error], [isGenerating] and [progressMessage]. *)
Definition sameStored (s s' : AppState) : Prop :=
  step s' = step s /\ logo s' = logo s /\ animation s' = animation s /\
  imageSize s' = imageSize s /\ aspectRatio s' = aspectRatio s.

(** The number of key checks that have settled. *)
Definition keyChecks (tr : list Obs) : nat :=
  List.length (filter (fun o => match obs_event o with
                                | HasSelectedApiKey => true
                                | _ => false
                                end) tr).

(** The error that the [catch] block of a generation handler shows. *)
Definition shownError (fallback : string) (err : JsError) : string :=
  if entityNotFound err then accessRecovery
  else or_else (message err) fallback.

(** The handler [t], run from [w] when its media call rejects with [err],
    returns; it leaves the step, the logo, the animation and the options
    as they were, [isGenerating] false, and the error of its [catch] block,
    which is the fallback text when the error has no message or an empty
    one. *)
Definition failsCleanly (h : Host) (w : World) (t : Async AppE unit)
    (fallback : string) (err : JsError) : Prop :=
  let out := run 9 h t w in
  snd out <> None /\
  sameStored (app w) (app (fst out)) /\
  isGenerating (app (fst out)) = false /\
  error (app (fst out)) = Some (shownError fallback err) /\
  (message err = None \/ message err = Some "" ->
   error (app (fst out)) = Some fallback).

(** A host whose media calls never settle. *)
Definition stalledHost : Host :=
  mkHost (Some (Resolved true)) (Some (Resolved tt))
    (fun _ _ => None) (fun _ _ _ => None).

(** A provider that never reports the video operation done. *)
Definition stalledProvider : Provider :=
  mkProvider
    (generateContent ClientSpec.sampleProvider)
    (fun _ => Resolved (mkOperation None None))
    (fun _ _ => Resolved (mkOperation None None))
    (fetch ClientSpec.sampleProvider)
    (readBlob ClientSpec.sampleProvider)
    (createObjectURL ClientSpec.sampleProvider).

(** A provider that refuses the image request. *)
Definition overQuotaProvider : Provider :=
  mkProvider
    (fun _ => Rejected (Error "429: quota exceeded"))
    (generateVideos ClientSpec.sampleProvider)
    (getVideosOperation ClientSpec.sampleProvider)
    (fetch ClientSpec.sampleProvider)
    (readBlob ClientSpec.sampleProvider)
    (createObjectURL ClientSpec.sampleProvider).

(** A provider whose download answers 404; the video operation is done
    from the start. *)
Definition notFoundProvider : Provider :=
  mkProvider
    (generateContent ClientSpec.sampleProvider)
    (fun _ => Resolved (ClientSpec.sampleReports 3))
    (getVideosOperation ClientSpec.sampleProvider)
    (fun _ => Resolved (mkFetchResponse 404 "Not Found"))
    (readBlob ClientSpec.sampleProvider)
    (createObjectURL ClientSpec.sampleProvider).

End HandlerSpec.

(** *** The ticker, and what the handlers in flight have yet to undo *)

Module TidySpec.

Import GeminiService App HandlerSpec.
Local Open Scope list_scope.

(** [n] firings of the interval [interval]. *)
Fixpoint ticks (n : nat) (interval : nat) (w : World) : World :=
  match n with
  | O => w
  | S n' => ticks n' interval (tick interval w)
  end.

(** The texts the overlay can show. *)
Definition phrases : list string :=
  "" :: loadingMessages ++ animationMessages.

(** The two intervals that the handlers start. *)
Definition knownInterval (messages : list string) (ms : Z) : Prop :=
  (messages = loadingMessages /\ ms = 3000%Z) \/
  (messages = animationMessages /\ ms = 4000%Z).

(** *** Ghost state of a handler

    A handler in flight carries a ghost value [g]: [fine e g] says which
    events it may do with it, and [after e x g] is the value after the event
    [e] answered [x].  [keeps Q g t]: from [g], the tree [t] does fine
    events only, whatever the answers, and when it returns [r] with the
    ghost value [g'] then [Q r g']. *)
Section Ghost.

Variable G : Type.
Variable fine : forall X, AppE X -> G -> Prop.
Variable after : forall X, AppE X -> X -> G -> G.

Inductive keeps {R} (Q : R -> G -> Prop) : G -> itree AppE R -> Prop :=
| keeps_ret g t r :
    observe t = RetF r -> Q r g -> keeps Q g t
| keeps_tau g t t' :
    observe t = TauF t' -> keeps Q g t' -> keeps Q g t
| keeps_vis g t X (e : AppE X) k :
    observe t = VisF e k -> fine X e g ->
    (forall x, keeps Q (after X e x g) (k x)) ->
    keeps Q g t.

End Ghost.

Arguments keeps {G} fine after {R} Q _ _.

(** Returning with the ghost value [g]. *)
Definition owing {G R} (g : G) : R -> G -> Prop := fun _ g' => g' = g.

(** Returning with any. *)
Definition whatever {G R} : R -> G -> Prop := fun _ _ => True.

(** *** What a handler has yet to undo *)

(** The intervals a handler started and has not cleared, and whether its
    last write to [isGenerating] was [true]. *)
Record Debt : Type := mkDebt {
  running : list nat;
  busy : bool
}.

Definition noDebt : Debt := mkDebt [] false.

(** The debt after an event answered [x]. *)
Definition after {X} (e : AppE X) : X -> Debt -> Debt :=
  match e in AppE X return X -> Debt -> Debt with
  | SetInterval _ _ => fun interval d => mkDebt (interval :: running d) (busy d)
  | ClearInterval interval =>
      fun _ d =>
        mkDebt (filter (fun j => negb (Nat.eqb j interval)) (running d)) (busy d)
  | SetIsGenerating b => fun _ d => mkDebt (running d) b
  | _ => fun _ d => d
  end.

(** The events of the handlers: the step is never set back to Setup, an
    interval is one of the two known ones, and an error that is shown is not
    the empty string. *)
Definition fine {X} (e : AppE X) : Prop :=
  match e with
  | SetStep Setup => False
  | SetInterval messages ms => knownInterval messages ms
  | SetError (Some EmptyString) => False
  | _ => True
  end.

(** [pays Q d t]: from the debt [d], the tree [t] does fine events only,
    and when it returns [r] with the debt [d'] then [Q r d']. *)
Definition pays {R} (Q : R -> Debt -> Prop) : Debt -> itree AppE R -> Prop :=
  keeps (fun X (e : AppE X) (_ : Debt) => fine e) (@after) Q.

(** Returning with nothing left to undo. *)
Definition cleared {R} : R -> Debt -> Prop := fun _ d => d = noDebt.

(** The page is tidy: every handler in flight returns, if it does, with
    nothing left to undo; every running interval is one that a handler in
    flight has yet to clear; [isGenerating] is true only while a handler in
    flight has yet to write [false]; the running intervals are known ones;
    the progress message is one of the phrases; and the error is not the
    empty string. *)
Record tidy (sys : System) : Prop := mkTidy {
  tasks_pay : forall t, In t (tasks sys) -> exists d, pays cleared d t;
  timers_owned :
    forall tm, In tm (timers (world sys)) ->
      exists t d, In t (tasks sys) /\ pays cleared d t /\
                  In (timerId tm) (running d);
  busy_owned :
    isGenerating (app (world sys)) = true ->
    exists t d, In t (tasks sys) /\ pays cleared d t /\ busy d = true;
  timers_known :
    forall tm, In tm (timers (world sys)) ->
      knownInterval (timerMessages tm) (timerPeriod tm);
  message_known : In (progressMessage (app (world sys))) phrases;
  error_not_empty : error (app (world sys)) <> Some ""
}.

(** *** Cause to open the key picker *)

(** An entry of the trace that gives cause to open the key picker: a key
    check answered "no", or a media call rejected with an error that
    [entityNotFound] recognises. *)
Definition isCause (o : Obs) : bool :=
  match obs_event o in AppE X return X -> bool with
  | HasSelectedApiKey =>
      fun r => match r with Resolved false => true | _ => false end
  | GenerateLogo _ _ =>
      fun r => match r with Rejected err => entityNotFound err | _ => false end
  | AnimateLogo _ _ _ =>
      fun r => match r with Rejected err => entityNotFound err | _ => false end
  | _ => fun _ => false
  end (obs_answer o).

(** An entry of the trace in which the key picker, opened, has settled. *)
Definition isPicker (o : Obs) : bool :=
  match obs_event o with
  | OpenSelectKey => true
  | _ => false
  end.

(** Whether a handler has been given cause, after an event answered [x]. *)
Definition causeAfter X (e : AppE X) : X -> bool -> bool :=
  match e in AppE X return X -> bool -> bool with
  | HasSelectedApiKey =>
      fun r c => match r with Resolved false => true | _ => c end
  | GenerateLogo _ _ =>
      fun r c => match r with Rejected err => c || entityNotFound err | _ => c end
  | AnimateLogo _ _ _ =>
      fun r c => match r with Rejected err => c || entityNotFound err | _ => c end
  | _ => fun _ c => c
  end.

(** The key picker is opened with cause only. *)
Definition pickerFine X (e : AppE X) (c : bool) : Prop :=
  match e with
  | OpenSelectKey => c = true
  | _ => True
  end.

(** [picks c t]: the tree [t], of a handler that has been given cause or
    not according to [c], opens the key picker with cause only. *)
Definition picks {R} : bool -> itree AppE R -> Prop :=
  keeps pickerFine causeAfter whatever.

(** Every opening of the key picker in the trace has a cause before it. *)
Definition pickerHasCause (tr : list Obs) : Prop :=
  forall before o rest,
    tr = before ++ o :: rest -> isPicker o = true ->
    exists cause, In cause before /\ isCause cause = true.

(** The page opens the key picker for cause: so far every opening had a
    cause before it, and every handler in flight opens the picker with cause
    only, the cause being in the trace when it has been given one. *)
Definition causal (sys : System) : Prop :=
  pickerHasCause (trace (world sys)) /\
  forall t, In t (tasks sys) ->
    exists c, picks c t /\
              (c = true -> exists cause, In cause (trace (world sys)) /\
                                         isCause cause = true).

(** A session in which no key is selected and the picker is opened. *)
Definition keySelectionSession : list Input :=
  [ Click GetStarted;
    Settle 0 (BoolAnswer (Resolved false));
    Settle 0 (UnitAnswer (Resolved tt)) ].

End TidySpec.

(* ===================================================================== *)
(** ** Properties of the media request client *)
(* ===================================================================== *)

Module ClientFacts.

Import GeminiService ClientSpec.

(** How [observe] sees a bind and a loop: both hold by unfolding. *)
Lemma observe_bind {E R T} (t : itree E R) (k : R -> itree E T) :
  observe (ITree.bind t k) =
  observe (match observe t with
           | RetF r => k r
           | TauF t' => Tau (ITree.bind t' k)
           | VisF e h => Vis e (fun x => ITree.bind (h x) k)
           end).
Proof. reflexivity. Qed.

Lemma observe_iter {E I R} (body : I -> itree E (I + R)) (i : I) :
  observe (ITree.iter body i) =
  observe (ITree.bind (body i)
             (fun lr => match lr with
                        | inl l => Tau (ITree.iter body l)
                        | inr r => Ret r
                        end)).
Proof. reflexivity. Qed.

Section Polling.

Variable p : Provider.
Variable ops : nat -> Operation.
Context {T : Type}.
Variable k : Settled Operation -> itree ProviderE T.

(** One turn of the loop costs three steps: the sleep, the fetch, and the
    silent step back to the loop head. *)
Lemma poll_turn fuel i tr :
  truthy_bool (done (ops i)) = false ->
  getVideosOperation p i (ops i) = Resolved (ops (S i)) ->
  exec (S (S (S fuel))) p (ITree.bind (pollUntilDone (ops i)) k) (mkRun i tr) =
  exec fuel p (ITree.bind (pollUntilDone (ops (S i))) k)
    (mkRun (S i) (tr ++ pollCalls ops i 1)).
Proof.
  intros Hd Hf. unfold pollUntilDone.
  cbn [exec]. rewrite observe_bind, observe_iter, observe_bind.
  unfold pollBody at 1. rewrite Hd. cbn. rewrite Hf. cbn.
  rewrite <- app_assoc. reflexivity.
Qed.

Lemma poll_turns n : forall fuel i tr,
  pending p ops i n ->
  exec (3 * n + fuel) p (ITree.bind (pollUntilDone (ops i)) k) (mkRun i tr) =
  exec fuel p (ITree.bind (pollUntilDone (ops (i + n))) k)
    (mkRun (i + n) (tr ++ pollCalls ops i n)).
Proof.
  induction n as [|n IH]; intros fuel i tr H.
  - cbn [pollCalls]. rewrite app_nil_r, Nat.add_0_r. reflexivity.
  - destruct (H 0 ltac:(lia)) as [Hd Hf]. rewrite Nat.add_0_r in Hd, Hf.
    replace (3 * S n + fuel) with (S (S (S (3 * n + fuel)))) by lia.
    rewrite (poll_turn _ _ _ Hd Hf).
    rewrite IH.
    + replace (S i + n) with (i + S n) by lia.
      rewrite <- app_assoc. reflexivity.
    + intros j Hj. specialize (H (S j) ltac:(lia)).
      replace (i + S j) with (S i + j) in H by lia. exact H.
Qed.

(** The loop leaves at once, without a step of its own, when the operation
    reports done. *)
Lemma poll_done fuel i s :
  truthy_bool (done (ops i)) = true ->
  exec fuel p (ITree.bind (pollUntilDone (ops i)) k) s =
  exec fuel p (k (Resolved (ops i))) s.
Proof.
  intros Hd. destruct fuel as [|fuel]; [reflexivity|].
  unfold pollUntilDone. cbn [exec].
  rewrite observe_bind, observe_iter, observe_bind.
  unfold pollBody at 1. rewrite Hd. reflexivity.
Qed.

(** While the provider keeps reporting "not done", no budget gets the loop
    to return. *)
Lemma poll_forever :
  (forall n, pending p ops 0 n) ->
  forall fuel i tr,
    snd (exec fuel p (ITree.bind (pollUntilDone (ops i)) k) (mkRun i tr)) = None.
Proof.
  intros H fuel. induction fuel as [fuel IH] using lt_wf_ind. intros i tr.
  destruct (H (S i) i ltac:(lia)) as [Hd Hf]. cbn [Nat.add] in Hd, Hf.
  destruct fuel as [|[|[|fuel]]].
  - reflexivity.
  - unfold pollUntilDone. cbn [exec].
    rewrite observe_bind, observe_iter, observe_bind.
    unfold pollBody at 1. rewrite Hd. reflexivity.
  - unfold pollUntilDone. cbn [exec].
    rewrite observe_bind, observe_iter, observe_bind.
    unfold pollBody at 1. rewrite Hd. reflexivity.
  - rewrite (poll_turn _ _ _ Hd Hf). apply IH. lia.
Qed.

End Polling.

(** [download] has no loop: four steps always bring it to its end. *)
Lemma download_returns (K : option string) (p : Provider) (operation : Operation)
    (s : Run) :
  snd (exec 4 p (download K operation) s) <> None.
Proof.
  unfold download. destruct (truthy (downloadLink operation)); cbn; [|discriminate].
  destruct (fetch p _); cbn; [|discriminate].
  destruct (readBlob p _); cbn; discriminate.
Qed.

(** A bind on a returned value is the continuation, at no cost. *)
Lemma exec_ret_bind {R T} (p : Provider) (x : R) (k : R -> itree ProviderE T)
    (fuel : nat) (s : Run) :
  exec fuel p (ITree.bind (Ret x) k) s = exec fuel p (k x) s.
Proof. destruct fuel; reflexivity. Qed.

(** The first step of [animateLogo]: the job is submitted and the loop is
    entered with the operation handle. *)
Lemma animateLogo_submitted (K : option string) (image : ImageArg)
    (animationPrompt : string) (ratio : AspectRatio) (p : Provider)
    (first : Operation) (fuel : nat) :
  generateVideos p (videosRequest K image animationPrompt ratio) = Resolved first ->
  exec (S fuel) p (animateLogo K image animationPrompt ratio) start =
  exec fuel p (ITree.bind (pollUntilDone first) (afterPolling K))
    (mkRun 0 [mkCall (GenerateVideos (videosRequest K image animationPrompt ratio))
                (Resolved first)]).
Proof.
  intros Hgen. unfold animateLogo, Js.bind, await. cbn [exec].
  rewrite observe_bind. cbn [observe _observe ITree.trigger answer fetches calls
                              countFetch start app].
  rewrite Hgen. rewrite exec_ret_bind. reflexivity.
Qed.

(** [animateLogo] up to the end of its loop, when the provider reports done
    at the [n]-th report and not before. *)
Lemma animateLogo_reaches_download (K : option string) (image : ImageArg)
    (animationPrompt : string) (ratio : AspectRatio) (p : Provider)
    (ops : nat -> Operation) (n fuel : nat) :
  generateVideos p (videosRequest K image animationPrompt ratio) = Resolved (ops 0) ->
  pending p ops 0 n ->
  truthy_bool (done (ops n)) = true ->
  exec (3 * n + S fuel) p (animateLogo K image animationPrompt ratio) start =
  exec fuel p (download K (ops n))
    (mkRun n (mkCall (GenerateVideos (videosRequest K image animationPrompt ratio))
                (Resolved (ops 0)) :: pollCalls ops 0 n)).
Proof.
  intros Hgen Hpend Hdone.
  replace (3 * n + S fuel) with (S (3 * n + fuel)) by lia.
  rewrite (animateLogo_submitted _ _ _ _ _ _ _ Hgen).
  rewrite (poll_turns p ops _ n fuel 0 _ Hpend). cbn [Nat.add].
  rewrite poll_done by exact Hdone. reflexivity.
Qed.

Lemma sampleProvider_pending : pending sampleProvider sampleReports 0 3.
Proof.
  intros j Hj. destruct j as [|[|[|j]]]; try lia; split; reflexivity.
Defined.

(** C3 (animateLogo, the polling loop).  Each turn of the loop sleeps 10000
    ms and fetches the status once, whatever the turn.  If the provider's
    [n]-th report is the first that is done, the loop makes exactly [n] turns
    and the function goes on to the download part with that operation, which
    returns.  If no report is ever done, the function is still running
    after any number of steps, and after [3 * n + 1] steps it has made
    exactly [n] turns, for every [n]: no bound, no timeout, no backoff. *)
Theorem animateLogo_polling (K : option string) (image : ImageArg)
    (animationPrompt : string) (ratio : AspectRatio) (p : Provider)
    (ops : nat -> Operation) :
  generateVideos p (videosRequest K image animationPrompt ratio) = Resolved (ops 0) ->
  let submit :=
    mkCall (GenerateVideos (videosRequest K image animationPrompt ratio))
      (Resolved (ops 0)) in
  (forall n,
      pending p ops 0 n ->
      truthy_bool (done (ops n)) = true ->
      exec (3 * n + 5) p (animateLogo K image animationPrompt ratio) start =
      exec 4 p (download K (ops n)) (mkRun n (submit :: pollCalls ops 0 n))
      /\ snd (exec (3 * n + 5) p (animateLogo K image animationPrompt ratio) start)
         <> None)
  /\
  ((forall n, pending p ops 0 n) ->
   (forall fuel,
       snd (exec fuel p (animateLogo K image animationPrompt ratio) start) = None)
   /\
   (forall n,
       fst (exec (3 * n + 1) p (animateLogo K image animationPrompt ratio) start) =
       mkRun n (submit :: pollCalls ops 0 n))).
Proof.
  intros Hgen submit. split.
  - intros n Hpend Hdone.
    pose proof (animateLogo_reaches_download K image animationPrompt ratio p ops
                  n 4 Hgen Hpend Hdone) as E.
    split; [exact E|]. rewrite E. apply download_returns.
  - intros Hnever. split.
    + intros [|fuel]; [reflexivity|].
      rewrite (animateLogo_submitted _ _ _ _ _ _ _ Hgen).
      apply poll_forever. exact Hnever.
    + intros n.
      replace (3 * n + 1) with (S (3 * n + 0)) by lia.
      rewrite (animateLogo_submitted _ _ _ _ _ _ _ Hgen).
      rewrite (poll_turns p ops _ n 0 0 _ (Hnever n)). reflexivity.
Qed.

Lemma animateLogo_polling_witness :
  snd (exec 14 sampleProvider
         (animateLogo (Some "k") (mkImageArg "AAAA" "image/png") "spin" Ratio16x9)
         start)
  = Some (Resolved "blob:https://video/1?alt=media&key=k").
Proof.
  destruct (animateLogo_polling (Some "k") (mkImageArg "AAAA" "image/png") "spin"
              Ratio16x9 sampleProvider sampleReports eq_refl) as [H _].
  destruct (H 3 sampleProvider_pending eq_refl) as [E _].
  change (3 * 3 + 5) with 14 in E. rewrite E. reflexivity.
Defined.

(** What [downloadLink] reads is the URI of the first generated video. *)
Lemma downloadLink_firstVideoUri (operation : Operation) (link : string) :
  downloadLink operation = Some link <-> firstVideoUri operation link.
Proof.
  unfold downloadLink, firstVideoUri. split.
  - destruct (response operation) as [resp|] eqn:Er; [|discriminate].
    destruct (generatedVideos resp) as [[|gv others]|] eqn:Eg; try discriminate.
    destruct (video gv) as [v|] eqn:Ev; [|discriminate].
    intros Eu. exists resp, gv, others, v. repeat split; assumption.
  - intros (resp & gv & others & v & Er & Eg & Ev & Eu).
    rewrite Er, Eg, Ev. exact Eu.
Qed.

(** The outcome of the download part of [animateLogo]. *)
Lemma download_outcome (K : option string) (p : Provider) (operation : Operation)
    (s : Run) :
  snd (exec 4 p (download K operation) s) =
  Some (if truthy (downloadLink operation)
        then match fetch p (interpolate (downloadLink operation) ++ "&key="
                              ++ interpolate K)%string with
             | Resolved resp =>
                 match readBlob p resp with
                 | Resolved blob => Resolved (createObjectURL p blob)
                 | Rejected e => Rejected e
                 end
             | Rejected e => Rejected e
             end
        else Rejected NoVideoReturned).
Proof.
  unfold download. destruct (truthy (downloadLink operation)); cbn; [|reflexivity].
  destruct (fetch p _); cbn; [|reflexivity].
  destruct (readBlob p _); reflexivity.
Qed.

(** C8, as the code has it (animateLogo, after the loop).  When the
    operation has completed: if the first generated video of the response
    has no URI (the response, the list of videos, its first entry, that
    entry's video or the video's URI is missing) or an empty one, the call
    rejects with "Failed to get video download link." and fetches nothing.
    If it has one, the URI with [&key=] and the API key appended is
    fetched: when [fetch] rejects, or the blob read of its response
    rejects, the call rejects with that same error; when both resolve, the
    call resolves with the object URL made for the blob.  The response is
    handed to the blob read as it is: its HTTP status is never looked at. *)
Theorem animateLogo_download (K : option string) (image : ImageArg)
    (animationPrompt : string) (ratio : AspectRatio) (p : Provider)
    (ops : nat -> Operation) (n : nat) :
  generateVideos p (videosRequest K image animationPrompt ratio) = Resolved (ops 0) ->
  pending p ops 0 n ->
  truthy_bool (done (ops n)) = true ->
  let outcome :=
    snd (exec (3 * n + 5) p (animateLogo K image animationPrompt ratio) start) in
  ((forall link, firstVideoUri (ops n) link -> link = "") ->
   outcome = Some (Rejected NoVideoReturned))
  /\
  (forall link,
      firstVideoUri (ops n) link -> link <> "" ->
      match fetch p (link ++ "&key=" ++ interpolate K) with
      | Rejected e => outcome = Some (Rejected e)
      | Resolved resp =>
          match readBlob p resp with
          | Rejected e => outcome = Some (Rejected e)
          | Resolved blob => outcome = Some (Resolved (createObjectURL p blob))
          end
      end)
  /\
  (forall link status body blob,
      firstVideoUri (ops n) link -> link <> "" ->
      fetch p (link ++ "&key=" ++ interpolate K)
      = Resolved (mkFetchResponse status body) ->
      readBlob p (mkFetchResponse status body) = Resolved blob ->
      outcome = Some (Resolved (createObjectURL p blob))).
Proof.
  intros Hgen Hpend Hdone outcome. subst outcome.
  rewrite (animateLogo_reaches_download K image animationPrompt ratio p ops
             n 4 Hgen Hpend Hdone).
  rewrite download_outcome.
  split; [|split].
  - intros Hnone.
    destruct (downloadLink (ops n)) as [[|c link]|] eqn:El; try reflexivity.
    apply downloadLink_firstVideoUri in El. apply Hnone in El. discriminate El.
  - intros link Hl Hne. apply downloadLink_firstVideoUri in Hl. rewrite Hl.
    destruct link as [|c link]; [congruence|]. cbn [truthy interpolate].
    destruct (fetch p _) as [resp|e]; [|reflexivity].
    destruct (readBlob p resp); reflexivity.
  - intros link status body blob Hl Hne Hfetch Hblob.
    apply downloadLink_firstVideoUri in Hl. rewrite Hl.
    destruct link as [|c link]; [congruence|]. cbn [truthy interpolate].
    rewrite Hfetch, Hblob. reflexivity.
Qed.

Lemma sampleReports_link :
  firstVideoUri (sampleReports 3) "https://video/1?alt=media".
Proof.
  exists (mkVideosResponse
            (Some [mkGeneratedVideo (Some (mkVideo (Some "https://video/1?alt=media")))])),
    (mkGeneratedVideo (Some (mkVideo (Some "https://video/1?alt=media")))),
    [], (mkVideo (Some "https://video/1?alt=media")).
  repeat split.
Defined.

Lemma animateLogo_download_witness :
  snd (exec 14 sampleProvider
         (animateLogo None (mkImageArg "AAAA" "image/png") "spin" Ratio9x16) start)
  = Some (Resolved (createObjectURL sampleProvider
                      (mkBlob "https://video/1?alt=media&key=undefined"))).
Proof.
  destruct (animateLogo_download None (mkImageArg "AAAA" "image/png") "spin"
              Ratio9x16 sampleProvider sampleReports 3 eq_refl
              sampleProvider_pending eq_refl) as (_ & _ & H).
  apply (H "https://video/1?alt=media" 200%Z
           "https://video/1?alt=media&key=undefined"
           (mkBlob "https://video/1?alt=media&key=undefined")
           sampleReports_link);
    [discriminate|reflexivity|reflexivity].
Defined.

(** C8 as stated fails where the download is answered with an HTTP error
    status.  With [deniedProvider] the operation is done and has a download
    link, and the fetch of the link is answered 403, so the binary content
    was not fetched; yet [animateLogo] does not fail: it resolves with an
    object URL, made of the body of the refusal. *)
Lemma refused_download_is_returned :
  let operation := sampleReports 3 in
  let outcome :=
    snd (exec 5 deniedProvider
           (animateLogo (Some "k") (mkImageArg "AAAA" "image/png") "spin" Ratio16x9)
           start) in
  firstVideoUri operation "https://video/1?alt=media"
  /\ fetch deniedProvider "https://video/1?alt=media&key=k"
     = Resolved (mkFetchResponse 403 "PERMISSION_DENIED")
  /\ fetchFailed (fetch deniedProvider "https://video/1?alt=media&key=k") = true
  /\ outcome = Some (Resolved "blob:PERMISSION_DENIED")
  /\ ~ failedDownloadFails (Some "k") deniedProvider operation outcome.
Proof.
  intros operation outcome.
  assert (Ho : outcome = Some (Resolved "blob:PERMISSION_DENIED"))
    by (vm_compute; reflexivity).
  split; [exact sampleReports_link|]. split; [reflexivity|].
  split; [reflexivity|]. split; [exact Ho|].
  intros H.
  destruct (H "https://video/1?alt=media" sampleReports_link) as [e He];
    [discriminate|reflexivity|].
  rewrite Ho in He. discriminate He.
Qed.

(** *** The other ways out of [animateLogo], and [generateLogo] *)

(** When submitting the job rejects, [animateLogo] rejects with the same
    error and never polls. *)
Lemma animateLogo_submit_rejected (K : option string) (image : ImageArg)
    (animationPrompt : string) (ratio : AspectRatio) (p : Provider)
    (e : JsError) (fuel : nat) :
  generateVideos p (videosRequest K image animationPrompt ratio) = Rejected e ->
  exec (S (S fuel)) p (animateLogo K image animationPrompt ratio) start =
  (mkRun 0 [mkCall (GenerateVideos (videosRequest K image animationPrompt ratio))
              (Rejected e)],
   Some (Rejected e)).
Proof.
  intros Hgen. unfold animateLogo, Js.bind, await. cbn [exec].
  rewrite observe_bind. cbn [observe _observe ITree.trigger answer fetches calls
                              countFetch start app].
  rewrite Hgen. reflexivity.
Qed.

Lemma animateLogo_submit_rejected_witness :
  snd (exec 2 refusingProvider
         (animateLogo None (mkImageArg "AAAA" "image/png") "spin" Ratio1x1) start)
  = Some (Rejected (Error "quota")).
Proof.
  rewrite (animateLogo_submit_rejected None (mkImageArg "AAAA" "image/png") "spin"
             Ratio1x1 refusingProvider (Error "quota") 0 eq_refl).
  reflexivity.
Defined.

(** When the [n]-th status fetch rejects, after [n] turns in which the
    operation was not done, [animateLogo] leaves the loop and rejects with
    the error of that fetch. *)
Lemma animateLogo_poll_rejected (K : option string) (image : ImageArg)
    (animationPrompt : string) (ratio : AspectRatio) (p : Provider)
    (ops : nat -> Operation) (n : nat) (e : JsError) :
  generateVideos p (videosRequest K image animationPrompt ratio) = Resolved (ops 0) ->
  pending p ops 0 n ->
  truthy_bool (done (ops n)) = false ->
  getVideosOperation p n (ops n) = Rejected e ->
  snd (exec (3 * n + 4) p (animateLogo K image animationPrompt ratio) start)
  = Some (Rejected e).
Proof.
  intros Hgen Hpend Hd Hf.
  replace (3 * n + 4) with (S (3 * n + 3)) by lia.
  rewrite (animateLogo_submitted _ _ _ _ _ _ _ Hgen).
  rewrite (poll_turns p ops _ n 3 0 _ Hpend). cbn [Nat.add].
  unfold pollUntilDone. cbn [exec].
  rewrite observe_bind, observe_iter, observe_bind.
  unfold pollBody at 1. rewrite Hd. cbn. rewrite Hf. reflexivity.
Qed.

Lemma animateLogo_poll_rejected_witness :
  snd (exec 7 flakyProvider
         (animateLogo None (mkImageArg "AAAA" "image/png") "spin" Ratio1x1) start)
  = Some (Rejected (Error "503")).
Proof.
  apply (animateLogo_poll_rejected None (mkImageArg "AAAA" "image/png") "spin"
           Ratio1x1 flakyProvider sampleReports 1 (Error "503") eq_refl).
  - intros j Hj. destruct j as [|j]; [split; reflexivity|lia].
  - reflexivity.
  - reflexivity.
Defined.

(** [generateLogo] resolves with the first part that carries inline data:
    its data as [base64], its mime type (or "image/png" when it has none) as
    [mimeType], and the data URI made of the two as [url]. *)
Lemma generateLogo_first_inline (K : option string) (p : Provider)
    (prompt : string) (size : ImageSize) (response : GenerateContentResponse)
    (before rest : list Part) (part : Part) (payload : InlineData) (fuel : nat) :
  generateContent p (contentRequest K prompt size) = Resolved response ->
  firstCandidateParts response = (before ++ part :: rest)%list ->
  (forall q, In q before -> inlineData q = None) ->
  inlineData part = Some payload ->
  snd (exec (S (S fuel)) p (generateLogo K prompt size) start) =
  Some (Resolved
          (mkLogoResult
             ("data:" ++ or_else (inlineMimeType payload) "image/png"
                ++ ";base64," ++ data payload)
             (data payload)
             (or_else (inlineMimeType payload) "image/png"))).
Proof.
  intros Hresp Hparts Hbefore Hpart.
  unfold generateLogo, Js.bind, await. cbn [exec].
  rewrite observe_bind. cbn [observe _observe ITree.trigger answer fetches calls
                              countFetch start app].
  rewrite Hresp. cbn. rewrite Hparts. f_equal. clear Hparts.
  induction before as [|q before IH]; cbn [firstInline List.app].
  - rewrite Hpart. reflexivity.
  - rewrite (Hbefore q (or_introl eq_refl)). apply IH.
    intros q' Hq'. apply Hbefore. right. exact Hq'.
Qed.

Lemma generateLogo_first_inline_witness :
  snd (exec 2 sampleProvider (generateLogo None "blue owl logo" Size2K) start)
  = Some (Resolved (mkLogoResult "data:image/png;base64,AAAA" "AAAA" "image/png")).
Proof.
  apply (generateLogo_first_inline None sampleProvider "blue owl logo" Size2K
           sampleImageResponse [mkPart (Some "Here is your logo.") None] []
           (mkPart None (Some (mkInlineData "AAAA" None)))
           (mkInlineData "AAAA" None) 0 eq_refl eq_refl); [|reflexivity].
  intros q [E|[]]. rewrite <- E. reflexivity.
Defined.

Example includes_is_substring :
  includes "404: Requested entity was not found." "Requested entity was not found"
  = true
  /\ includes "No image data returned from model." "Requested entity was not found"
     = false
  /\ includes "requested entity was not found" "Requested entity was not found"
     = false
  /\ includes "abc" "" = true.
Proof. repeat split. Qed.

Example downloadLink_of_reports :
  downloadLink (sampleReports 0) = None /\
  downloadLink (sampleReports 3) = Some "https://video/1?alt=media" /\
  downloadLink (mkOperation (Some true) (Some (mkVideosResponse (Some [])))) = None.
Proof. repeat split. Qed.

End ClientFacts.


(* ===================================================================== *)
(** ** Properties of the workflow controller *)
(* ===================================================================== *)

Module AppFacts.

Import GeminiService App AppSpec.
Local Open Scope list_scope.

(** *** Running a handler *)

(** More budget does not change a run that has returned. *)
Lemma run_more {R} (h : Host) : forall fuel (t : itree AppE R) w w' r extra,
  run fuel h t w = (w', Some r) ->
  run (fuel + extra) h t w = (w', Some r).
Proof.
  induction fuel as [|fuel IH]; intros t w w' r extra H.
  - discriminate.
  - cbn [Nat.add run] in *. destruct (observe t) as [x|t'|X e k].
    + exact H.
    + apply IH. exact H.
    + destruct (answerOf h e w) as [[x w1]|]; [apply IH; exact H|discriminate].
Qed.

(** *** [checkApiKey] and the navigation controls *)

(** C5 (checkApiKey).  From Setup, the step becomes Design exactly when the
    key check succeeds; when the check fails, the error is set to the
    key-check message and the step is still Setup. *)
Theorem checkApiKey_transition (h : Host) (w : World) :
  step (app w) = Setup ->
  let w' := fst (run 4 h checkApiKey w) in
  (step (app w') = Design <-> keyCheckSucceeds h = true) /\
  (keyCheckFails h = true ->
   snd (run 4 h checkApiKey w) = Some (Resolved tt) /\
   error (app w') = Some keyCheckFailed /\ step (app w') = Setup).
Proof.
  intros Hs. unfold keyCheckSucceeds, keyCheckFails, checkApiKey.
  cbn. destruct (hasSelectedApiKey h) as [[[|]|e]|]; cbn.
  - split; [tauto|discriminate].
  - destruct (openSelectKey h) as [[[]|e]|]; cbn; rewrite ?Hs;
      (split; [split; (discriminate || tauto)|]); try discriminate; auto.
  - rewrite Hs. split; [split; discriminate|auto].
  - rewrite Hs. split; [split; discriminate|discriminate].
Qed.

Lemma checkApiKey_transition_witness :
  step (app (fst (run 4 keylessHost checkApiKey initialWorld))) = Setup /\
  error (app (fst (run 4 keylessHost checkApiKey initialWorld)))
  = Some keyCheckFailed.
Proof.
  destruct (checkApiKey_transition keylessHost initialWorld eq_refl) as [_ H].
  destruct (H eq_refl) as (_ & He & Hs). split; assumption.
Defined.

(** C10 (the navigation controls: Designer, Animator, "Next: Animate This
    Logo", "Back to Design", "Change Animation", "Create New").  Each leaves
    every state cell but [step] as it was, and the timers too; "Create New"
    and "Back to Design" set the step to Design, so the logo and the
    animation are kept. *)
Theorem navigation_changes_step_only (h : Host) (w : World) (c : Control) :
  isNavigation c = true ->
  let w' := fst (run 2 h (onClick (app w) c) w) in
  snd (run 2 h (onClick (app w) c) w) = Some (Resolved tt) /\
  sameButStep (app w) (app w') /\
  timers w' = timers w /\
  (c = CreateNew \/ c = BackToDesign -> step (app w') = Design).
Proof.
  intros Hc. unfold sameButStep.
  destruct c; try discriminate Hc; cbn;
    try (destruct (isSome (logo (app w))); cbn);
    repeat split; auto; intros [E|E]; discriminate E.
Qed.

Lemma navigation_changes_step_only_witness :
  let w := mkWorld (mkState View (Some owl) (Some (mkAnimationData "blob:1" "spin"))
                      false None Size1K Ratio16x9 "") [] 0 [] in
  let w' := fst (run 2 obligingHost (onClick (app w) CreateNew) w) in
  step (app w') = Design /\ logo (app w') = Some owl /\
  animation (app w') = Some (mkAnimationData "blob:1" "spin").
Proof.
  intros w w'.
  destruct (navigation_changes_step_only obligingHost w CreateNew eq_refl)
    as (_ & (Hl & Ha & _) & _ & Hs).
  split; [exact (Hs (or_introl eq_refl))|]. split; assumption.
Defined.

(** *** A program logic for the handlers: [runs] and [hangs] *)

Section Runs.

Variable h : Host.

Lemma runs_run {R} n (t : itree AppE R) w w' r :
  runs h n t w w' r -> forall fuel, n < fuel -> run fuel h t w = (w', Some r).
Proof.
  induction 1 as [t w r Ht|n t t' w w' r Ht _ IH|n X e k t w x w1 w' r Ht Ha _ IH];
    intros [|fuel] Hf; try lia; cbn [run]; rewrite Ht.
  - reflexivity.
  - apply IH. lia.
  - rewrite Ha. apply IH. lia.
Qed.

Lemma hangs_run {R} n (t : itree AppE R) w w' :
  hangs h n t w w' -> forall fuel, n < fuel -> run fuel h t w = (w', None).
Proof.
  induction 1 as [X e k t w Ht Ha|n t t' w w' Ht _ IH|n X e k t w x w1 w' Ht Ha _ IH];
    intros [|fuel] Hf; try lia; cbn [run]; rewrite Ht.
  - rewrite Ha. reflexivity.
  - apply IH. lia.
  - rewrite Ha. apply IH. lia.
Qed.

(** Both judgements read a tree through [observe] only. *)
Lemma runs_observe {R} n (t t' : itree AppE R) w w' r :
  observe t' = observe t -> runs h n t w w' r -> runs h n t' w w' r.
Proof.
  intros E H. destruct H.
  - apply runs_ret. congruence.
  - eapply runs_tau; [|eassumption]. congruence.
  - eapply runs_vis; [|eassumption|eassumption]. congruence.
Qed.

Lemma hangs_observe {R} n (t t' : itree AppE R) w w' :
  observe t' = observe t -> hangs h n t w w' -> hangs h n t' w w'.
Proof.
  intros E H. destruct H.
  - eapply hangs_here; [|eassumption]. rewrite E. eassumption.
  - eapply hangs_tau; [|eassumption]. congruence.
  - eapply hangs_vis; [|eassumption|eassumption]. congruence.
Qed.

Lemma runs_bind {R T} (k : R -> itree AppE T) n1 n2 t w w1 w2 x y :
  runs h n1 t w w1 x -> runs h n2 (k x) w1 w2 y ->
  runs h (n1 + n2) (ITree.bind t k) w w2 y.
Proof.
  intros H. revert n2 w2 y.
  induction H as [t w r Ht|n t t' w w' r Ht _ IH|n X e k0 t w x w1 w' r Ht Ha _ IH];
    intros n2 w2 y H2; cbn [Nat.add].
  - eapply runs_observe; [|exact H2].
    rewrite ClientFacts.observe_bind, Ht. reflexivity.
  - eapply runs_tau; [|apply IH; exact H2].
    rewrite ClientFacts.observe_bind, Ht. reflexivity.
  - apply runs_vis with (e := e) (k := fun x0 => ITree.bind (k0 x0) k)
                       (x := x) (w1 := w1); [|exact Ha|apply IH; exact H2].
    rewrite ClientFacts.observe_bind, Ht. reflexivity.
Qed.

Lemma hangs_bind_l {R T} (k : R -> itree AppE T) n t w w' :
  hangs h n t w w' -> hangs h n (ITree.bind t k) w w'.
Proof.
  induction 1 as [X e k0 t w Ht Ha|n t t' w w' Ht _ IH|n X e k0 t w x w1 w' Ht Ha _ IH].
  - apply hangs_here with (e := e) (k := fun x0 => ITree.bind (k0 x0) k);
      [|exact Ha].
    rewrite ClientFacts.observe_bind, Ht. reflexivity.
  - eapply hangs_tau; [|exact IH].
    rewrite ClientFacts.observe_bind, Ht. reflexivity.
  - apply hangs_vis with (e := e) (k := fun x0 => ITree.bind (k0 x0) k)
                        (x := x) (w1 := w1); [|exact Ha|exact IH].
    rewrite ClientFacts.observe_bind, Ht. reflexivity.
Qed.

Lemma hangs_bind_r {R T} (k : R -> itree AppE T) n1 n2 t w w1 w2 x :
  runs h n1 t w w1 x -> hangs h n2 (k x) w1 w2 ->
  hangs h (n1 + n2) (ITree.bind t k) w w2.
Proof.
  intros H. revert n2 w2.
  induction H as [t w r Ht|n t t' w w' r Ht _ IH|n X e k0 t w x w1 w' r Ht Ha _ IH];
    intros n2 w2 H2; cbn [Nat.add].
  - eapply hangs_observe; [|exact H2].
    rewrite ClientFacts.observe_bind, Ht. reflexivity.
  - eapply hangs_tau; [|apply IH; exact H2].
    rewrite ClientFacts.observe_bind, Ht. reflexivity.
  - apply hangs_vis with (e := e) (k := fun x0 => ITree.bind (k0 x0) k)
                        (x := x) (w1 := w1); [|exact Ha|apply IH; exact H2].
    rewrite ClientFacts.observe_bind, Ht. reflexivity.
Qed.

(** The rules of the [async] combinators. *)

Lemma runs_pure {R} (r : R) w : runs h 0 (Ret r : itree AppE R) w w r.
Proof. apply runs_ret. reflexivity. Qed.

Lemma runs_call {X} (e : AppE X) w x w1 :
  answerOf h e w = Some (x, w1) -> runs h 1 (call e) w w1 (Resolved x).
Proof.
  intros Ha.
  apply runs_vis with (e := e) (x := x) (w1 := w1)
    (k := fun x0 => ITree.bind (Ret x0) (fun x1 => Ret (Resolved x1)));
    [reflexivity|exact Ha|].
  apply runs_ret. reflexivity.
Qed.

Lemma runs_await {X} (e : AppE (Settled X)) w r w1 :
  answerOf h e w = Some (r, w1) -> runs h 1 (await e) w w1 r.
Proof.
  intros Ha.
  apply runs_vis with (e := e) (x := r) (w1 := w1) (k := fun x0 => Ret x0);
    [reflexivity|exact Ha|].
  apply runs_ret. reflexivity.
Qed.

Lemma hangs_await {X} (e : AppE (Settled X)) w :
  answerOf h e w = None -> hangs h 0 (await e) w w.
Proof.
  intros Ha.
  apply hangs_here with (e := e) (k := fun x0 => Ret x0); [reflexivity|exact Ha].
Qed.

Lemma runs_seq {A B} (m : Async AppE A) (k : A -> Async AppE B) n1 n2 w w1 w2 a r :
  runs h n1 m w w1 (Resolved a) -> runs h n2 (k a) w1 w2 r ->
  runs h (n1 + n2) (Js.bind m k) w w2 r.
Proof. intros H1 H2. unfold Js.bind. eapply runs_bind; [exact H1|exact H2]. Qed.

Lemma runs_seq_throw {A B} (m : Async AppE A) (k : A -> Async AppE B) n w w1 e :
  runs h n m w w1 (Rejected e) -> runs h (n + 0) (Js.bind m k) w w1 (Rejected e).
Proof. intros H1. unfold Js.bind. eapply runs_bind; [exact H1|apply runs_pure]. Qed.

Lemma runs_tryCatch_ok {A} (body : Async AppE A) handler n w w1 a :
  runs h n body w w1 (Resolved a) ->
  runs h (n + 0) (tryCatch body handler) w w1 (Resolved a).
Proof. intros H1. unfold tryCatch. eapply runs_bind; [exact H1|apply runs_pure]. Qed.

Lemma runs_tryCatch_caught {A} (body : Async AppE A) handler n1 n2 w w1 w2 e r :
  runs h n1 body w w1 (Rejected e) -> runs h n2 (handler e) w1 w2 r ->
  runs h (n1 + n2) (tryCatch body handler) w w2 r.
Proof. intros H1 H2. unfold tryCatch. eapply runs_bind; [exact H1|exact H2]. Qed.

Lemma runs_tryFinally {A} (body : Async AppE A) finalizer n1 n2 w w1 w2 r u :
  runs h n1 body w w1 r -> runs h n2 finalizer w1 w2 (Resolved u) ->
  runs h (n1 + (n2 + 0)) (tryFinally body finalizer) w w2 r.
Proof.
  intros H1 H2. unfold tryFinally. eapply runs_bind; [exact H1|].
  eapply runs_bind; [exact H2|apply runs_pure].
Qed.

Lemma hangs_seq_l {A B} (m : Async AppE A) (k : A -> Async AppE B) n w w' :
  hangs h n m w w' -> hangs h n (Js.bind m k) w w'.
Proof. apply hangs_bind_l. Qed.

Lemma hangs_seq_r {A B} (m : Async AppE A) (k : A -> Async AppE B) n1 n2 w w1 w2 a :
  runs h n1 m w w1 (Resolved a) -> hangs h n2 (k a) w1 w2 ->
  hangs h (n1 + n2) (Js.bind m k) w w2.
Proof. intros H1 H2. unfold Js.bind. eapply hangs_bind_r; [exact H1|exact H2]. Qed.

Lemma hangs_tryCatch_caught {A} (body : Async AppE A) handler n1 n2 w w1 w2 e :
  runs h n1 body w w1 (Rejected e) -> hangs h n2 (handler e) w1 w2 ->
  hangs h (n1 + n2) (tryCatch body handler) w w2.
Proof. intros H1 H2. unfold tryCatch. eapply hangs_bind_r; [exact H1|exact H2]. Qed.

Lemma hangs_tryFinally_body {A} (body : Async AppE A) finalizer n w w' :
  hangs h n body w w' -> hangs h n (tryFinally body finalizer) w w'.
Proof. apply hangs_bind_l. Qed.

End Runs.

(** *** The common shape of the two generation handlers *)

Lemma handleGenerateLogo_flow (z : ImageSize) (description : string) :
  handleGenerateLogo z description =
  generationFlow loadingMessages 3000 (GenerateLogo description z)
    (storeLogo description)
    "Something went wrong while generating the logo.".
Proof. reflexivity. Qed.

Lemma handleAnimate_flow (l : LogoData) (r : AspectRatio) (animPrompt : string) :
  handleAnimate (Some l) r animPrompt =
  generationFlow animationMessages 4000
    (AnimateLogo (mkImageArg (base64 l) (mimeType l)) animPrompt r)
    (storeAnimation animPrompt) "Failed to animate logo.".
Proof. reflexivity. Qed.

Section Flow.

Variable h : Host.
Context {X : Type}.
Variable messages : list string.
Variable ms : Z.
Variable media : AppE (Settled X).
Variable onSuccess : X -> Async AppE unit.
Variable fallback : string.

Hypothesis media_awaited : forall w, perform media w = None.

(** The call resolved and what follows it returned normally. *)
Lemma flow_resolved (w w5 : World) (x : X) (n fuel : nat) :
  settle h media = Some (Resolved x) ->
  runs h n (onSuccess x) (settled messages ms media (Resolved x) w) w5 (Resolved tt) ->
  n + 6 < fuel ->
  run fuel h (generationFlow messages ms media onSuccess fallback) w = (closed (nextTimer w) w5, Some (Resolved tt)).
Proof.
  intros Hm Hs Hf. unfold generationFlow.
  eapply runs_run.
  - eapply runs_seq; [apply runs_call; reflexivity|].
    eapply runs_seq; [apply runs_call; reflexivity|].
    eapply runs_seq; [apply runs_call; reflexivity|].
    eapply runs_tryFinally.
    + apply runs_tryCatch_ok.
      unfold Js.bind at 1.
      eapply runs_bind.
      * apply runs_await. unfold answerOf. rewrite media_awaited, Hm. reflexivity.
      * exact Hs.
    + eapply runs_seq; [apply runs_call; reflexivity|].
      apply runs_call. reflexivity.
  - cbn. lia.
Qed.

(** The call rejected with an error that is not "entity not found". *)
Lemma flow_rejected (w : World) (err : JsError) (fuel : nat) :
  settle h media = Some (Rejected err) ->
  entityNotFound err = false ->
  7 < fuel ->
  run fuel h (generationFlow messages ms media onSuccess fallback) w =
  (closed (nextTimer w)
     (did (SetError (Some (or_else (message err) fallback)))
        (settled messages ms media (Rejected err) w)),
   Some (Resolved tt)).
Proof.
  intros Hm He Hf. unfold generationFlow.
  eapply runs_run.
  - eapply runs_seq; [apply runs_call; reflexivity|].
    eapply runs_seq; [apply runs_call; reflexivity|].
    eapply runs_seq; [apply runs_call; reflexivity|].
    eapply runs_tryFinally.
    + eapply runs_tryCatch_caught.
      * apply runs_seq_throw.
        apply runs_await. unfold answerOf. rewrite media_awaited, Hm. reflexivity.
      * cbv beta. rewrite He. apply runs_call. reflexivity.
    + eapply runs_seq; [apply runs_call; reflexivity|].
      apply runs_call. reflexivity.
  - cbn. lia.
Qed.

(** The call rejected with "entity not found" and the picker settled. *)
Lemma flow_recovered (w : World) (err : JsError) (picker : Settled unit)
    (fuel : nat) :
  settle h media = Some (Rejected err) ->
  entityNotFound err = true ->
  openSelectKey h = Some picker ->
  8 < fuel ->
  run fuel h (generationFlow messages ms media onSuccess fallback) w =
  (closed (nextTimer w)
     (record OpenSelectKey picker
        (did (SetError (Some accessRecovery))
           (settled messages ms media (Rejected err) w))),
   Some picker).
Proof.
  intros Hm He Hp Hf. unfold generationFlow.
  eapply runs_run.
  - eapply runs_seq; [apply runs_call; reflexivity|].
    eapply runs_seq; [apply runs_call; reflexivity|].
    eapply runs_seq; [apply runs_call; reflexivity|].
    eapply runs_tryFinally.
    + eapply runs_tryCatch_caught.
      * apply runs_seq_throw.
        apply runs_await. unfold answerOf. rewrite media_awaited, Hm. reflexivity.
      * cbv beta. rewrite He.
        eapply runs_seq; [apply runs_call; reflexivity|].
        apply runs_await. unfold answerOf. cbn [perform settle]. rewrite Hp.
        reflexivity.
    + eapply runs_seq; [apply runs_call; reflexivity|].
      apply runs_call. reflexivity.
  - cbn. lia.
Qed.

(** The call rejected with "entity not found" and the picker never settles:
    the handler stays suspended in the picker, before its [finally]. *)
Lemma flow_picker_pending (w : World) (err : JsError) (fuel : nat) :
  settle h media = Some (Rejected err) ->
  entityNotFound err = true ->
  openSelectKey h = None ->
  5 < fuel ->
  run fuel h (generationFlow messages ms media onSuccess fallback) w =
  (did (SetError (Some accessRecovery))
     (settled messages ms media (Rejected err) w),
   None).
Proof.
  intros Hm He Hp Hf. unfold generationFlow.
  eapply hangs_run.
  - eapply hangs_seq_r; [apply runs_call; reflexivity|].
    eapply hangs_seq_r; [apply runs_call; reflexivity|].
    eapply hangs_seq_r; [apply runs_call; reflexivity|].
    apply hangs_tryFinally_body.
    eapply hangs_tryCatch_caught.
    + apply runs_seq_throw.
      apply runs_await. unfold answerOf. rewrite media_awaited, Hm. reflexivity.
    + cbv beta. rewrite He.
      eapply hangs_seq_r; [apply runs_call; reflexivity|].
      apply hangs_await. unfold answerOf. cbn [perform settle]. rewrite Hp.
      reflexivity.
  - cbn. lia.
Qed.

End Flow.

Lemma keySelections_app (tr tr' : list Obs) :
  keySelections (tr ++ tr') = keySelections tr + keySelections tr'.
Proof. unfold keySelections. rewrite filter_app, length_app. reflexivity. Qed.

Lemma generateLogo_awaited (description : string) (z : ImageSize) (w : World) :
  perform (GenerateLogo description z) w = None.
Proof. reflexivity. Qed.

Lemma animateLogo_awaited (image : ImageArg) (animPrompt : string)
    (r : AspectRatio) (w : World) :
  perform (AnimateLogo image animPrompt r) w = None.
Proof. reflexivity. Qed.

Ltac read_trace :=
  cbn - [keySelections busyWrites intervalEvents];
  rewrite <- ?app_assoc; cbn - [keySelections busyWrites intervalEvents];
  repeat split;
  try (rewrite keySelections_app; cbn; lia).

(** [s.includes(sub)] is true exactly when [sub] occurs in [s]: first at
    the start of [s], then anywhere. *)
Lemma prefix_iff (sub s : string) :
  String.prefix sub s = true <-> exists b, s = (sub ++ b)%string.
Proof.
  revert s. induction sub as [|c sub IH]; intros s.
  - destruct s; cbn; (split; [intros _; eexists; reflexivity|reflexivity]).
  - destruct s as [|c' s]; cbn.
    + split; [discriminate|intros [b E]; discriminate E].
    + destruct (ascii_dec c c') as [->|Hn].
      * rewrite IH. split; intros [b E]; exists b; congruence.
      * split; [discriminate|]. intros [b E]. cbn in E. congruence.
Qed.

Lemma includes_iff (s sub : string) :
  includes s sub = true <-> exists a b, s = (a ++ sub ++ b)%string.
Proof.
  induction s as [|c s IH]; cbn [includes].
  - rewrite orb_false_r, prefix_iff. split.
    + intros [b E]. exists ""%string, b. exact E.
    + intros (a & b & E). destruct a as [|c a]; [|discriminate E].
      exists b. exact E.
  - rewrite orb_true_iff, prefix_iff, IH. split.
    + intros [[b E]|(a & b & E)].
      * exists ""%string, b. exact E.
      * exists (String c a), b. cbn. rewrite E. reflexivity.
    + intros (a & b & E). destruct a as [|c' a].
      * left. exists b. exact E.
      * right. exists a, b. cbn in E. inversion E. reflexivity.
Qed.

(** The test of the two [catch] blocks holds exactly of the errors that
    mention the lost entity. *)
Lemma entityNotFound_mentions (err : JsError) :
  entityNotFound err = true <-> mentionsLostEntity err.
Proof.
  unfold entityNotFound, mentionsLostEntity. destruct (message err) as [m|].
  - rewrite includes_iff. split.
    + intros (a & b & E). exists m, a, b. split; [reflexivity|exact E].
    + intros (m' & a & b & E & Em). injection E as ->. exists a, b. exact Em.
  - split; [discriminate|]. intros (m & a & b & E & _). discriminate E.
Qed.

Lemma entityNotFound_other (err : JsError) :
  ~ mentionsLostEntity err -> entityNotFound err = false.
Proof.
  intros Hn. destruct (entityNotFound err) eqn:He; [|reflexivity].
  exfalso. apply Hn, entityNotFound_mentions. exact He.
Qed.

(** C7 (the catch blocks of handleGenerateLogo and handleAnimate).  When the
    media call rejects with an error whose message contains "Requested
    entity was not found", the error shown is the access-recovery message
    and the handler opens the key picker, once, after the rejection and
    before its [finally] block clears the interval and sets [isGenerating]
    to false; while the picker stays open the handler awaits it with
    [isGenerating] still true.  When the message does not contain the text
    (or is missing), the picker is not opened and the error shown is the
    message, or the handler's fallback text.  Both handlers behave alike. *)
Theorem entity_not_found_reopens_picker (h : Host) (w : World) (err : JsError) :
  (forall description,
      generateLogoAnswer h description (imageSize (app w)) = Some (Rejected err) ->
      recoversAccess h w (handleGenerateLogo (imageSize (app w)) description)
        loadingMessages 3000 (GenerateLogo description (imageSize (app w)))
        "Something went wrong while generating the logo." err)
  /\
  (forall l animPrompt,
      logo (app w) = Some l ->
      animateLogoAnswer h (mkImageArg (base64 l) (mimeType l)) animPrompt
        (aspectRatio (app w)) = Some (Rejected err) ->
      recoversAccess h w
        (handleAnimate (logo (app w)) (aspectRatio (app w)) animPrompt)
        animationMessages 4000
        (AnimateLogo (mkImageArg (base64 l) (mimeType l)) animPrompt
           (aspectRatio (app w)))
        "Failed to animate logo." err).
Proof.
  split.
  - intros description Hg. rewrite handleGenerateLogo_flow.
    unfold recoversAccess. cbv zeta. split.
    + intros Hm. apply entityNotFound_mentions in Hm.
      destruct (openSelectKey h) as [picker|] eqn:Hp.
      * rewrite (flow_recovered h _ _ _ _ _ (generateLogo_awaited _ _) w err
                   picker 9 Hg Hm Hp ltac:(lia)).
        read_trace.
      * rewrite (flow_picker_pending h _ _ _ _ _ (generateLogo_awaited _ _) w err 9
                   Hg Hm Hp ltac:(lia)).
        read_trace.
    + intros Hn. apply entityNotFound_other in Hn.
      rewrite (flow_rejected h _ _ _ _ _ (generateLogo_awaited _ _) w err 9
                 Hg Hn ltac:(lia)).
      read_trace.
  - intros l animPrompt Hl Hg. rewrite Hl, handleAnimate_flow.
    unfold recoversAccess. cbv zeta. split.
    + intros Hm. apply entityNotFound_mentions in Hm.
      destruct (openSelectKey h) as [picker|] eqn:Hp.
      * rewrite (flow_recovered h _ _ _ _ _ (animateLogo_awaited _ _ _) w err
                   picker 9 Hg Hm Hp ltac:(lia)).
        read_trace.
      * rewrite (flow_picker_pending h _ _ _ _ _ (animateLogo_awaited _ _ _) w err 9
                   Hg Hm Hp ltac:(lia)).
        read_trace.
    + intros Hn. apply entityNotFound_other in Hn.
      rewrite (flow_rejected h _ _ _ _ _ (animateLogo_awaited _ _ _) w err 9
                 Hg Hn ltac:(lia)).
      read_trace.
Qed.

Lemma entityNotFoundError_mentions : mentionsLostEntity entityNotFoundError.
Proof.
  exists "404: Requested entity was not found."%string, "404: "%string, "."%string.
  split; reflexivity.
Defined.

Lemma quotaError_is_other : ~ mentionsLostEntity quotaError.
Proof.
  intros H. apply entityNotFound_mentions in H. discriminate H.
Defined.

(** With an error that mentions the lost entity each handler opens the
    picker once; with a quota error neither opens it, and the error shown is
    the message of the error. *)
Lemma entity_not_found_reopens_picker_witness :
  (keySelections
     (trace (fst (run 9 (lostAccessHost (Some (Resolved tt)))
                    (handleGenerateLogo Size1K "blue owl logo") initialWorld))) = 1
   /\
   keySelections
     (trace (fst (run 9 (lostAccessHost (Some (Resolved tt)))
                    (handleAnimate (Some owl) Ratio16x9 "pages turn slowly")
                    (withLogo owl Animate)))) = 1)
  /\
  (keySelections
     (trace (fst (run 9 keylessHost (handleGenerateLogo Size1K "blue owl logo")
                    initialWorld))) = 0
   /\
   error (app (fst (run 9 keylessHost
                      (handleAnimate (Some owl) Ratio16x9 "pages turn slowly")
                      (withLogo owl Animate))))
   = Some "429: quota exceeded"%string).
Proof.
  destruct (entity_not_found_reopens_picker (lostAccessHost (Some (Resolved tt)))
              initialWorld entityNotFoundError) as [HA _].
  destruct (entity_not_found_reopens_picker (lostAccessHost (Some (Resolved tt)))
              (withLogo owl Animate) entityNotFoundError) as [_ HB].
  destruct (entity_not_found_reopens_picker keylessHost initialWorld quotaError)
    as [HC _].
  destruct (entity_not_found_reopens_picker keylessHost (withLogo owl Animate)
              quotaError) as [_ HD].
  split; split.
  - exact (proj1 (proj2 (proj2 (proj2 (proj1 (HA "blue owl logo" eq_refl)
                                         entityNotFoundError_mentions))))).
  - exact (proj1 (proj2 (proj2 (proj2 (proj1 (HB owl "pages turn slowly" eq_refl
                                                eq_refl)
                                         entityNotFoundError_mentions))))).
  - exact (proj1 (proj2 (proj2 (HC "blue owl logo" eq_refl) quotaError_is_other))).
  - exact (proj1 (proj2 (proj2 (proj2 (HD owl "pages turn slowly" eq_refl eq_refl)
                                   quotaError_is_other)))).
Defined.

(** *** One transition of [isGenerating] per call *)

Lemma cleared_interval_gone (id : nat) (ts : list Timer) (t : Timer) :
  In t (filter (stillRunning id) ts) -> timerId t <> id.
Proof.
  intros Hin. apply filter_In in Hin. destruct Hin as [_ Hr].
  unfold stillRunning in Hr. apply negb_true_iff, Nat.eqb_neq in Hr. exact Hr.
Qed.

Lemma runs_storeLogo (h : Host) (description : string) (result : LogoResult)
    (w : World) :
  runs h 2 (storeLogo description result) w
    (did (SetStep Design)
       (did (SetLogo (mkLogoData (r_url result) (r_base64 result)
                        (r_mimeType result) description)) w))
    (Resolved tt).
Proof.
  unfold storeLogo. change 2 with (1 + 1).
  eapply runs_seq; [apply runs_call; reflexivity|].
  apply runs_call. reflexivity.
Qed.

Lemma runs_storeAnimation (h : Host) (animPrompt videoUrl : string) (w : World) :
  runs h 2 (storeAnimation animPrompt videoUrl) w
    (did (SetStep View)
       (did (SetAnimation (mkAnimationData videoUrl animPrompt)) w))
    (Resolved tt).
Proof.
  unfold storeAnimation. change 2 with (1 + 1).
  eapply runs_seq; [apply runs_call; reflexivity|].
  apply runs_call. reflexivity.
Qed.

Ltac read_call :=
  split; [reflexivity|];
  unfold obs; cbn - [busyWrites intervalEvents]; rewrite <- ?app_assoc;
  cbn - [busyWrites intervalEvents];
  repeat split; try reflexivity;
  try (intros t Ht; apply cleared_interval_gone in Ht; exact Ht).

(** C2, as the code has it (handleGenerateLogo and handleAnimate).  For
    every call that starts an operation and however the media call settles,
    [isGenerating] is written [true] once at the start and [false] once at
    the end, in the [finally] block, right after the call's own interval is
    cleared.  The [finally] block runs when the media call has settled,
    except after an "entity not found" rejection, where it runs when the key
    picker awaited in the [catch] block has settled as well. *)
Theorem busy_once_per_call (h : Host) (w : World) :
  (forall description r,
      generateLogoAnswer h description (imageSize (app w)) = Some r ->
      (awaitsPicker r = true -> openSelectKey h <> None) ->
      busyOncePerCall h w (handleGenerateLogo (imageSize (app w)) description)
        loadingMessages 3000 (GenerateLogo description (imageSize (app w))) r)
  /\
  (forall l animPrompt r,
      logo (app w) = Some l ->
      animateLogoAnswer h (mkImageArg (base64 l) (mimeType l)) animPrompt
        (aspectRatio (app w)) = Some r ->
      (awaitsPicker r = true -> openSelectKey h <> None) ->
      busyOncePerCall h w
        (handleAnimate (logo (app w)) (aspectRatio (app w)) animPrompt)
        animationMessages 4000
        (AnimateLogo (mkImageArg (base64 l) (mimeType l)) animPrompt
           (aspectRatio (app w))) r).
Proof.
  split.
  - intros description r Hg Hp. rewrite handleGenerateLogo_flow.
    unfold busyOncePerCall. exists 9.
    destruct r as [result|err]; [|destruct (entityNotFound err) eqn:He].
    + rewrite (flow_resolved h _ _ _ _ _ (generateLogo_awaited _ _) w _ result 2 9
                 Hg (runs_storeLogo h _ _ _) ltac:(lia)).
      eexists _, _,
        [obs (SetLogo (mkLogoData (r_url result) (r_base64 result)
                         (r_mimeType result) description)) tt;
         obs (SetStep Design) tt].
      read_call.
    + destruct (openSelectKey h) as [picker|] eqn:Ho;
        [|exfalso; apply Hp; [exact He|reflexivity]].
      rewrite (flow_recovered h _ _ _ _ _ (generateLogo_awaited _ _) w err
                 picker 9 Hg He Ho ltac:(lia)).
      eexists _, _, [obs (SetError (Some accessRecovery)) tt; obs OpenSelectKey picker].
      read_call.
    + rewrite (flow_rejected h _ _ _ _ _ (generateLogo_awaited _ _) w err 9
                 Hg He ltac:(lia)).
      eexists _, _, [obs (SetError _) tt].
      read_call.
  - intros l animPrompt r Hl Hg Hp. rewrite Hl, handleAnimate_flow.
    unfold busyOncePerCall. exists 9.
    destruct r as [videoUrl|err]; [|destruct (entityNotFound err) eqn:He].
    + rewrite (flow_resolved h _ _ _ _ _ (animateLogo_awaited _ _ _) w _ videoUrl
                 2 9 Hg (runs_storeAnimation h _ _ _) ltac:(lia)).
      eexists _, _,
        [obs (SetAnimation (mkAnimationData videoUrl animPrompt)) tt;
         obs (SetStep View) tt].
      read_call.
    + destruct (openSelectKey h) as [picker|] eqn:Ho;
        [|exfalso; apply Hp; [exact He|reflexivity]].
      rewrite (flow_recovered h _ _ _ _ _ (animateLogo_awaited _ _ _) w err
                 picker 9 Hg He Ho ltac:(lia)).
      eexists _, _, [obs (SetError (Some accessRecovery)) tt; obs OpenSelectKey picker].
      read_call.
    + rewrite (flow_rejected h _ _ _ _ _ (animateLogo_awaited _ _ _) w err 9
                 Hg He ltac:(lia)).
      eexists _, _, [obs (SetError _) tt].
      read_call.
Qed.

Lemma busy_once_per_call_witness :
  busyOncePerCall obligingHost initialWorld
    (handleGenerateLogo Size1K "blue owl logo") loadingMessages 3000
    (GenerateLogo "blue owl logo" Size1K) (Resolved sampleLogo)
  /\
  busyOncePerCall (lostAccessHost (Some (Rejected (Error "dismissed"))))
    (withLogo owl Animate)
    (handleAnimate (Some owl) Ratio16x9 "pages turn slowly") animationMessages 4000
    (AnimateLogo (mkImageArg "AAAA" "image/png") "pages turn slowly" Ratio16x9)
    (Rejected entityNotFoundError).
Proof.
  split.
  - apply (proj1 (busy_once_per_call obligingHost initialWorld)
             "blue owl logo" (Resolved sampleLogo) eq_refl).
    intros H. discriminate H.
  - apply (proj2 (busy_once_per_call
                    (lostAccessHost (Some (Rejected (Error "dismissed"))))
                    (withLogo owl Animate))
             owl "pages turn slowly" (Rejected entityNotFoundError) eq_refl eq_refl).
    intros _ H. discriminate H.
Defined.

(** C2 as stated fails when the media call rejects with "entity not found"
    and the key picker stays open: the media call has settled (it is in the
    trace, answered), yet no budget brings the handler to return; it stays
    suspended with [isGenerating] true, written once, and its interval still
    running. *)
Lemma busy_held_while_picker_open :
  generateLogoAnswer (lostAccessHost None) "blue owl logo" Size1K
  = Some (Rejected entityNotFoundError)
  /\
  forall fuel, 5 < fuel ->
    let w' := fst (run fuel (lostAccessHost None)
                     (handleGenerateLogo Size1K "blue owl logo") initialWorld) in
    snd (run fuel (lostAccessHost None)
           (handleGenerateLogo Size1K "blue owl logo") initialWorld) = None
    /\ In (obs (GenerateLogo "blue owl logo" Size1K) (Rejected entityNotFoundError))
          (trace w')
    /\ isGenerating (app w') = true
    /\ busyWrites (trace w') = [true]
    /\ timers w' = [mkTimer 0 loadingMessages 3000 0].
Proof.
  split; [reflexivity|].
  intros fuel Hf. rewrite handleGenerateLogo_flow.
  rewrite (flow_picker_pending (lostAccessHost None) _ _ _ _ _
             (generateLogo_awaited _ _) initialWorld entityNotFoundError fuel
             eq_refl eq_refl eq_refl Hf).
  cbn. repeat split. auto 10.
Qed.

(** *** The handlers over geminiService *)

(** [generateLogo] is two steps long: the request, and the scan of the
    parts of the response. *)
Lemma generateLogo_exec (K : option string) (p : Provider) (prompt : string)
    (size : ImageSize) (fuel : nat) :
  snd (exec (S (S fuel)) p (generateLogo K prompt size) start) =
  Some match generateContent p (contentRequest K prompt size) with
       | Resolved response => firstInline (firstCandidateParts response)
       | Rejected e => Rejected e
       end.
Proof.
  unfold generateLogo, Js.bind, await. cbn [exec].
  rewrite ClientFacts.observe_bind. cbn.
  destruct (generateContent p _); reflexivity.
Qed.

Lemma firstInline_none (ps : list Part) :
  (forall part, In part ps -> inlineData part = None) ->
  firstInline ps = Rejected NoImageReturned.
Proof.
  induction ps as [|part rest IH]; intros H; [reflexivity|].
  cbn [firstInline]. rewrite (H part (or_introl eq_refl)).
  apply IH. intros q Hq. apply H. right. exact Hq.
Qed.

(** C4 (generateLogo and handleGenerateLogo).  When no part of the first
    candidate of the response carries inline data, [generateLogo] rejects
    with "No image data returned from model."; and the handler run over it
    returns with the logo, the step, the image size and the aspect ratio
    (and the animation) as they were, [isGenerating] false, and that message
    as the error. *)
Theorem no_inline_payload_is_atomic (fuel : nat) (K : option string)
    (p : Provider) (hasKey : option (Settled bool))
    (selectKey : option (Settled unit)) (w : World) (description : string)
    (response : GenerateContentResponse) :
  generateContent p (contentRequest K description (imageSize (app w)))
  = Resolved response ->
  (forall part, In part (firstCandidateParts response) -> inlineData part = None) ->
  let h := connect (S (S fuel)) K p hasKey selectKey in
  let out := run 8 h (handleGenerateLogo (imageSize (app w)) description) w in
  snd (exec (S (S fuel)) p (generateLogo K description (imageSize (app w))) start)
  = Some (Rejected NoImageReturned)
  /\ snd out = Some (Resolved tt)
  /\ logo (app (fst out)) = logo (app w)
  /\ step (app (fst out)) = step (app w)
  /\ imageSize (app (fst out)) = imageSize (app w)
  /\ aspectRatio (app (fst out)) = aspectRatio (app w)
  /\ animation (app (fst out)) = animation (app w)
  /\ isGenerating (app (fst out)) = false
  /\ error (app (fst out)) = Some "No image data returned from model.".
Proof.
  intros Hresp Hnone h out.
  assert (Hg : generateLogoAnswer h description (imageSize (app w))
               = Some (Rejected NoImageReturned)).
  { subst h. unfold connect. cbn [generateLogoAnswer].
    rewrite generateLogo_exec, Hresp, (firstInline_none _ Hnone). reflexivity. }
  split.
  - rewrite generateLogo_exec, Hresp, (firstInline_none _ Hnone). reflexivity.
  - subst out. rewrite handleGenerateLogo_flow.
    rewrite (flow_rejected h _ _ _ _ _ (generateLogo_awaited _ _) w
               NoImageReturned 8 Hg eq_refl ltac:(lia)).
    cbn. repeat split.
Qed.

Lemma no_inline_payload_is_atomic_witness :
  let h := connect 2 (Some "k") textOnlyProvider (Some (Resolved true))
             (Some (Resolved tt)) in
  let w := withLogo owl Design in
  let out := run 8 h (handleGenerateLogo Size1K "red fox logo") w in
  snd out = Some (Resolved tt)
  /\ logo (app (fst out)) = Some owl
  /\ step (app (fst out)) = Design
  /\ isGenerating (app (fst out)) = false.
Proof.
  intros h w out.
  destruct (no_inline_payload_is_atomic 0 (Some "k") textOnlyProvider
              (Some (Resolved true)) (Some (Resolved tt)) w "red fox logo" _
              eq_refl)
    as (_ & Hr & Hl & Hs & _ & _ & _ & Hb & _).
  - intros part [E|[]]. rewrite <- E. reflexivity.
  - repeat split; assumption.
Defined.

(** C9 (generateLogo and handleGenerateLogo).  For every description [D]
    and image size [Q]: when [generateLogo D Q] resolves with a result, the
    handler run over it stores that result as the logo with [prompt] equal
    to [D], sets the step to Design, and ends with [isGenerating] false. *)
Theorem generated_logo_keeps_description (fuel : nat) (K : option string)
    (p : Provider) (hasKey : option (Settled bool))
    (selectKey : option (Settled unit)) (w : World) (D : string) (Q : ImageSize)
    (result : LogoResult) :
  snd (exec fuel p (generateLogo K D Q) start) = Some (Resolved result) ->
  let h := connect fuel K p hasKey selectKey in
  let out := run 9 h (handleGenerateLogo Q D) w in
  snd out = Some (Resolved tt)
  /\ logo (app (fst out))
     = Some (mkLogoData (r_url result) (r_base64 result) (r_mimeType result) D)
  /\ (exists l, logo (app (fst out)) = Some l /\ prompt l = D)
  /\ step (app (fst out)) = Design
  /\ isGenerating (app (fst out)) = false.
Proof.
  intros Hok h out.
  assert (Hg : generateLogoAnswer h D Q = Some (Resolved result)) by exact Hok.
  subst out. rewrite handleGenerateLogo_flow.
  rewrite (flow_resolved h _ _ _ _ _ (generateLogo_awaited _ _) w _ result 2 9
             Hg (runs_storeLogo h _ _ _) ltac:(lia)).
  cbn. repeat split. eexists. split; reflexivity.
Qed.

Lemma generated_logo_keeps_description_witness :
  let h := connect 2 None ClientSpec.sampleProvider (Some (Resolved true))
             (Some (Resolved tt)) in
  let out := run 9 h (handleGenerateLogo Size1K "blue owl logo") initialWorld in
  logo (app (fst out))
  = Some (mkLogoData "data:image/png;base64,AAAA" "AAAA" "image/png"
            "blue owl logo")
  /\ step (app (fst out)) = Design.
Proof.
  intros h out.
  destruct (generated_logo_keeps_description 2 None ClientSpec.sampleProvider
              (Some (Resolved true)) (Some (Resolved tt)) initialWorld
              "blue owl logo" Size1K
              (mkLogoResult "data:image/png;base64,AAAA" "AAAA" "image/png")
              eq_refl)
    as (_ & Hl & _ & Hs & _).
  split; assumption.
Defined.

End AppFacts.

(* ===================================================================== *)
(** ** Properties of the page with handlers in flight together *)
(* ===================================================================== *)

Module PageFacts.

Import GeminiService App AppSpec AppFacts PageSpec.
Local Open Scope list_scope.

(** *** Histories that hold more *)

Lemma extends_refl tr : extends tr tr.
Proof. repeat split; apply incl_refl. Qed.

Lemma extends_trans tr1 tr2 tr3 :
  extends tr1 tr2 -> extends tr2 tr3 -> extends tr1 tr3.
Proof.
  intros (A1 & B1 & C1) (A2 & B2 & C2).
  repeat split; eapply incl_tran; eassumption.
Qed.

Lemma extends_app tr more : extends tr (tr ++ more).
Proof.
  unfold extends, logosSet, animationsSet, animateCalls.
  rewrite !flat_map_app. repeat split; apply incl_appl, incl_refl.
Qed.

Lemma extends_snoc tr tr' o : extends tr tr' -> extends (tr ++ [o]) (tr' ++ [o]).
Proof.
  unfold extends, logosSet, animationsSet, animateCalls.
  rewrite !flat_map_app. intros (A & B & C).
  repeat split; apply incl_app;
    (apply incl_appl; assumption) || (apply incl_appr, incl_refl).
Qed.

Lemma logosSet_extends tr tr' l :
  extends tr tr' -> In l (logosSet tr) -> In l (logosSet tr').
Proof. intros (A & _ & _). apply A. Qed.

Lemma animationsSet_extends tr tr' a :
  extends tr tr' -> In a (animationsSet tr) -> In a (animationsSet tr').
Proof. intros (_ & B & _). apply B. Qed.

Lemma animateCalls_extends tr tr' c :
  extends tr tr' -> In c (animateCalls tr) -> In c (animateCalls tr').
Proof. intros (_ & _ & C). apply C. Qed.

Lemma derived_extends tr tr' a : extends tr tr' -> derived tr a -> derived tr' a.
Proof.
  intros E (l & Hl & ratio & Hc). exists l. split.
  - eapply logosSet_extends; eassumption.
  - exists ratio. eapply animateCalls_extends; eassumption.
Qed.

Lemma nonempty_extends {A} (f : list Obs -> list A) tr tr' :
  (forall x, In x (f tr) -> In x (f tr')) -> f tr <> [] -> f tr' <> [].
Proof.
  intros H Hn. destruct (f tr) as [|x xs] eqn:E; [congruence|].
  intros E'. specialize (H x (or_introl eq_refl)). rewrite E' in H. exact H.
Qed.

Lemma allowed_extends tr tr' {X} (e : AppE X) :
  extends tr tr' -> allowed tr e -> allowed tr' e.
Proof.
  intros E. destruct e; cbn; auto.
  - destruct s; auto.
    + apply nonempty_extends. intros x. apply logosSet_extends. exact E.
    + apply nonempty_extends. intros x. apply animationsSet_extends. exact E.
  - apply derived_extends. exact E.
  - intros (l & Hl & Hi). exists l. split; [|exact Hi].
    eapply logosSet_extends; eassumption.
Qed.

(** What [safe] says of the next move of the tree. *)
Lemma safe_next {R} (Q : R -> list Obs -> Prop) tr t :
  safe Q tr t ->
  match observe t with
  | RetF r => Q r tr
  | TauF t' => safe Q tr t'
  | VisF e k =>
      allowed tr e /\
      forall x tr', extends (tr ++ [mkObs e x]) tr' -> safe Q tr' (k x)
  end.
Proof.
  intros H. destruct H as [tr t r Ht Hq|tr t t' Ht Hs|tr t X e k Ht Ha Hk];
    rewrite Ht; auto.
Qed.

Lemma safe_extends {R} tr tr' (t : itree AppE R) :
  safe anyOutcome tr t -> extends tr tr' -> safe anyOutcome tr' t.
Proof.
  intros H. revert tr'.
  induction H as [tr t r Ht Hq|tr t t' Ht Hs IH|tr t X e k Ht Ha Hk IH];
    intros tr2 E.
  - eapply safe_ret; [exact Ht|exact I].
  - eapply safe_tau; [exact Ht|apply IH; exact E].
  - eapply safe_vis; [exact Ht|eapply allowed_extends; eassumption|].
    intros x tr3 E3. apply Hk.
    eapply extends_trans; [apply extends_snoc; exact E|exact E3].
Qed.

(** The rules of the [async] combinators. *)

Lemma safe_observe {R} (Q : R -> list Obs -> Prop) tr (t t' : itree AppE R) :
  observe t' = observe t -> safe Q tr t -> safe Q tr t'.
Proof.
  intros E H. destruct H.
  - eapply safe_ret; [|eassumption]. congruence.
  - eapply safe_tau; [|eassumption]. congruence.
  - eapply safe_vis; [|eassumption|eassumption]. congruence.
Qed.

Lemma safe_bind {R T} (Q1 : R -> list Obs -> Prop) (Q : T -> list Obs -> Prop)
    tr (t : itree AppE R) (k : R -> itree AppE T) :
  safe Q1 tr t ->
  (forall r tr', Q1 r tr' -> safe Q tr' (k r)) ->
  safe Q tr (ITree.bind t k).
Proof.
  intros H Hk.
  induction H as [tr t r Ht Hq|tr t t' Ht Hs IH|tr t X e k0 Ht Ha Hk0 IH].
  - eapply safe_observe; [|apply Hk; exact Hq].
    rewrite ClientFacts.observe_bind, Ht. reflexivity.
  - eapply safe_tau; [|exact IH].
    rewrite ClientFacts.observe_bind, Ht. reflexivity.
  - apply safe_vis with (e := e) (k := fun x0 => ITree.bind (k0 x0) k);
      [|exact Ha|exact IH].
    rewrite ClientFacts.observe_bind, Ht. reflexivity.
Qed.

Lemma safe_weaken {R} (Q Q' : R -> list Obs -> Prop) tr (t : itree AppE R) :
  safe Q tr t -> (forall r tr', Q r tr' -> Q' r tr') -> safe Q' tr t.
Proof.
  intros H HQ.
  induction H as [tr t r Ht Hq|tr t t' Ht Hs IH|tr t X e k0 Ht Ha Hk0 IH].
  - eapply safe_ret; [exact Ht|apply HQ; exact Hq].
  - eapply safe_tau; [exact Ht|exact IH].
  - eapply safe_vis; [exact Ht|exact Ha|exact IH].
Qed.

Lemma safe_call {X} tr (e : AppE X) :
  allowed tr e ->
  safe (fun r tr' => exists x, r = Resolved x /\ since tr e x tr') tr (call e).
Proof.
  intros Ha.
  apply safe_vis with (e := e)
    (k := fun x0 => ITree.bind (Ret x0) (fun x1 => Ret (Resolved x1)));
    [reflexivity|exact Ha|].
  intros x tr' E. apply safe_ret with (r := Resolved x); [reflexivity|].
  exists x. split; [reflexivity|exact E].
Qed.

Lemma safe_await {X} tr (e : AppE (Settled X)) :
  allowed tr e -> safe (since tr e) tr (await e).
Proof.
  intros Ha.
  apply safe_vis with (e := e) (k := fun x0 => Ret x0); [reflexivity|exact Ha|].
  intros x tr' E. apply safe_ret with (r := x); [reflexivity|exact E].
Qed.

Lemma safe_pure {R} (Q : R -> list Obs -> Prop) tr (r : R) :
  Q r tr -> safe Q tr (Ret r).
Proof. intros Hq. apply safe_ret with (r := r); [reflexivity|exact Hq]. Qed.

(** [m ;; k] where [m] is a call or an await: the rest runs in a history
    that holds the event. *)
Lemma safe_seq {A B} (Q1 : Settled A -> list Obs -> Prop)
    (Q : Settled B -> list Obs -> Prop) tr (m : Async AppE A)
    (k : A -> Async AppE B) :
  safe Q1 tr m ->
  (forall a tr', Q1 (Resolved a) tr' -> safe Q tr' (k a)) ->
  (forall e tr', Q1 (Rejected e) tr' -> Q (Rejected e) tr') ->
  safe Q tr (Js.bind m k).
Proof.
  intros Hm Hk He. unfold Js.bind. eapply safe_bind; [exact Hm|].
  intros [a|e] tr' Hq; [apply Hk; exact Hq|apply safe_pure, He; exact Hq].
Qed.

Lemma safe_tryCatch {A} (Q1 Q : Settled A -> list Obs -> Prop) tr
    (body : Async AppE A) (handler : JsError -> Async AppE A) :
  safe Q1 tr body ->
  (forall a tr', Q1 (Resolved a) tr' -> Q (Resolved a) tr') ->
  (forall e tr', Q1 (Rejected e) tr' -> safe Q tr' (handler e)) ->
  safe Q tr (tryCatch body handler).
Proof.
  intros Hb Hok Hh. unfold tryCatch. eapply safe_bind; [exact Hb|].
  intros [a|e] tr' Hq; [apply safe_pure, Hok; exact Hq|apply Hh; exact Hq].
Qed.

Lemma safe_tryFinally {A} (Q1 : Settled A -> list Obs -> Prop) tr
    (body : Async AppE A) (finalizer : Async AppE unit) :
  safe Q1 tr body ->
  (forall r tr', Q1 r tr' -> safe anyOutcome tr' finalizer) ->
  safe anyOutcome tr (tryFinally body finalizer).
Proof.
  intros Hb Hf. unfold tryFinally. eapply safe_bind; [exact Hb|].
  intros r tr' Hq. eapply safe_bind; [apply Hf with (r := r); exact Hq|].
  intros f tr'' _. destruct f; apply safe_pure; exact I.
Qed.

(** The same rules for code that needs nothing of the history. *)

Lemma safe_any_call {X} tr (e : AppE X) :
  allowed tr e -> safe anyOutcome tr (call e).
Proof.
  intros Ha. eapply safe_weaken; [apply safe_call; exact Ha|].
  intros; exact I.
Qed.

Lemma safe_any_await {X} tr (e : AppE (Settled X)) :
  allowed tr e -> safe anyOutcome tr (await e).
Proof.
  intros Ha. eapply safe_weaken; [apply safe_await; exact Ha|].
  intros; exact I.
Qed.

Lemma safe_any_seq {A B} tr (m : Async AppE A) (k : A -> Async AppE B) :
  safe anyOutcome tr m ->
  (forall a tr', safe anyOutcome tr' (k a)) ->
  safe anyOutcome tr (Js.bind m k).
Proof.
  intros Hm Hk. eapply safe_seq; [exact Hm| |].
  - intros a tr' _. apply Hk.
  - intros; exact I.
Qed.

Lemma safe_any_tryCatch {A} tr (body : Async AppE A)
    (handler : JsError -> Async AppE A) :
  safe anyOutcome tr body ->
  (forall e tr', safe anyOutcome tr' (handler e)) ->
  safe anyOutcome tr (tryCatch body handler).
Proof.
  intros Hb Hh. eapply safe_tryCatch; [exact Hb| |].
  - intros; exact I.
  - intros e tr' _. apply Hh.
Qed.

Lemma safe_any_tryFinally {A} tr (body : Async AppE A)
    (finalizer : Async AppE unit) :
  safe anyOutcome tr body ->
  (forall tr', safe anyOutcome tr' finalizer) ->
  safe anyOutcome tr (tryFinally body finalizer).
Proof.
  intros Hb Hf. eapply safe_tryFinally; [exact Hb|].
  intros r tr' _. apply Hf.
Qed.

Ltac harmless :=
  repeat first
    [ apply safe_any_call; exact I
    | apply safe_any_await; exact I
    | apply safe_pure; exact I
    | apply safe_any_seq; [|intros ? ?]
    | apply safe_any_tryCatch; [|intros ? ?]
    | apply safe_any_tryFinally; [|intros ?]
    | match goal with
      | |- safe _ _ (if ?b then _ else _) => destruct b
      end ].

Lemma safe_checkApiKey tr : safe anyOutcome tr checkApiKey.
Proof. unfold checkApiKey. harmless. Qed.

(** A generation handler is safe when what it does on success is safe in a
    history that holds the answer of its media call. *)
Lemma safe_generationFlow {X} tr (messages : list string) (ms : Z)
    (media : AppE (Settled X)) (onSuccess : X -> Async AppE unit)
    (fallback : string) :
  allowed tr media ->
  (forall x tr', extends (tr ++ [mkObs media (Resolved x)]) tr' ->
                 safe anyOutcome tr' (onSuccess x)) ->
  safe anyOutcome tr (generationFlow messages ms media onSuccess fallback).
Proof.
  intros Hmedia Hok. unfold generationFlow.
  eapply safe_seq; [apply safe_call; exact I| |intros; exact I].
  intros a1 tr1 (x1 & _ & E1).
  eapply safe_seq; [apply safe_call; exact I| |intros; exact I].
  intros a2 tr2 (x2 & _ & E2).
  eapply safe_seq; [apply safe_call; exact I| |intros; exact I].
  intros interval tr3 (x3 & _ & E3).
  assert (E : extends tr tr3).
  { eapply extends_trans; [apply extends_app|].
    eapply extends_trans; [exact E1|].
    eapply extends_trans; [apply extends_app|].
    eapply extends_trans; [exact E2|].
    eapply extends_trans; [apply extends_app|exact E3]. }
  apply safe_any_tryFinally; [|intros tr'; harmless].
  apply safe_any_tryCatch; [|intros e tr'; harmless].
  eapply safe_seq;
    [apply safe_await; eapply allowed_extends; eassumption| |intros; exact I].
  intros x tr4 E4. apply Hok.
  eapply extends_trans; [apply extends_snoc; exact E|exact E4].
Qed.

Lemma safe_handleGenerateLogo tr (z : ImageSize) (description : string) :
  safe anyOutcome tr (handleGenerateLogo z description).
Proof.
  rewrite handleGenerateLogo_flow. apply safe_generationFlow.
  - exact I.
  - intros x tr' _. unfold storeLogo. harmless.
Qed.

Lemma safe_handleAnimate tr (l : option LogoData) (r : AspectRatio)
    (animPrompt : string) :
  (forall l0, l = Some l0 -> In l0 (logosSet tr)) ->
  safe anyOutcome tr (handleAnimate l r animPrompt).
Proof.
  intros Hl. destruct l as [l|]; [|apply safe_pure; exact I].
  specialize (Hl l eq_refl).
  rewrite handleAnimate_flow. apply safe_generationFlow.
  - exists l. split; [exact Hl|reflexivity].
  - intros videoUrl tr1 E1. unfold storeAnimation.
    eapply safe_seq; [apply safe_call| |intros; exact I].
    + exists l. split.
      * eapply logosSet_extends; [|exact Hl].
        eapply extends_trans; [apply extends_app|exact E1].
      * exists r. eapply animateCalls_extends; [exact E1|].
        unfold animateCalls. rewrite flat_map_app. apply in_or_app. right.
        left. reflexivity.
    + intros a2 tr2 (x2 & _ & E2). apply safe_any_call.
      cbn. intros En.
      assert (Hin : In (mkAnimationData videoUrl animPrompt) (animationsSet tr2)).
      { eapply animationsSet_extends; [exact E2|].
        unfold animationsSet. rewrite flat_map_app. apply in_or_app. right.
        left. reflexivity. }
      rewrite En in Hin. exact Hin.
Qed.

(** *** The invariant of the page *)

Lemma derived_has_logo tr a : derived tr a -> logosSet tr <> [].
Proof. intros (l & Hl & _) E. rewrite E in Hl. exact Hl. Qed.

Lemma logosSet_snoc tr o : logosSet (tr ++ [o]) = logosSet tr ++ logosSet [o].
Proof. unfold logosSet. apply flat_map_app. Qed.

Lemma animationsSet_snoc tr o :
  animationsSet (tr ++ [o]) = animationsSet tr ++ animationsSet [o].
Proof. unfold animationsSet. apply flat_map_app. Qed.

Lemma snoc_nonempty {A} (xs : list A) (x : A) : xs ++ [x] <> [].
Proof. intros E. apply (app_cons_not_nil xs [] x). symmetry. exact E. Qed.

Lemma nonempty_has {A} (xs : list A) : xs <> [] -> exists x, In x xs.
Proof. destruct xs as [|x xs]; [congruence|]. exists x. left. reflexivity. Qed.

(** A synchronous event that is allowed keeps the state and the history
    consistent. *)
Lemma consistent_perform (w w1 : World) {X} (e : AppE X) (x : X) :
  consistent (app w) (trace w) ->
  allowed (trace w) e ->
  perform e w = Some (x, w1) ->
  consistent (app (record e x w1)) (trace (record e x w1)).
Proof.
  intros C Ha Hp.
  assert (Et : trace (record e x w1) = trace w ++ [mkObs e x]).
  { destruct e; cbn in Hp; inversion Hp; reflexivity. }
  rewrite Et. destruct C as [C1 C2 C3 C4 C5 C6 C7 C8].
  assert (D : forall a, In a (animationsSet (trace w)) ->
                        derived (trace w ++ [mkObs e x]) a).
  { intros a Hin. eapply derived_extends; [apply extends_app|apply C7; exact Hin]. }
  assert (K : forall image animationPrompt ratio x0,
             In (image, animationPrompt, ratio, x0)
                (animateCalls (trace w ++ [mkObs e x])) ->
             exists l, In l (logosSet (trace w ++ [mkObs e x])) /\ image = imageOf l).
  { intros image animationPrompt ratio x0 Hin.
    unfold animateCalls in Hin. rewrite flat_map_app in Hin.
    apply in_app_or in Hin. destruct Hin as [Hin|Hin].
    - destruct (C8 _ _ _ _ Hin) as (l & Hl & Hi). exists l. split; [|exact Hi].
      eapply logosSet_extends; [apply extends_app|exact Hl].
    - destruct e; cbn in Hp; try discriminate Hp; cbn in Hin; contradiction. }
  destruct e; cbn in Hp; inversion Hp; subst; clear Hp Et;
    constructor; try exact K; cbn [app record withApp step logo animation];
    rewrite ?logosSet_snoc, ?animationsSet_snoc; cbn; rewrite ?app_nil_r;
    auto.
  - (* SetStep: the step is Animate or View *)
    intros [E|E]; rewrite E in Ha; cbn in Ha; [exact Ha|].
    destruct (nonempty_has _ Ha) as [a Hin].
    apply (derived_has_logo (trace w) a). apply C7. exact Hin.
  - (* SetStep: the step is View *)
    intros E. rewrite E in Ha. exact Ha.
  - (* SetLogo *)
    intros l0 E. inversion E; subst. apply in_or_app. right. left. reflexivity.
  - intros _. discriminate.
  - intros _. apply snoc_nonempty.
  - (* SetAnimation *)
    intros a0 E. inversion E; subst. apply in_or_app. right. left. reflexivity.
  - intros _. discriminate.
  - intros _. apply snoc_nonempty.
  - intros a0 Hin. apply in_app_or in Hin. destruct Hin as [Hin|[<-|[]]].
    + apply D. exact Hin.
    + eapply derived_extends; [apply extends_app|exact Ha].
Qed.

Lemma trace_perform (w w1 : World) {X} (e : AppE X) (x : X) :
  perform e w = Some (x, w1) ->
  trace (record e x w1) = trace w ++ [mkObs e x].
Proof. intros Hp. destruct e; cbn in Hp; inversion Hp; reflexivity. Qed.

(** An awaited call that settles adds its entry to the history and leaves
    the state alone. *)
Lemma consistent_settle (w : World) {X} (e : AppE X) (x : X) :
  consistent (app w) (trace w) ->
  allowed (trace w) e ->
  perform e w = None ->
  consistent (app (record e x w)) (trace (record e x w)).
Proof.
  intros [C1 C2 C3 C4 C5 C6 C7 C8] Ha Hp.
  assert (D : forall a, In a (animationsSet (trace w)) ->
                        derived (trace w ++ [mkObs e x]) a).
  { intros a Hin. eapply derived_extends; [apply extends_app|apply C7; exact Hin]. }
  assert (K : forall image animationPrompt ratio x0,
             In (image, animationPrompt, ratio, x0)
                (animateCalls (trace w ++ [mkObs e x])) ->
             exists l, In l (logosSet (trace w ++ [mkObs e x])) /\ image = imageOf l).
  { intros image animationPrompt ratio x0 Hin.
    unfold animateCalls in Hin. rewrite flat_map_app in Hin.
    apply in_app_or in Hin. destruct Hin as [Hin|Hin].
    - destruct (C8 _ _ _ _ Hin) as (l & Hl & Hi). exists l. split; [|exact Hi].
      eapply logosSet_extends; [apply extends_app|exact Hl].
    - destruct e; cbn in Hp; try discriminate Hp; cbn in Hin;
        try contradiction.
      destruct Hin as [E|[]]. inversion E; subst.
      destruct Ha as (l & Hl & Hi). exists l. split; [|exact Hi].
      eapply logosSet_extends; [apply extends_app|exact Hl]. }
  destruct e; cbn in Hp; try discriminate Hp;
    constructor; try exact K; cbn [app record trace];
    rewrite ?logosSet_snoc, ?animationsSet_snoc; cbn; rewrite ?app_nil_r;
    auto.
Qed.

Lemma consistent_tick (interval : nat) (w : World) :
  consistent (app w) (trace w) ->
  consistent (app (tick interval w)) (trace (tick interval w)).
Proof.
  intros C. unfold tick.
  destruct (find _ (timers w)) as [t|]; [|exact C].
  destruct C as [C1 C2 C3 C4 C5 C6 C7 C8]. constructor; cbn; auto.
Qed.

Lemma in_replaceTask (i : nat) (t' : option (Async AppE unit))
    (ts : list (Async AppE unit)) (t : Async AppE unit) :
  In t (replaceTask i t' ts) -> In t ts \/ t' = Some t.
Proof.
  unfold replaceTask. intros H.
  apply in_app_or in H. destruct H as [H|H].
  - left. rewrite <- (firstn_skipn i ts). apply in_or_app. left. exact H.
  - apply in_app_or in H. destruct H as [H|H].
    + right. destruct t' as [t0|]; [|destruct H].
      destruct H as [<-|[]]. reflexivity.
    + left. rewrite <- (firstn_skipn (S i) ts). apply in_or_app. right. exact H.
Qed.

(** The handler of a rendered control is safe in a consistent page. *)
Lemma safe_onClick (s : AppState) (tr : list Obs) (c : Control) :
  consistent s tr ->
  rendered s c = true ->
  safe anyOutcome tr (onClick s c).
Proof.
  intros [C1 C2 C3 C4 C5 C6 C7 C8] Hr.
  assert (L : isSome (logo s) = true -> logosSet tr <> []).
  { destruct (logo s) as [l|] eqn:E; [|discriminate].
    intros _ En. specialize (C1 l eq_refl). rewrite En in C1. exact C1. }
  destruct c; cbn [onClick].
  - apply safe_checkApiKey.
  - harmless.
  - destruct (isSome (logo s)) eqn:E.
    + apply safe_any_call. cbn. apply L. reflexivity.
    + harmless.
  - apply safe_handleGenerateLogo.
  - harmless.
  - apply safe_any_call. cbn. apply L.
    cbn in Hr. apply andb_true_iff in Hr. apply Hr.
  - harmless.
  - apply safe_handleAnimate. exact C1.
  - harmless.
  - apply safe_any_call. cbn.
    cbn in Hr. apply andb_true_iff in Hr. destruct Hr as [Hv _].
    apply C5. right. unfold stepIs in Hv. destruct (step s); try discriminate.
    reflexivity.
  - harmless.
Qed.

Lemma good_initial : good initialSystem.
Proof.
  split.
  - constructor; cbn; try discriminate; try contradiction; auto.
    intros [E|E]; discriminate E.
  - intros t [].
Qed.

Lemma good_react (sys : System) (input : Input) :
  good sys -> good (react sys input).
Proof.
  intros [C T]. destruct input as [c|i|i a|interval]; cbn [react].
  - (* a click *)
    destruct (rendered (app (world sys)) c) eqn:Hr; [|split; assumption].
    split; [exact C|]. cbn [tasks world]. intros t Hin.
    apply in_app_or in Hin. destruct Hin as [Hin|[<-|[]]].
    + apply T. exact Hin.
    + apply safe_onClick; assumption.
  - (* the next synchronous move of a task *)
    unfold moveTask.
    destruct (nth_error (tasks sys) i) as [t|] eqn:Hn; [|split; assumption].
    pose proof (safe_next _ _ _ (T t (nth_error_In _ _ Hn))) as N.
    unfold stepTask. destruct (observe t) as [r|t'|X e k].
    + split; [exact C|]. cbn [tasks world]. intros u Hin.
      apply in_replaceTask in Hin. destruct Hin as [Hin|E]; [|discriminate E].
      apply T. exact Hin.
    + split; [exact C|]. cbn [tasks world]. intros u Hin.
      apply in_replaceTask in Hin. destruct Hin as [Hin|E].
      * apply T. exact Hin.
      * inversion E; subst. exact N.
    + destruct N as [Ha Hk].
      destruct (perform e (world sys)) as [[x w1]|] eqn:Hp; [|split; assumption].
      split; cbn [tasks world].
      * eapply consistent_perform; eassumption.
      * rewrite (trace_perform _ _ _ _ Hp). intros u Hin.
        apply in_replaceTask in Hin. destruct Hin as [Hin|E].
        -- eapply safe_extends; [apply T; exact Hin|apply extends_app].
        -- inversion E; subst. apply Hk. apply extends_refl.
  - (* an awaited call settles *)
    unfold moveTask.
    destruct (nth_error (tasks sys) i) as [t|] eqn:Hn; [|split; assumption].
    pose proof (safe_next _ _ _ (T t (nth_error_In _ _ Hn))) as N.
    unfold settleTask. destruct (observe t) as [r|t'|X e k];
      try (split; assumption).
    destruct N as [Ha Hk].
    destruct (perform e (world sys)) as [[x w1]|] eqn:Hp; [split; assumption|].
    destruct (coerce e a) as [x|]; [|split; assumption].
    split; cbn [tasks world].
    + apply consistent_settle; assumption.
    + cbn [record trace]. intros u Hin.
      apply in_replaceTask in Hin. destruct Hin as [Hin|E].
      * eapply safe_extends; [apply T; exact Hin|apply extends_app].
      * inversion E; subst. apply Hk. apply extends_refl.
  - (* an interval fires *)
    split; cbn [tasks world].
    + apply consistent_tick. exact C.
    + assert (Et : trace (tick interval (world sys)) = trace (world sys)).
      { unfold tick. destruct (find _ _); reflexivity. }
      rewrite Et. exact T.
Qed.

Lemma good_runInputs (inputs : list Input) : good (runInputs inputs).
Proof.
  unfold runInputs.
  induction inputs as [|input inputs IH] using rev_ind.
  - apply good_initial.
  - rewrite fold_left_app. cbn. apply good_react. exact IH.
Qed.

(** C1, as the code has it.  In every state the page can reach, with any
    number of handlers in flight and in any interleaving: an animation is
    stored only with a logo; the step is Animate or View only with a logo;
    the step is View only with an animation; and the stored animation is
    the answer of a call of [animateLogo], with the animation's prompt, on
    the image of a logo that the page has stored. *)
Theorem page_invariants (inputs : list Input) :
  let s := app (world (runInputs inputs)) in
  let tr := trace (world (runInputs inputs)) in
  (animation s <> None -> logo s <> None) /\
  (step s = Animate \/ step s = View -> logo s <> None) /\
  (step s = View -> animation s <> None) /\
  (forall a, animation s = Some a ->
             exists l, In l (logosSet tr) /\ animatedFrom tr a l).
Proof.
  intros s tr. destruct (good_runInputs inputs) as [[C1 C2 C3 C4 C5 C6 C7 C8] _].
  fold s in C1, C2, C3, C4, C5, C6. fold tr in C1, C2, C3, C4, C5, C6, C7.
  assert (D : forall a, animation s = Some a -> derived tr a).
  { intros a E. apply C7, C2, E. }
  repeat split.
  - intros Ha. destruct (animation s) as [a|] eqn:E; [|congruence].
    apply C3. apply (derived_has_logo tr a). apply D. reflexivity.
  - intros Hs. apply C3, C5, Hs.
  - intros Hs. apply C4, C6, Hs.
  - exact D.
Qed.

(** C1 as stated fails in its parenthesis: after [secondLogoSession] the
    stored logo is the second one, the stored animation is still the one
    made from the first, and [animateLogo] was never called on the second
    logo's image. *)
Lemma animation_outlives_its_logo :
  let w := world (runInputs secondLogoSession) in
  tasks (runInputs secondLogoSession) = []
  /\ step (app w) = Design
  /\ logo (app w)
     = Some (mkLogoData "data:image/png;base64,BBBB" "BBBB" "image/png"
               "red fox logo")
  /\ animation (app w) = Some (mkAnimationData "blob:1" "pages turn slowly")
  /\ animateCalls (trace w)
     = [(mkImageArg "AAAA" "image/png", "pages turn slowly", Ratio16x9,
         Resolved "blob:1")]
  /\ ~ derivedFromCurrent w.
Proof.
  intros w.
  assert (Hl : logo (app w)
               = Some (mkLogoData "data:image/png;base64,BBBB" "BBBB" "image/png"
                         "red fox logo")) by (vm_compute; reflexivity).
  assert (Ha : animation (app w)
               = Some (mkAnimationData "blob:1" "pages turn slowly"))
    by (vm_compute; reflexivity).
  assert (Hc : animateCalls (trace w)
               = [(mkImageArg "AAAA" "image/png", "pages turn slowly", Ratio16x9,
                   Resolved "blob:1")]) by (vm_compute; reflexivity).
  repeat split; try assumption; try (vm_compute; reflexivity).
  intros H. destruct (H _ Ha) as (l & El & ratio & Hin).
  rewrite Hl in El. inversion El; subst l. rewrite Hc in Hin.
  destruct Hin as [E|[]]. discriminate E.
Qed.

(** C6 (handleAnimate and the Animator button of the header).  With no logo
    in the state, the Animate handler returns at once and the Animator
    button does nothing, whatever the host: the world is the same
    afterwards, trace included, so no state was written, no interval
    started and [animateLogo] was not called.  And in every history the
    page can reach, each call of [animateLogo] was made on the image of a
    logo that the page has stored. *)
Theorem animate_needs_logo (h : Host) (w : World) (animPrompt : string)
    (fuel : nat) (inputs : list Input) :
  (logo (app w) = None ->
   run (S fuel) h (handleAnimate (logo (app w)) (aspectRatio (app w)) animPrompt) w
   = (w, Some (Resolved tt)) /\
   run (S fuel) h (onClick (app w) NavAnimator) w = (w, Some (Resolved tt)))
  /\
  (forall image animationPrompt ratio x,
      In (image, animationPrompt, ratio, x)
         (animateCalls (trace (world (runInputs inputs)))) ->
      exists l, In l (logosSet (trace (world (runInputs inputs))))
                /\ image = imageOf l).
Proof.
  split.
  - intros Hl. unfold onClick. rewrite Hl. split; reflexivity.
  - destruct (good_runInputs inputs) as [[_ _ _ _ _ _ _ C8] _]. exact C8.
Qed.

Lemma animate_needs_logo_witness :
  run 1 (lostAccessHost None) (handleAnimate None Ratio16x9 "spin") initialWorld
  = (initialWorld, Some (Resolved tt))
  /\ run 1 (lostAccessHost None) (onClick initialState NavAnimator) initialWorld
     = (initialWorld, Some (Resolved tt)).
Proof.
  exact (proj1 (animate_needs_logo (lostAccessHost None) initialWorld "spin" 0 [])
           eq_refl).
Defined.

End PageFacts.

(* ===================================================================== *)
(** ** More of the media request client *)
(* ===================================================================== *)

Module ClientEdgeFacts.

Import GeminiService ClientSpec ClientEdgeSpec HandlerSpec.
Local Open Scope list_scope.

(** [generateLogo] is one request and a scan of its answer. *)
Lemma generateLogo_run (K : option string) (p : Provider) (prompt : string)
    (size : ImageSize) (fuel : nat) :
  exec (S (S fuel)) p (generateLogo K prompt size) start =
  (mkRun 0 [mkCall (GenerateContent (contentRequest K prompt size))
              (generateContent p (contentRequest K prompt size))],
   Some match generateContent p (contentRequest K prompt size) with
        | Resolved response => firstInline (firstCandidateParts response)
        | Rejected e => Rejected e
        end).
Proof.
  unfold generateLogo, Js.bind, await. cbn [exec].
  rewrite ClientFacts.observe_bind. cbn.
  destruct (generateContent p _); reflexivity.
Qed.

Lemma firstInline_resolved (ps : list Part) (r : LogoResult) :
  firstInline ps = Resolved r ->
  exists part payload,
    In part ps /\ inlineData part = Some payload /\
    r = mkLogoResult
          ("data:" ++ or_else (inlineMimeType payload) "image/png"
             ++ ";base64," ++ data payload)%string
          (data payload)
          (or_else (inlineMimeType payload) "image/png").
Proof.
  induction ps as [|part rest IH]; cbn [firstInline]; [discriminate|].
  destruct (inlineData part) as [payload|] eqn:E.
  - intros H. inversion H. exists part, payload.
    split; [left; reflexivity|]. split; [exact E|reflexivity].
  - intros H. destruct (IH H) as (q & payload & Hin & Hq & Hr).
    exists q, payload. split; [right; exact Hin|]. split; assumption.
Qed.

Lemma or_else_not_empty (v : option string) (d : string) :
  d <> ""%string -> or_else v d <> ""%string.
Proof. intros Hd. destruct v as [[|c s]|]; cbn; congruence. Qed.

(** [generateLogo], when the provider fails.  When the provider rejects the
    image request, [generateLogo] rejects with the provider's error as it
    is, after that one request: it does not try again and calls nothing
    else. *)
Lemma generateLogo_provider_error (K : option string) (p : Provider)
    (prompt : string) (size : ImageSize) (e : JsError) (fuel : nat) :
  generateContent p (contentRequest K prompt size) = Rejected e ->
  exec (S (S fuel)) p (generateLogo K prompt size) start =
  (mkRun 0 [mkCall (GenerateContent (contentRequest K prompt size)) (Rejected e)],
   Some (Rejected e)).
Proof. intros H. rewrite generateLogo_run, H. reflexivity. Qed.

Lemma generateLogo_provider_error_witness :
  snd (exec 2 overQuotaProvider (generateLogo None "blue owl logo" Size1K) start)
  = Some (Rejected (Error "429: quota exceeded")).
Proof.
  rewrite (generateLogo_provider_error None overQuotaProvider "blue owl logo"
             Size1K (Error "429: quota exceeded") 0 eq_refl).
  reflexivity.
Defined.

(** [generateLogo], what it returns.  Whatever [generateLogo] resolves with
    is the inline data of a part of the first candidate: [base64] is that
    data, [mimeType] is not empty (it is "image/png" when the provider gives
    none or an empty one), and [url] is the data URI of the two. *)
Lemma generateLogo_result_is_data_uri (K : option string) (p : Provider)
    (prompt : string) (size : ImageSize) (fuel : nat) (r : LogoResult) :
  snd (exec fuel p (generateLogo K prompt size) start) = Some (Resolved r) ->
  r_url r = ("data:" ++ r_mimeType r ++ ";base64," ++ r_base64 r)%string /\
  r_mimeType r <> ""%string /\
  exists response part payload,
    generateContent p (contentRequest K prompt size) = Resolved response /\
    In part (firstCandidateParts response) /\
    inlineData part = Some payload /\
    r_base64 r = data payload.
Proof.
  intros H. destruct fuel as [|[|fuel]]; try discriminate H.
  rewrite generateLogo_run in H. cbn [snd] in H.
  destruct (generateContent p _) as [response|e] eqn:Hg; [|discriminate H].
  inversion H as [Hf]. destruct (firstInline_resolved _ _ Hf)
    as (part & payload & Hin & Hp & ->).
  cbn. split; [reflexivity|]. split.
  - apply or_else_not_empty. discriminate.
  - exists response, part, payload. repeat split; assumption.
Qed.

Lemma generateLogo_result_is_data_uri_witness :
  snd (exec 2 sampleProvider (generateLogo None "blue owl logo" Size2K) start)
  = Some (Resolved (mkLogoResult "data:image/png;base64,AAAA" "AAAA" "image/png"))
  /\ r_mimeType (mkLogoResult "data:image/png;base64,AAAA" "AAAA" "image/png")
     <> ""%string.
Proof.
  split; [reflexivity|].
  exact (proj1 (proj2 (generateLogo_result_is_data_uri None sampleProvider
                         "blue owl logo" Size2K 2
                         (mkLogoResult "data:image/png;base64,AAAA" "AAAA"
                            "image/png")
                         eq_refl))).
Defined.

(** The run of the download part, whatever its outcome. *)
Lemma download_run (K : option string) (p : Provider) (operation : Operation)
    (n : nat) (cs : list Call) :
  fst (exec 4 p (download K operation) (mkRun n cs)) =
  mkRun n (cs ++ downloadCalls K p operation).
Proof.
  unfold download, downloadCalls.
  destruct (truthy (downloadLink operation)); cbn;
    [|rewrite app_nil_r; reflexivity].
  destruct (fetch p _) as [resp|e]; cbn; [|reflexivity].
  destruct (readBlob p resp) as [blob|e]; cbn; rewrite <- ?app_assoc; reflexivity.
Qed.

Lemma sleeps_app (cs cs' : list Call) : sleeps (cs ++ cs') = sleeps cs ++ sleeps cs'.
Proof. apply flat_map_app. Qed.

Lemma downloads_app (cs cs' : list Call) :
  downloads (cs ++ cs') = downloads cs + downloads cs'.
Proof. unfold downloads. rewrite filter_app, length_app. reflexivity. Qed.

Lemma sleeps_pollCalls (ops : nat -> Operation) (n : nat) : forall i,
  sleeps (pollCalls ops i n) = repeat 10000%Z n.
Proof.
  induction n as [|n IH]; intros i; cbn; [reflexivity|].
  f_equal. apply IH.
Qed.

Lemma downloads_pollCalls (ops : nat -> Operation) (n : nat) : forall i,
  downloads (pollCalls ops i n) = 0.
Proof.
  induction n as [|n IH]; intros i; cbn; [reflexivity|]. apply (IH (S i)).
Qed.

Lemma sleeps_downloadCalls (K : option string) (p : Provider)
    (operation : Operation) :
  sleeps (downloadCalls K p operation) = [].
Proof.
  unfold downloadCalls. destruct (truthy _); [|reflexivity].
  destruct (fetch p _) as [resp|e]; [|reflexivity].
  destruct (readBlob p resp); reflexivity.
Qed.

Lemma downloads_downloadCalls (K : option string) (p : Provider)
    (operation : Operation) :
  downloads (downloadCalls K p operation)
  = if truthy (downloadLink operation) then 1 else 0.
Proof.
  unfold downloadCalls. destruct (truthy _); [|reflexivity].
  destruct (fetch p _) as [resp|e]; [|reflexivity].
  destruct (readBlob p resp); reflexivity.
Qed.

(** [animateLogo], call by call.  The calls of a whole run, when the
    provider's [n]-th report is the first that is done: the job submitted
    once, the [n] turns of the loop, then the download part, and nothing
    else.  So the run sleeps [n] times, 10000 ms each time, fetches the
    status [n] times, and starts one download when there is a link and none
    when there is not. *)
Theorem animateLogo_calls_in_order (K : option string) (image : ImageArg)
    (animationPrompt : string) (ratio : AspectRatio) (p : Provider)
    (ops : nat -> Operation) (n : nat) :
  generateVideos p (videosRequest K image animationPrompt ratio) = Resolved (ops 0) ->
  pending p ops 0 n ->
  truthy_bool (done (ops n)) = true ->
  let ran := fst (exec (3 * n + 5) p (animateLogo K image animationPrompt ratio)
                    start) in
  calls ran =
    mkCall (GenerateVideos (videosRequest K image animationPrompt ratio))
      (Resolved (ops 0))
    :: pollCalls ops 0 n ++ downloadCalls K p (ops n)
  /\ fetches ran = n
  /\ sleeps (calls ran) = repeat 10000%Z n
  /\ downloads (calls ran) = (if truthy (downloadLink (ops n)) then 1 else 0).
Proof.
  intros Hgen Hpend Hdone ran. subst ran.
  rewrite (ClientFacts.animateLogo_reaches_download K image animationPrompt ratio
             p ops n 4 Hgen Hpend Hdone).
  rewrite download_run. cbn [calls fetches]. split; [reflexivity|].
  split; [reflexivity|].
  rewrite sleeps_app, downloads_app.
  change (mkCall (GenerateVideos (videosRequest K image animationPrompt ratio))
            (Resolved (ops 0)) :: pollCalls ops 0 n)
    with ([mkCall (GenerateVideos (videosRequest K image animationPrompt ratio))
             (Resolved (ops 0))] ++ pollCalls ops 0 n).
  rewrite sleeps_app, downloads_app.
  rewrite sleeps_pollCalls, sleeps_downloadCalls, downloads_pollCalls,
    downloads_downloadCalls.
  cbn. rewrite app_nil_r. split; reflexivity.
Qed.

Lemma animateLogo_calls_in_order_witness :
  let ran := fst (exec 14 sampleProvider
                    (animateLogo None (mkImageArg "AAAA" "image/png") "spin"
                       Ratio16x9) start) in
  List.length (calls ran) = 10
  /\ sleeps (calls ran) = [10000; 10000; 10000]%Z
  /\ downloads (calls ran) = 1.
Proof.
  intros ran.
  destruct (animateLogo_calls_in_order None (mkImageArg "AAAA" "image/png") "spin"
              Ratio16x9 sampleProvider sampleReports 3 eq_refl
              ClientFacts.sampleProvider_pending eq_refl) as (Hc & _ & Hs & Hd).
  split; [|split; [exact Hs|exact Hd]].
  change (calls ran) with
    (calls (fst (exec (3 * 3 + 5) sampleProvider
                   (animateLogo None (mkImageArg "AAAA" "image/png") "spin"
                      Ratio16x9) start))).
  rewrite Hc. reflexivity.
Defined.

End ClientEdgeFacts.

(* ===================================================================== *)
(** ** More of the workflow controller *)
(* ===================================================================== *)

Module HandlerFacts.

Import GeminiService App AppSpec AppFacts HandlerSpec.
Local Open Scope list_scope.

(** *** The text that asks for a key again *)

(** [err.message?.includes("Requested entity was not found")] in the two
    [catch] blocks.  An error sends the handlers to the key picker exactly
    when it has a message and that text occurs in it, anywhere and letter
    for letter. *)
Theorem entityNotFound_iff_substring (err : JsError) :
  entityNotFound err = true <->
  exists m a b,
    message err = Some m /\
    m = (a ++ "Requested entity was not found" ++ b)%string.
Proof.
  unfold entityNotFound. destruct (message err) as [m|].
  - rewrite includes_iff. split.
    + intros (a & b & E). exists m, a, b. split; [reflexivity|exact E].
    + intros (m' & a & b & E & Em). injection E as ->. exists a, b. exact Em.
  - split; [discriminate|]. intros (m & a & b & E & _). discriminate E.
Qed.

(** *** The generation handlers, outcome by outcome *)

Section Pending.

Variable h : Host.
Context {X : Type}.
Variable messages : list string.
Variable ms : Z.
Variable media : AppE (Settled X).
Variable onSuccess : X -> Async AppE unit.
Variable fallback : string.

Hypothesis media_awaited : forall w, perform media w = None.

(** The media call never settles: the handler stays suspended in it, with
    its opening done and nothing else. *)
Lemma flow_media_pending (w : World) (fuel : nat) :
  settle h media = None ->
  3 < fuel ->
  run fuel h (generationFlow messages ms media onSuccess fallback) w =
  (opened messages ms w, None).
Proof.
  intros Hm Hf. unfold generationFlow.
  eapply hangs_run.
  - eapply hangs_seq_r; [apply runs_call; reflexivity|].
    eapply hangs_seq_r; [apply runs_call; reflexivity|].
    eapply hangs_seq_r; [apply runs_call; reflexivity|].
    apply hangs_tryFinally_body. unfold tryCatch. apply hangs_bind_l.
    apply hangs_seq_l. apply hangs_await.
    unfold answerOf. rewrite media_awaited, Hm. reflexivity.
  - cbn. lia.
Qed.

End Pending.

(** [handleAnimate], on success.  When [animateLogo] resolves with a video
    URL, the handler run over it
    stores the animation with that URL and the prompt it was given, sets the
    step to View, leaves the logo and the options as they were, has no
    error left and ends with [isGenerating] false. *)
Theorem animated_logo_is_stored (fuel : nat) (K : option string)
    (p : Provider) (hasKey : option (Settled bool))
    (selectKey : option (Settled unit)) (w : World) (l : LogoData)
    (animPrompt videoUrl : string) :
  logo (app w) = Some l ->
  snd (exec fuel p
         (animateLogo K (mkImageArg (base64 l) (mimeType l)) animPrompt
            (aspectRatio (app w))) start) = Some (Resolved videoUrl) ->
  let h := connect fuel K p hasKey selectKey in
  let out := run 9 h (handleAnimate (logo (app w)) (aspectRatio (app w)) animPrompt)
               w in
  snd out = Some (Resolved tt)
  /\ animation (app (fst out)) = Some (mkAnimationData videoUrl animPrompt)
  /\ step (app (fst out)) = View
  /\ logo (app (fst out)) = Some l
  /\ error (app (fst out)) = None
  /\ isGenerating (app (fst out)) = false
  /\ imageSize (app (fst out)) = imageSize (app w)
  /\ aspectRatio (app (fst out)) = aspectRatio (app w).
Proof.
  intros Hl Hok h out.
  assert (Hg : animateLogoAnswer h (mkImageArg (base64 l) (mimeType l)) animPrompt
                 (aspectRatio (app w)) = Some (Resolved videoUrl)) by exact Hok.
  subst out. rewrite Hl, handleAnimate_flow.
  rewrite (flow_resolved h _ _ _ _ _ (animateLogo_awaited _ _ _) w _ videoUrl 2 9
             Hg (runs_storeAnimation h _ _ _) ltac:(lia)).
  cbn. rewrite Hl. repeat split.
Qed.

Lemma animated_logo_is_stored_witness :
  let h := connect 14 None ClientSpec.sampleProvider (Some (Resolved true))
             (Some (Resolved tt)) in
  let out := run 9 h (handleAnimate (Some owl) Ratio16x9 "pages turn slowly")
               (withLogo owl Animate) in
  animation (app (fst out))
  = Some (mkAnimationData "blob:https://video/1?alt=media&key=undefined"
            "pages turn slowly")
  /\ step (app (fst out)) = View.
Proof.
  intros h out.
  destruct (animated_logo_is_stored 14 None ClientSpec.sampleProvider
              (Some (Resolved true)) (Some (Resolved tt)) (withLogo owl Animate)
              owl "pages turn slowly"
              "blob:https://video/1?alt=media&key=undefined" eq_refl eq_refl)
    as (_ & Ha & Hs & _).
  split; assumption.
Defined.

(** [handleGenerateLogo], on success.  When [generateLogo] resolves, the
    handler replaces the logo as a whole
    and nothing else of the assets: the animation that is stored stays,
    the options stay, and the error shown before is gone.  (The progress
    message belongs to the handler's interval and is not part of the
    statement.) *)
Theorem new_logo_keeps_animation (h : Host) (w : World) (description : string)
    (result : LogoResult) :
  generateLogoAnswer h description (imageSize (app w)) = Some (Resolved result) ->
  let out := run 9 h (handleGenerateLogo (imageSize (app w)) description) w in
  logo (app (fst out))
  = Some (mkLogoData (r_url result) (r_base64 result) (r_mimeType result)
            description)
  /\ animation (app (fst out)) = animation (app w)
  /\ error (app (fst out)) = None
  /\ imageSize (app (fst out)) = imageSize (app w)
  /\ aspectRatio (app (fst out)) = aspectRatio (app w).
Proof.
  intros Hg out. subst out. rewrite handleGenerateLogo_flow.
  rewrite (flow_resolved h _ _ _ _ _ (generateLogo_awaited _ _) w _ result 2 9
             Hg (runs_storeLogo h _ _ _) ltac:(lia)).
  cbn. repeat split.
Qed.

Lemma new_logo_keeps_animation_witness :
  let w := mkWorld (mkState View (Some owl) (Some (mkAnimationData "blob:1" "spin"))
                      false (Some "429: quota exceeded") Size1K Ratio16x9 "")
             [] 0 [] in
  let out := run 9 obligingHost (handleGenerateLogo Size1K "red fox logo") w in
  animation (app (fst out)) = Some (mkAnimationData "blob:1" "spin")
  /\ error (app (fst out)) = None.
Proof.
  intros w out.
  destruct (new_logo_keeps_animation obligingHost w "red fox logo" sampleLogo
              eq_refl) as (_ & Ha & He & _).
  split; assumption.
Defined.

Lemma no_message_is_not_entityNotFound (err : JsError) :
  message err = None \/ message err = Some ""%string -> entityNotFound err = false.
Proof. unfold entityNotFound. intros [E|E]; rewrite E; reflexivity. Qed.

(** [handleGenerateLogo] and [handleAnimate], on failure.  When the media
    call rejects, with any error, and the key picker (if
    the error asks for it) settles, either handler returns with the step,
    the logo, the animation and the options as they were and
    [isGenerating] false; the error shown is the access-recovery
    text, or the message of the error, or the handler's fallback text when
    the error has no message or an empty one. *)
Theorem failed_call_keeps_the_state (h : Host) (w : World) (err : JsError) :
  (entityNotFound err = true -> openSelectKey h <> None) ->
  (forall description,
      generateLogoAnswer h description (imageSize (app w)) = Some (Rejected err) ->
      failsCleanly h w (handleGenerateLogo (imageSize (app w)) description)
        "Something went wrong while generating the logo." err)
  /\
  (forall l animPrompt,
      logo (app w) = Some l ->
      animateLogoAnswer h (mkImageArg (base64 l) (mimeType l)) animPrompt
        (aspectRatio (app w)) = Some (Rejected err) ->
      failsCleanly h w
        (handleAnimate (logo (app w)) (aspectRatio (app w)) animPrompt)
        "Failed to animate logo." err).
Proof.
  intros Hp. split.
  - intros description Hg. rewrite handleGenerateLogo_flow.
    unfold failsCleanly, sameStored.
    destruct (entityNotFound err) eqn:He.
    + destruct (openSelectKey h) as [picker|] eqn:Ho;
        [|exfalso; apply Hp; reflexivity].
      rewrite (flow_recovered h _ _ _ _ _ (generateLogo_awaited _ _) w err
                 picker 9 Hg He Ho ltac:(lia)).
      unfold shownError. rewrite He. cbn. repeat split; try discriminate.
      intros H. rewrite (no_message_is_not_entityNotFound _ H) in He.
      discriminate He.
    + rewrite (flow_rejected h _ _ _ _ _ (generateLogo_awaited _ _) w err 9
                 Hg He ltac:(lia)).
      cbn. repeat split; try discriminate.
      * unfold shownError. rewrite He. reflexivity.
      * intros [E|E]; rewrite E; reflexivity.
  - intros l animPrompt Hl Hg. rewrite Hl, handleAnimate_flow.
    unfold failsCleanly, sameStored.
    destruct (entityNotFound err) eqn:He.
    + destruct (openSelectKey h) as [picker|] eqn:Ho;
        [|exfalso; apply Hp; reflexivity].
      rewrite (flow_recovered h _ _ _ _ _ (animateLogo_awaited _ _ _) w err
                 picker 9 Hg He Ho ltac:(lia)).
      unfold shownError. rewrite He. cbn. rewrite Hl.
      repeat split; try discriminate.
      intros H. rewrite (no_message_is_not_entityNotFound _ H) in He.
      discriminate He.
    + rewrite (flow_rejected h _ _ _ _ _ (animateLogo_awaited _ _ _) w err 9
                 Hg He ltac:(lia)).
      cbn. rewrite Hl. repeat split; try discriminate.
      * unfold shownError. rewrite He. reflexivity.
      * intros [E|E]; rewrite E; reflexivity.
Qed.

Lemma failed_call_keeps_the_state_witness :
  failsCleanly keylessHost (withLogo owl Animate)
    (handleAnimate (Some owl) Ratio16x9 "pages turn slowly")
    "Failed to animate logo." quotaError.
Proof.
  apply (proj2 (failed_call_keeps_the_state keylessHost (withLogo owl Animate)
                  quotaError (fun H => False_ind _ (Bool.diff_false_true H)))
           owl "pages turn slowly" eq_refl eq_refl).
Defined.

(** [handleAnimate] over a stalled [animateLogo].  While the provider never
    reports the video operation done, the handler never returns, whatever
    the budgets: it stays suspended in [animateLogo] with [isGenerating]
    true, its interval running, no error, and the rest of the state as it
    was; the overlay shows the progress message that was there before the
    call until the interval first fires. *)
Theorem stalled_provider_keeps_page_busy (budget fuel : nat) (K : option string)
    (p : Provider) (ops : nat -> Operation) (hasKey : option (Settled bool))
    (selectKey : option (Settled unit)) (w : World) (l : LogoData)
    (animPrompt : string) :
  logo (app w) = Some l ->
  generateVideos p
    (videosRequest K (mkImageArg (base64 l) (mimeType l)) animPrompt
       (aspectRatio (app w))) = Resolved (ops 0) ->
  (forall n, ClientSpec.pending p ops 0 n) ->
  3 < fuel ->
  let h := connect budget K p hasKey selectKey in
  let out := run fuel h
               (handleAnimate (logo (app w)) (aspectRatio (app w)) animPrompt) w in
  snd out = None
  /\ isGenerating (app (fst out)) = true
  /\ error (app (fst out)) = None
  /\ timers (fst out) = timers w ++ [mkTimer (nextTimer w) animationMessages 4000 0]
  /\ sameAssets (app w) (app (fst out))
  /\ Render.overlay (Render.render (app (fst out))) = Some (progressMessage (app w)).
Proof.
  intros Hl Hgen Hnever Hf h out.
  assert (Hg : settle h (AnimateLogo (mkImageArg (base64 l) (mimeType l)) animPrompt
                           (aspectRatio (app w))) = None).
  { subst h. unfold connect. cbn [settle animateLogoAnswer].
    destruct budget as [|budget]; [reflexivity|].
    rewrite (ClientFacts.animateLogo_submitted _ _ _ _ _ _ _ Hgen).
    apply ClientFacts.poll_forever. exact Hnever. }
  subst out. rewrite Hl, handleAnimate_flow.
  rewrite (flow_media_pending h _ _ _ _ _ (animateLogo_awaited _ _ _) w fuel Hg Hf).
  unfold sameAssets. cbn. rewrite Hl. repeat split.
Qed.

Lemma stalled_provider_keeps_page_busy_witness :
  let h := connect 1000 None stalledProvider (Some (Resolved true))
             (Some (Resolved tt)) in
  let out := run 50 h (handleAnimate (Some owl) Ratio16x9 "pages turn slowly")
               (withLogo owl Animate) in
  snd out = None /\ isGenerating (app (fst out)) = true.
Proof.
  intros h out.
  destruct (stalled_provider_keeps_page_busy 1000 50 None stalledProvider
              (fun _ => mkOperation None None) (Some (Resolved true))
              (Some (Resolved tt)) (withLogo owl Animate) owl
              "pages turn slowly" eq_refl eq_refl)
    as (Hr & Hb & _).
  - intros n j Hj. split; reflexivity.
  - lia.
  - split; assumption.
Defined.

(** [handleAnimate] over [animateLogo], once the provider has reported the
    operation done.  Without a download link, the handler shows "Failed to
    get video download link." and leaves the step, the logo, the animation
    and the options as they were.  With a link, whatever HTTP status the
    download answers with (it is not looked at), the blob read from the
    response becomes the animation and the step becomes View. *)
Theorem animate_end_to_end (K : option string) (p : Provider)
    (ops : nat -> Operation) (n : nat) (hasKey : option (Settled bool))
    (selectKey : option (Settled unit)) (w : World) (l : LogoData)
    (animPrompt : string) :
  logo (app w) = Some l ->
  generateVideos p
    (videosRequest K (mkImageArg (base64 l) (mimeType l)) animPrompt
       (aspectRatio (app w))) = Resolved (ops 0) ->
  ClientSpec.pending p ops 0 n ->
  truthy_bool (done (ops n)) = true ->
  let h := connect (3 * n + 5) K p hasKey selectKey in
  let out := run 9 h (handleAnimate (logo (app w)) (aspectRatio (app w)) animPrompt)
               w in
  (truthy (downloadLink (ops n)) = false ->
   error (app (fst out)) = Some "Failed to get video download link."%string
   /\ sameAssets (app w) (app (fst out))
   /\ isGenerating (app (fst out)) = false)
  /\
  (forall status body blob,
      truthy (downloadLink (ops n)) = true ->
      fetch p (interpolate (downloadLink (ops n)) ++ "&key=" ++ interpolate K)%string
      = Resolved (mkFetchResponse status body) ->
      readBlob p (mkFetchResponse status body) = Resolved blob ->
      animation (app (fst out))
      = Some (mkAnimationData (createObjectURL p blob) animPrompt)
      /\ step (app (fst out)) = View
      /\ error (app (fst out)) = None).
Proof.
  intros Hl Hgen Hpend Hdone h out.
  assert (Ha : animateLogoAnswer h (mkImageArg (base64 l) (mimeType l)) animPrompt
                 (aspectRatio (app w))
               = snd (exec 4 p (download K (ops n))
                        (mkRun n (mkCall (GenerateVideos
                                            (videosRequest K
                                               (mkImageArg (base64 l) (mimeType l))
                                               animPrompt (aspectRatio (app w))))
                                    (Resolved (ops 0))
                                  :: ClientSpec.pollCalls ops 0 n)))).
  { subst h. unfold connect. cbn [animateLogoAnswer].
    rewrite (ClientFacts.animateLogo_reaches_download K _ animPrompt _ p ops n 4
               Hgen Hpend Hdone). reflexivity. }
  rewrite ClientFacts.download_outcome in Ha.
  subst out. rewrite Hl, handleAnimate_flow. split.
  - intros Hlink. rewrite Hlink in Ha.
    rewrite (flow_rejected h _ _ _ _ _ (animateLogo_awaited _ _ _) w
               NoVideoReturned 9 Ha eq_refl ltac:(lia)).
    unfold sameAssets. cbn. rewrite Hl. repeat split.
  - intros status body blob Hlink Hfetch Hblob.
    rewrite Hlink, Hfetch, Hblob in Ha.
    rewrite (flow_resolved h _ _ _ _ _ (animateLogo_awaited _ _ _) w _ _ 2 9
               Ha (runs_storeAnimation h _ _ _) ltac:(lia)).
    cbn. repeat split.
Qed.

Lemma animate_end_to_end_witness :
  let h := connect 5 None notFoundProvider (Some (Resolved true))
             (Some (Resolved tt)) in
  let out := run 9 h (handleAnimate (Some owl) Ratio16x9 "pages turn slowly")
               (withLogo owl Animate) in
  animation (app (fst out))
  = Some (mkAnimationData "blob:Not Found" "pages turn slowly")
  /\ step (app (fst out)) = View.
Proof.
  intros h out.
  destruct (animate_end_to_end None notFoundProvider
              (fun _ => ClientSpec.sampleReports 3) 0 (Some (Resolved true))
              (Some (Resolved tt)) (withLogo owl Animate) owl "pages turn slowly"
              eq_refl eq_refl) as [_ H].
  - intros j Hj. lia.
  - reflexivity.
  - destruct (H 404%Z "Not Found"%string (mkBlob "Not Found") eq_refl eq_refl
                eq_refl) as (Ha & Hs & _).
    split; assumption.
Defined.

(** *** [checkApiKey], and the options *)

Lemma keyChecks_app (tr tr' : list Obs) :
  keyChecks (tr ++ tr') = keyChecks tr + keyChecks tr'.
Proof. unfold keyChecks. rewrite filter_app, length_app. reflexivity. Qed.

(** [checkApiKey] asks the host once whether a key is selected and opens
    the picker only when the answer is no.  It writes the step (Design) or
    the error (the key-check text) and nothing else: the logo, the
    animation, [isGenerating], the options, the progress message and the
    intervals stay, and when the check succeeds the error that was shown
    before stays as well. *)
Theorem checkApiKey_asks_once (h : Host) (w : World) :
  let w' := fst (run 4 h checkApiKey w) in
  (logo (app w') = logo (app w) /\ animation (app w') = animation (app w) /\
   isGenerating (app w') = isGenerating (app w) /\
   imageSize (app w') = imageSize (app w) /\
   aspectRatio (app w') = aspectRatio (app w) /\
   progressMessage (app w') = progressMessage (app w) /\
   timers w' = timers w)
  /\ (step (app w') = step (app w) \/ step (app w') = Design)
  /\ (error (app w') = error (app w) \/ error (app w') = Some keyCheckFailed)
  /\ (keyCheckSucceeds h = true -> error (app w') = error (app w))
  /\ keyChecks (trace w') <= S (keyChecks (trace w))
  /\ keySelections (trace w') <= S (keySelections (trace w))
  /\ (hasSelectedApiKey h <> Some (Resolved false) ->
      keySelections (trace w') = keySelections (trace w)).
Proof.
  unfold keyCheckSucceeds, checkApiKey.
  cbn - [keySelections keyChecks].
  destruct (hasSelectedApiKey h) as [[[|]|e]|]; cbn - [keySelections keyChecks];
    try (destruct (openSelectKey h) as [[[]|e]|]; cbn - [keySelections keyChecks]);
    rewrite <- ?app_assoc, ?keySelections_app, ?keyChecks_app; cbn;
    repeat split; auto; try lia; try discriminate; try congruence.
Qed.

(** The two selects and the closures of the handlers.  The size selected is
    the size requested, and the format selected is
    the format requested: after the select has changed, the next Generate
    calls [generateLogo] with the new size and the next Animate calls
    [animateLogo] with the new format. *)
Theorem selected_options_are_requested (h : Host) (w : World) :
  (forall z description result,
      generateLogoAnswer h description z = Some (Resolved result) ->
      let w1 := fst (run 2 h (onClick (app w) (SelectImageSize z)) w) in
      let w2 := fst (run 9 h (onClick (app w1) (Generate description)) w1) in
      In (obs (GenerateLogo description z) (Resolved result)) (trace w2)
      /\ imageSize (app w2) = z)
  /\
  (forall r l animPrompt videoUrl,
      logo (app w) = Some l ->
      animateLogoAnswer h (mkImageArg (base64 l) (mimeType l)) animPrompt r
      = Some (Resolved videoUrl) ->
      let w1 := fst (run 2 h (onClick (app w) (SelectAspectRatio r)) w) in
      let w2 := fst (run 9 h (onClick (app w1) (AnimateButton animPrompt)) w1) in
      In (obs (AnimateLogo (mkImageArg (base64 l) (mimeType l)) animPrompt r)
            (Resolved videoUrl)) (trace w2)
      /\ aspectRatio (app w2) = r).
Proof.
  split.
  - intros z description result Hg w1 w2. subst w2 w1.
    cbn [onClick]. change (fst (run 2 h (call (SetImageSize z)) w))
      with (did (SetImageSize z) w).
    cbn [did perform withApp record app imageSize].
    rewrite handleGenerateLogo_flow.
    rewrite (flow_resolved h _ _ _ _ _ (generateLogo_awaited _ _) _ _ result 2 9
               Hg (runs_storeLogo h _ _ _) ltac:(lia)).
    cbn. split; [|reflexivity].
    rewrite <- !app_assoc. apply in_or_app. right. cbn. auto 10.
  - intros r l animPrompt videoUrl Hl Hg w1 w2. subst w2 w1.
    cbn [onClick]. change (fst (run 2 h (call (SetAspectRatio r)) w))
      with (did (SetAspectRatio r) w).
    cbn [did perform withApp record app aspectRatio logo]. rewrite Hl.
    rewrite handleAnimate_flow.
    rewrite (flow_resolved h _ _ _ _ _ (animateLogo_awaited _ _ _) _ _ videoUrl 2 9
               Hg (runs_storeAnimation h _ _ _) ltac:(lia)).
    cbn. split; [|reflexivity].
    rewrite <- !app_assoc. apply in_or_app. right. cbn. auto 10.
Qed.

Lemma selected_options_are_requested_witness :
  let w1 := fst (run 2 obligingHost (onClick initialState (SelectImageSize Size4K))
                   initialWorld) in
  let w2 := fst (run 9 obligingHost (onClick (app w1) (Generate "blue owl logo"))
                   w1) in
  In (obs (GenerateLogo "blue owl logo" Size4K) (Resolved sampleLogo)) (trace w2).
Proof.
  intros w1 w2.
  exact (proj1 (proj1 (selected_options_are_requested obligingHost initialWorld)
                  Size4K "blue owl logo" sampleLogo eq_refl)).
Defined.

(** Generate, then Animate.  The logo that a generation has just stored is
    the one the next Animate works on, whatever logo was stored before:
    [animateLogo] is called with the [base64] and the [mimeType] that
    [generateLogo] resolved with, and its answer becomes the animation. *)
Theorem generated_logo_is_the_one_animated (h : Host) (w : World)
    (description animPrompt videoUrl : string) (result : LogoResult) :
  generateLogoAnswer h description (imageSize (app w)) = Some (Resolved result) ->
  animateLogoAnswer h (mkImageArg (r_base64 result) (r_mimeType result)) animPrompt
    (aspectRatio (app w)) = Some (Resolved videoUrl) ->
  let w1 := fst (run 9 h (onClick (app w) (Generate description)) w) in
  let w2 := fst (run 9 h (onClick (app w1) (AnimateButton animPrompt)) w1) in
  In (obs (AnimateLogo (mkImageArg (r_base64 result) (r_mimeType result)) animPrompt
             (aspectRatio (app w))) (Resolved videoUrl)) (trace w2)
  /\ animation (app w2) = Some (mkAnimationData videoUrl animPrompt)
  /\ logo (app w2)
     = Some (mkLogoData (r_url result) (r_base64 result) (r_mimeType result)
               description)
  /\ step (app w2) = View.
Proof.
  intros Hg Ha w1 w2. subst w2 w1. cbn [onClick].
  rewrite handleGenerateLogo_flow.
  rewrite (flow_resolved h _ _ _ _ _ (generateLogo_awaited _ _) w _ result 2 9
             Hg (runs_storeLogo h _ _ _) ltac:(lia)).
  cbn [fst].
  set (w1 := closed (nextTimer w) _).
  assert (Hl : logo (app w1)
               = Some (mkLogoData (r_url result) (r_base64 result)
                         (r_mimeType result) description)) by reflexivity.
  assert (Hr : aspectRatio (app w1) = aspectRatio (app w)) by reflexivity.
  rewrite Hl, Hr, handleAnimate_flow. cbn [base64 mimeType].
  rewrite (flow_resolved h _ _ _ _ _ (animateLogo_awaited _ _ _) w1 _ videoUrl 2 9
             Ha (runs_storeAnimation h _ _ _) ltac:(lia)).
  cbn [fst]. split; [|split; [reflexivity|split; [|reflexivity]]].
  - cbn. rewrite <- !app_assoc. apply in_or_app. right. cbn. auto 20.
  - cbn. exact Hl.
Qed.

Lemma generated_logo_is_the_one_animated_witness :
  let w1 := fst (run 9 obligingHost (onClick initialState (Generate "blue owl logo"))
                   initialWorld) in
  let w2 := fst (run 9 obligingHost
                   (onClick (app w1) (AnimateButton "pages turn slowly")) w1) in
  animation (app w2) = Some (mkAnimationData "blob:1" "pages turn slowly")
  /\ step (app w2) = View.
Proof.
  intros w1 w2.
  destruct (generated_logo_is_the_one_animated obligingHost initialWorld
              "blue owl logo" "pages turn slowly" "blob:1" sampleLogo eq_refl
              eq_refl) as (_ & Ha & _ & Hs).
  split; assumption.
Defined.

End HandlerFacts.

(* ===================================================================== *)
(** ** The ticker *)
(* ===================================================================== *)

Module TickerFacts.

Import GeminiService App AppSpec HandlerSpec TidySpec.
Local Open Scope list_scope.

(** Replacing what [find] finds by something it finds too. *)
Lemma find_replaced {A} (f : A -> bool) (l : list A) (a a' : A) :
  find f l = Some a -> f a' = true ->
  find f (map (fun u => if f u then a' else u) l) = Some a'.
Proof.
  intros Hfind Ha'. induction l as [|u l IH]; [discriminate Hfind|].
  cbn in *. destruct (f u) eqn:Hu.
  - rewrite Ha'. reflexivity.
  - rewrite Hu. apply IH. exact Hfind.
Qed.

(** One firing of a running interval: the message shown is the one at its
    index, and the index has moved on by one. *)
Lemma tick_running (interval : nat) (w : World) (t : Timer) :
  find (fun u => Nat.eqb (timerId u) interval) (timers w) = Some t ->
  progressMessage (app (tick interval w))
  = nth (msgIndex t mod List.length (timerMessages t)) (timerMessages t) ""%string
  /\
  find (fun u => Nat.eqb (timerId u) interval) (timers (tick interval w))
  = Some (mkTimer (timerId t) (timerMessages t) (timerPeriod t) (S (msgIndex t))).
Proof.
  intros Hfind. unfold tick. rewrite Hfind. cbn [app timers]. split.
  - reflexivity.
  - apply (find_replaced (fun u => Nat.eqb (timerId u) interval) _ t);
      [exact Hfind|].
    cbn. apply find_some in Hfind. apply Hfind.
Qed.

(** A firing writes the progress message and nothing else of the state,
    and nothing to the trace. *)
Lemma tick_frame (interval : nat) (w : World) :
  sameButMessage (app w) (app (tick interval w))
  /\ trace (tick interval w) = trace w
  /\ nextTimer (tick interval w) = nextTimer w.
Proof.
  unfold tick, sameButMessage.
  destruct (find _ (timers w)); cbn; repeat split.
Qed.

Lemma ticks_frame (n interval : nat) : forall w,
  sameButMessage (app w) (app (ticks n interval w))
  /\ trace (ticks n interval w) = trace w
  /\ nextTimer (ticks n interval w) = nextTimer w.
Proof.
  induction n as [|n IH]; intros w; cbn [ticks].
  - unfold sameButMessage. repeat split.
  - destruct (IH (tick interval w)) as ((A1 & A2 & A3 & A4 & A5 & A6 & A7) & B & C).
    destruct (tick_frame interval w) as ((D1 & D2 & D3 & D4 & D5 & D6 & D7) & E & F).
    unfold sameButMessage. repeat split; congruence.
Qed.

Lemma ticks_message (n interval : nat) : forall (w : World) (t : Timer),
  find (fun u => Nat.eqb (timerId u) interval) (timers w) = Some t ->
  progressMessage (app (ticks (S n) interval w))
  = nth ((msgIndex t + n) mod List.length (timerMessages t)) (timerMessages t)
      ""%string.
Proof.
  induction n as [|n IH]; intros w t Hfind.
  - cbn [ticks]. rewrite Nat.add_0_r. apply (tick_running interval w t Hfind).
  - change (ticks (S (S n)) interval w) with (ticks (S n) interval (tick interval w)).
    rewrite (IH _ _ (proj2 (tick_running interval w t Hfind))).
    cbn [msgIndex timerMessages]. f_equal. f_equal. lia.
Qed.

(** The callback of [setInterval] in the two handlers.  While the interval
    [interval] runs, its [k+1]-th firing shows the message at index
    [msgIndex + k] modulo the number of messages: the messages are shown in
    order and start again after the last.  Firings write the progress
    message only: the rest of the state and the trace stay as they were. *)
Theorem ticker_cycles_through_its_messages (w : World) (interval : nat)
    (t : Timer) (n : nat) :
  find (fun u => Nat.eqb (timerId u) interval) (timers w) = Some t ->
  timerMessages t <> [] ->
  let shown k := progressMessage (app (ticks (S k) interval w)) in
  shown n = nth ((msgIndex t + n) mod List.length (timerMessages t))
              (timerMessages t) ""%string
  /\ In (shown n) (timerMessages t)
  /\ shown (n + List.length (timerMessages t)) = shown n
  /\ sameButMessage (app w) (app (ticks n interval w))
  /\ trace (ticks n interval w) = trace w.
Proof.
  intros Hfind Hne shown. subst shown. cbv beta.
  assert (HL : List.length (timerMessages t) <> 0).
  { destruct (timerMessages t); [congruence|discriminate]. }
  rewrite !(ticks_message _ _ _ _ Hfind). split; [reflexivity|]. split.
  - apply nth_In. apply Nat.mod_upper_bound. exact HL.
  - split.
    + f_equal.
      replace (msgIndex t + (n + List.length (timerMessages t)))
        with (msgIndex t + n + 1 * List.length (timerMessages t)) by lia.
      apply Nat.Div0.mod_add.
    + destruct (ticks_frame n interval w) as (A & B & _). split; assumption.
Qed.

Lemma ticker_cycles_through_its_messages_witness :
  let w := mkWorld initialState [mkTimer 0 loadingMessages 3000 0] 1 [] in
  progressMessage (app (ticks 8 0 w)) = "Perfecting geometric proportions..."%string
  /\ progressMessage (app (ticks 14 0 w)) = progressMessage (app (ticks 8 0 w)).
Proof.
  intros w.
  destruct (ticker_cycles_through_its_messages w 0
              (mkTimer 0 loadingMessages 3000 0) 7 eq_refl)
    as (H1 & _ & H3 & _).
  - discriminate.
  - split; [exact H1|exact H3].
Defined.

End TickerFacts.

(* ===================================================================== *)
(** ** What the handlers in flight have yet to undo *)
(* ===================================================================== *)

Module TidyFacts.

Import GeminiService App AppSpec AppFacts PageSpec PageFacts HandlerSpec TidySpec.
Local Open Scope list_scope.

(** *** The rules of [keeps] *)

Section GhostRules.

Variable G : Type.
Variable fine : forall X, AppE X -> G -> Prop.
Variable after : forall X, AppE X -> X -> G -> G.

Abbreviation keeps := (TidySpec.keeps fine after).

Lemma keeps_next {R} (Q : R -> G -> Prop) g t :
  keeps Q g t ->
  match observe t with
  | RetF r => Q r g
  | TauF t' => keeps Q g t'
  | VisF e k => fine _ e g /\ forall x, keeps Q (after _ e x g) (k x)
  end.
Proof.
  intros H. destruct H as [g t r Ht Hq|g t t' Ht Hs|g t X e k Ht Ha Hk];
    rewrite Ht; auto.
Qed.

Lemma keeps_observe {R} (Q : R -> G -> Prop) g (t t' : itree AppE R) :
  observe t' = observe t -> keeps Q g t -> keeps Q g t'.
Proof.
  intros E H. destruct H.
  - eapply keeps_ret; [|eassumption]. congruence.
  - eapply keeps_tau; [|eassumption]. congruence.
  - eapply keeps_vis; [|eassumption|eassumption]. congruence.
Qed.

Lemma keeps_bind {R T} (Q1 : R -> G -> Prop) (Q : T -> G -> Prop)
    g (t : itree AppE R) (k : R -> itree AppE T) :
  keeps Q1 g t ->
  (forall r g', Q1 r g' -> keeps Q g' (k r)) ->
  keeps Q g (ITree.bind t k).
Proof.
  intros H Hk.
  induction H as [g t r Ht Hq|g t t' Ht Hs IH|g t X e k0 Ht Ha Hk0 IH].
  - eapply keeps_observe; [|apply Hk; exact Hq].
    rewrite ClientFacts.observe_bind, Ht. reflexivity.
  - eapply keeps_tau; [|exact IH].
    rewrite ClientFacts.observe_bind, Ht. reflexivity.
  - apply keeps_vis with (e := e) (k := fun x0 => ITree.bind (k0 x0) k);
      [|exact Ha|exact IH].
    rewrite ClientFacts.observe_bind, Ht. reflexivity.
Qed.

Lemma keeps_pure {R} (Q : R -> G -> Prop) g (r : R) :
  Q r g -> keeps Q g (Ret r).
Proof. intros Hq. apply keeps_ret with (r := r); [reflexivity|exact Hq]. Qed.

Lemma keeps_call {X} (Q : Settled X -> G -> Prop) g (e : AppE X) :
  fine _ e g -> (forall x, Q (Resolved x) (after _ e x g)) -> keeps Q g (call e).
Proof.
  intros Ha Hq.
  apply keeps_vis with (e := e)
    (k := fun x0 => ITree.bind (Ret x0) (fun x1 => Ret (Resolved x1)));
    [reflexivity|exact Ha|].
  intros x. apply keeps_ret with (r := Resolved x); [reflexivity|apply Hq].
Qed.

Lemma keeps_call_then {X} g (e : AppE X) :
  fine _ e g ->
  keeps (fun r g' => exists x, r = Resolved x /\ g' = after _ e x g) g (call e).
Proof.
  intros Ha. apply keeps_call; [exact Ha|]. intros x. exists x.
  split; reflexivity.
Qed.

Lemma keeps_await {X} (Q : Settled X -> G -> Prop) g (e : AppE (Settled X)) :
  fine _ e g -> (forall r, Q r (after _ e r g)) -> keeps Q g (await e).
Proof.
  intros Ha Hq.
  apply keeps_vis with (e := e) (k := fun x0 => Ret x0); [reflexivity|exact Ha|].
  intros x. apply keeps_ret with (r := x); [reflexivity|apply Hq].
Qed.

Lemma keeps_seq {A B} (Q1 : Settled A -> G -> Prop)
    (Q : Settled B -> G -> Prop) g (m : Async AppE A)
    (k : A -> Async AppE B) :
  keeps Q1 g m ->
  (forall a g', Q1 (Resolved a) g' -> keeps Q g' (k a)) ->
  (forall e g', Q1 (Rejected e) g' -> Q (Rejected e) g') ->
  keeps Q g (Js.bind m k).
Proof.
  intros Hm Hk He. unfold Js.bind. eapply keeps_bind; [exact Hm|].
  intros [a|e] g' Hq; [apply Hk; exact Hq|apply keeps_pure, He; exact Hq].
Qed.

Lemma keeps_tryCatch {A} (Q1 Q : Settled A -> G -> Prop) g
    (body : Async AppE A) (handler : JsError -> Async AppE A) :
  keeps Q1 g body ->
  (forall a g', Q1 (Resolved a) g' -> Q (Resolved a) g') ->
  (forall e g', Q1 (Rejected e) g' -> keeps Q g' (handler e)) ->
  keeps Q g (tryCatch body handler).
Proof.
  intros Hb Hok Hh. unfold tryCatch. eapply keeps_bind; [exact Hb|].
  intros [a|e] g' Hq; [apply keeps_pure, Hok; exact Hq|apply Hh; exact Hq].
Qed.

(** [try { body } finally { finalizer }], for a property [P] of the ghost
    value alone. *)
Lemma keeps_tryFinally {A} (Q1 : Settled A -> G -> Prop) (P : G -> Prop) g
    (body : Async AppE A) (finalizer : Async AppE unit) :
  keeps Q1 g body ->
  (forall r g', Q1 r g' -> keeps (fun _ g'' => P g'') g' finalizer) ->
  keeps (fun _ g'' => P g'') g (tryFinally body finalizer).
Proof.
  intros Hb Hf. unfold tryFinally. eapply keeps_bind; [exact Hb|].
  intros r g' Hq. eapply keeps_bind; [apply (Hf r); exact Hq|].
  intros f g'' Hp. destruct f; apply keeps_pure; exact Hp.
Qed.

(** The same rules for code that leaves the ghost value as it is. *)

Lemma keeps_owing_call {X} g (e : AppE X) :
  fine _ e g -> (forall x, after _ e x g = g) -> keeps (owing g) g (call e).
Proof.
  intros Ha Hg. apply keeps_call; [exact Ha|]. intros x. apply Hg.
Qed.

Lemma keeps_owing_await {X} g (e : AppE (Settled X)) :
  fine _ e g -> (forall x, after _ e x g = g) -> keeps (owing g) g (await e).
Proof.
  intros Ha Hg. apply keeps_await; [exact Ha|]. intros x. apply Hg.
Qed.

Lemma keeps_owing_seq {A B} g (m : Async AppE A) (k : A -> Async AppE B) :
  keeps (owing g) g m ->
  (forall a, keeps (owing g) g (k a)) ->
  keeps (owing g) g (Js.bind m k).
Proof.
  intros Hm Hk. eapply keeps_seq; [exact Hm| |].
  - intros a g' ->. apply Hk.
  - intros e g' ->. reflexivity.
Qed.

Lemma keeps_owing_tryCatch {A} g (body : Async AppE A)
    (handler : JsError -> Async AppE A) :
  keeps (owing g) g body ->
  (forall e, keeps (owing g) g (handler e)) ->
  keeps (owing g) g (tryCatch body handler).
Proof.
  intros Hb Hh. eapply keeps_tryCatch; [exact Hb| |].
  - intros a g' ->. reflexivity.
  - intros e g' ->. apply Hh.
Qed.

Lemma keeps_weaken {R} (Q Q' : R -> G -> Prop) g (t : itree AppE R) :
  keeps Q g t -> (forall r g', Q r g' -> Q' r g') -> keeps Q' g t.
Proof.
  intros H HQ.
  induction H as [g t r Ht Hq|g t t' Ht Hs IH|g t X e k0 Ht Ha Hk0 IH].
  - eapply keeps_ret; [exact Ht|apply HQ; exact Hq].
  - eapply keeps_tau; [exact Ht|exact IH].
  - eapply keeps_vis; [exact Ht|exact Ha|exact IH].
Qed.

End GhostRules.

(** *** The handlers pay *)

Lemma pays_next {R} (Q : R -> Debt -> Prop) d t :
  pays Q d t ->
  match observe t with
  | RetF r => Q r d
  | TauF t' => pays Q d t'
  | VisF e k => fine e /\ forall x, pays Q (after e x d) (k x)
  end.
Proof. apply keeps_next. Qed.

Lemma fine_error (m : string) : m <> ""%string -> fine (SetError (Some m)).
Proof. intros Hm. destruct m; [congruence|exact I]. Qed.

Ltac quiet :=
  repeat first
    [ apply keeps_owing_call; [exact I|reflexivity]
    | apply keeps_owing_call; [apply fine_error; discriminate|reflexivity]
    | apply keeps_owing_await; [exact I|reflexivity]
    | apply keeps_pure; reflexivity
    | apply keeps_owing_seq; [|intros ?]
    | apply keeps_owing_tryCatch; [|intros ?]
    | match goal with
      | |- TidySpec.keeps _ _ _ _ (if ?b then _ else _) => destruct b
      end ].

Ltac then_call H :=
  eapply keeps_seq;
    [apply keeps_call_then; exact H| |intros ? ? (? & E & _); discriminate E].

Lemma pays_checkApiKey : pays cleared noDebt checkApiKey.
Proof.
  unfold pays, checkApiKey.
  change (@cleared (Settled unit)) with (@owing Debt (Settled unit) noDebt). quiet.
Qed.

Lemma pays_generationFlow {X} (messages : list string) (ms : Z)
    (media : AppE (Settled X)) (onSuccess : X -> Async AppE unit)
    (fallback : string) :
  knownInterval messages ms ->
  fine media ->
  (forall r d, after media r d = d) ->
  (forall x d, pays (owing d) d (onSuccess x)) ->
  fallback <> ""%string ->
  pays cleared noDebt (generationFlow messages ms media onSuccess fallback).
Proof.
  intros Hk Hm Hd Hok Hfb. unfold pays in *. unfold generationFlow.
  then_call I. intros a1 d1 (x1 & _ & ->).
  then_call I. intros a2 d2 (x2 & _ & ->).
  then_call Hk. intros interval d3 (x3 & E3 & ->). injection E3 as <-.
  cbn [after running busy noDebt].
  apply keeps_tryFinally
    with (Q1 := owing (mkDebt [interval] true)) (P := fun d => d = noDebt).
  - apply keeps_owing_tryCatch.
    + apply keeps_owing_seq; [apply keeps_owing_await; [exact Hm|intros; apply Hd]|].
      intros x. apply Hok.
    + intros err. destruct (entityNotFound err).
      * quiet.
      * apply keeps_owing_call; [|reflexivity].
        apply fine_error, ClientEdgeFacts.or_else_not_empty. exact Hfb.
  - intros r d' ->.
    then_call I. intros a4 d4 (x4 & _ & ->). cbn [after running busy filter].
    rewrite Nat.eqb_refl. cbn [negb].
    apply keeps_call; [exact I|]. intros x5. reflexivity.
Qed.

Lemma pays_handleGenerateLogo (z : ImageSize) (description : string) :
  pays cleared noDebt (handleGenerateLogo z description).
Proof.
  rewrite handleGenerateLogo_flow. apply pays_generationFlow.
  - left. split; reflexivity.
  - exact I.
  - reflexivity.
  - intros x d. unfold pays, storeLogo. quiet.
  - discriminate.
Qed.

Lemma pays_handleAnimate (l : option LogoData) (r : AspectRatio)
    (animPrompt : string) :
  pays cleared noDebt (handleAnimate l r animPrompt).
Proof.
  destruct l as [l|]; [|apply keeps_pure; reflexivity].
  rewrite handleAnimate_flow. apply pays_generationFlow.
  - right. split; reflexivity.
  - exact I.
  - reflexivity.
  - intros x d. unfold pays, storeAnimation. quiet.
  - discriminate.
Qed.

(** Every handler of the page, started with nothing to undo, returns with
    nothing to undo. *)
Lemma pays_onClick (s : AppState) (c : Control) :
  pays cleared noDebt (onClick s c).
Proof.
  destruct c; cbn [onClick];
    try apply pays_checkApiKey;
    try apply pays_handleGenerateLogo;
    try apply pays_handleAnimate;
    unfold pays;
    change (@cleared (Settled unit)) with (@owing Debt (Settled unit) noDebt);
    quiet.
Qed.

(** *** The page stays tidy *)

Lemma replaceTask_at (l1 l2 : list (Async AppE unit)) (t : Async AppE unit)
    (o : option (Async AppE unit)) :
  replaceTask (List.length l1) o (l1 ++ t :: l2) =
  l1 ++ match o with Some t' => [t'] | None => [] end ++ l2.
Proof.
  unfold replaceTask. f_equal; [|f_equal].
  - induction l1 as [|a l1 IH]; cbn; [reflexivity|f_equal; exact IH].
  - induction l1 as [|a l1 IH]; cbn; [reflexivity|exact IH].
Qed.

(** A property of the debt of some task in flight still holds of some task
    in flight after the task at [i] has moved, when the move keeps it. *)
Lemma task_moves (P : Debt -> Prop) (ts : list (Async AppE unit)) (i : nat)
    (t : Async AppE unit) (o : option (Async AppE unit)) :
  nth_error ts i = Some t ->
  (forall d, pays cleared d t -> P d ->
     match o with
     | Some t' => exists d', pays cleared d' t' /\ P d'
     | None => False
     end) ->
  (exists t0 d, In t0 ts /\ pays cleared d t0 /\ P d) ->
  exists t0 d, In t0 (replaceTask i o ts) /\ pays cleared d t0 /\ P d.
Proof.
  intros Hn Hmove (t0 & d & Hin & Hp & HP).
  destruct (nth_error_split _ _ Hn) as (l1 & l2 & -> & <-).
  rewrite replaceTask_at.
  apply in_app_or in Hin. destruct Hin as [Hin|[<-|Hin]].
  - exists t0, d. split; [apply in_or_app; left; exact Hin|split; assumption].
  - specialize (Hmove d Hp HP). destruct o as [t'|]; [|contradiction].
    destruct Hmove as (d' & Hp' & HP'). exists t', d'.
    split; [|split; assumption].
    apply in_or_app. right. left. reflexivity.
  - exists t0, d. split; [|split; assumption].
    apply in_or_app. right. apply in_or_app. right. exact Hin.
Qed.

Lemma in_replaceTask_new (ts : list (Async AppE unit)) (i : nat)
    (t t' : Async AppE unit) :
  nth_error ts i = Some t -> In t' (replaceTask i (Some t') ts).
Proof.
  intros Hn. destruct (nth_error_split _ _ Hn) as (l1 & l2 & -> & <-).
  rewrite replaceTask_at. apply in_or_app. right. left. reflexivity.
Qed.

Lemma awaited_after {X} (e : AppE X) (w : World) :
  perform e w = None -> forall x d, after e x d = d.
Proof. intros Hp x d. destruct e; cbn in Hp; try discriminate Hp; reflexivity. Qed.

(** What a synchronous event does to the intervals, to [isGenerating], and
    to the rest, next to what it does to the debt of its handler. *)
Lemma perform_timers {X} (e : AppE X) (x : X) (w w1 : World) (tm : Timer) :
  perform e w = Some (x, w1) ->
  In tm (timers w1) ->
  (In tm (timers w) /\
   forall d, In (timerId tm) (running d) -> In (timerId tm) (running (after e x d)))
  \/ (forall d, In (timerId tm) (running (after e x d))).
Proof.
  intros Hp Hin.
  destruct e; cbn in Hp; try discriminate Hp; injection Hp as <- <-;
    cbn in Hin |- *; try (left; split; [exact Hin|auto]; fail).
  - apply in_app_or in Hin. destruct Hin as [Hin|[<-|[]]].
    + left. split; [exact Hin|]. intros d Hd. right. exact Hd.
    + right. intros d. left. reflexivity.
  - apply filter_In in Hin. destruct Hin as [Hin Hr]. left.
    split; [exact Hin|]. intros d Hd. apply filter_In. split; [exact Hd|exact Hr].
Qed.

Lemma perform_busy {X} (e : AppE X) (x : X) (w w1 : World) :
  perform e w = Some (x, w1) ->
  isGenerating (app w1) = true ->
  (isGenerating (app w) = true /\
   forall d, busy d = true -> busy (after e x d) = true)
  \/ (forall d, busy (after e x d) = true).
Proof.
  intros Hp Hb.
  destruct e; cbn in Hp; try discriminate Hp; injection Hp as <- <-;
    cbn in Hb |- *; try (left; split; [exact Hb|auto]; fail).
  right. intros d. exact Hb.
Qed.

Lemma perform_known {X} (e : AppE X) (x : X) (w w1 : World) :
  perform e w = Some (x, w1) ->
  fine e ->
  (forall tm, In tm (timers w) ->
              knownInterval (timerMessages tm) (timerPeriod tm)) ->
  forall tm, In tm (timers w1) ->
             knownInterval (timerMessages tm) (timerPeriod tm).
Proof.
  intros Hp Hf Hk tm Hin.
  destruct e; cbn in Hp; try discriminate Hp; injection Hp as <- <-;
    cbn in Hin; try (apply Hk; exact Hin).
  - apply in_app_or in Hin. destruct Hin as [Hin|[<-|[]]]; [apply Hk; exact Hin|].
    exact Hf.
  - apply filter_In in Hin. apply Hk, Hin.
Qed.

Lemma perform_message {X} (e : AppE X) (x : X) (w w1 : World) :
  perform e w = Some (x, w1) ->
  progressMessage (app w1) = progressMessage (app w).
Proof.
  intros Hp.
  destruct e; cbn in Hp; try discriminate Hp; injection Hp as <- <-; reflexivity.
Qed.

Lemma perform_error {X} (e : AppE X) (x : X) (w w1 : World) :
  perform e w = Some (x, w1) ->
  fine e ->
  error (app w) <> Some ""%string ->
  error (app w1) <> Some ""%string.
Proof.
  intros Hp Hf He.
  destruct e; cbn in Hp; try discriminate Hp; injection Hp as <- <-;
    cbn; try exact He.
  destruct e as [[|c m]|]; cbn in Hf; [contradiction|discriminate|discriminate].
Qed.

Lemma perform_step {X} (e : AppE X) (x : X) (w w1 : World) :
  perform e w = Some (x, w1) ->
  fine e ->
  step (app w) <> Setup ->
  step (app w1) <> Setup.
Proof.
  intros Hp Hf Hs.
  destruct e; cbn in Hp; try discriminate Hp; injection Hp as <- <-;
    cbn; try exact Hs.
  destruct s; cbn in Hf; [contradiction|discriminate|discriminate|discriminate].
Qed.

Lemma tick_timers (interval : nat) (w : World) (tm : Timer) :
  In tm (timers (tick interval w)) ->
  exists tm0,
    In tm0 (timers w) /\ timerId tm0 = timerId tm /\
    timerMessages tm0 = timerMessages tm /\ timerPeriod tm0 = timerPeriod tm.
Proof.
  unfold tick. destruct (find _ (timers w)) as [t|] eqn:Hfind; cbn [timers].
  - intros Hin. apply in_map_iff in Hin. destruct Hin as (u & Eu & Hu).
    destruct (Nat.eqb (timerId u) interval).
    + exists t. subst tm. cbn. apply find_some in Hfind.
      repeat split. apply Hfind.
    + exists u. subst tm. repeat split. exact Hu.
  - intros Hin. exists tm. repeat split. exact Hin.
Qed.

Lemma known_message (messages : list string) (ms : Z) (i : nat) :
  knownInterval messages ms ->
  In (nth (i mod List.length messages) messages ""%string) phrases.
Proof.
  intros [[-> _]|[-> _]]; unfold phrases; right; apply in_or_app;
    [left|right]; apply nth_In; apply Nat.mod_upper_bound; discriminate.
Qed.

Lemma tick_message (interval : nat) (w : World) :
  (forall tm, In tm (timers w) ->
              knownInterval (timerMessages tm) (timerPeriod tm)) ->
  In (progressMessage (app w)) phrases ->
  In (progressMessage (app (tick interval w))) phrases.
Proof.
  intros Hk Hm. unfold tick.
  destruct (find _ (timers w)) as [t|] eqn:Hfind; [|exact Hm].
  cbn. apply find_some in Hfind.
  apply (known_message _ (timerPeriod t)). apply Hk, Hfind.
Qed.

Lemma tidy_initial : tidy initialSystem.
Proof.
  constructor; cbn; try contradiction; try discriminate.
  left. reflexivity.
Qed.

Lemma tidy_react (sys : System) (input : Input) :
  tidy sys -> tidy (react sys input).
Proof.
  intros [T O B K M E]. destruct input as [c|i|i a|interval]; cbn [react].
  - (* a click *)
    destruct (rendered (app (world sys)) c); [|constructor; assumption].
    constructor; cbn [tasks world]; try assumption.
    + intros t Hin. apply in_app_or in Hin. destruct Hin as [Hin|[<-|[]]].
      * apply T. exact Hin.
      * exists noDebt. apply pays_onClick.
    + intros tm Hin. destruct (O tm Hin) as (t & d & Ht & Hp & Hd).
      exists t, d. split; [apply in_or_app; left; exact Ht|split; assumption].
    + intros Hb. destruct (B Hb) as (t & d & Ht & Hp & Hd).
      exists t, d. split; [apply in_or_app; left; exact Ht|split; assumption].
  - (* the next synchronous move of a task *)
    unfold moveTask.
    destruct (nth_error (tasks sys) i) as [t|] eqn:Hn; [|constructor; assumption].
    destruct (T t (nth_error_In _ _ Hn)) as [d0 Hd0].
    unfold stepTask. destruct (observe t) as [r|t'|X e k] eqn:Ht.
    + (* it has returned *)
      constructor; cbn [tasks world]; try assumption.
      * intros u Hin. apply in_replaceTask in Hin.
        destruct Hin as [Hin|Eo]; [apply T; exact Hin|discriminate Eo].
      * intros tm Hin.
        apply (task_moves (fun d => In (timerId tm) (running d)) _ _ _ _ Hn);
          [|apply O; exact Hin].
        intros d Hp Hd. apply pays_next in Hp. rewrite Ht in Hp.
        unfold cleared in Hp. subst d. exact Hd.
      * intros Hb.
        apply (task_moves (fun d => busy d = true) _ _ _ _ Hn); [|apply B; exact Hb].
        intros d Hp Hd. apply pays_next in Hp. rewrite Ht in Hp.
        unfold cleared in Hp. subst d. discriminate Hd.
    + (* a silent step *)
      constructor; cbn [tasks world]; try assumption.
      * intros u Hin. apply in_replaceTask in Hin. destruct Hin as [Hin|Eo].
        -- apply T. exact Hin.
        -- injection Eo as <-. exists d0. apply pays_next in Hd0.
           rewrite Ht in Hd0. exact Hd0.
      * intros tm Hin.
        apply (task_moves (fun d => In (timerId tm) (running d)) _ _ _ _ Hn);
          [|apply O; exact Hin].
        intros d Hp Hd. apply pays_next in Hp. rewrite Ht in Hp.
        exists d. split; assumption.
      * intros Hb.
        apply (task_moves (fun d => busy d = true) _ _ _ _ Hn); [|apply B; exact Hb].
        intros d Hp Hd. apply pays_next in Hp. rewrite Ht in Hp.
        exists d. split; assumption.
    + (* a synchronous event *)
      destruct (perform e (world sys)) as [[x w1]|] eqn:Hp;
        [|constructor; assumption].
      assert (Hnext : forall d, pays cleared d t ->
                fine e /\ pays cleared (after e x d) (k x)).
      { intros d Hd. apply pays_next in Hd. rewrite Ht in Hd.
        split; [apply Hd|apply Hd]. }
      constructor; cbn [tasks world record app timers].
      * intros u Hin. apply in_replaceTask in Hin. destruct Hin as [Hin|Eo].
        -- apply T. exact Hin.
        -- injection Eo as <-. exists (after e x d0). apply Hnext. exact Hd0.
      * intros tm Hin.
        destruct (perform_timers e x _ _ tm Hp Hin) as [[Hold Hkeep]|Hnew].
        -- apply (task_moves (fun d => In (timerId tm) (running d)) _ _ _ _ Hn);
             [|apply O; exact Hold].
           intros d Hd Hr. exists (after e x d).
           split; [apply Hnext; exact Hd|apply Hkeep; exact Hr].
        -- exists (k x), (after e x d0).
           split; [apply (in_replaceTask_new _ _ _ _ Hn)|].
           split; [apply Hnext; exact Hd0|apply Hnew].
      * intros Hb.
        destruct (perform_busy e x _ _ Hp Hb) as [[Hold Hkeep]|Hnew].
        -- apply (task_moves (fun d => busy d = true) _ _ _ _ Hn);
             [|apply B; exact Hold].
           intros d Hd Hr. exists (after e x d).
           split; [apply Hnext; exact Hd|apply Hkeep; exact Hr].
        -- exists (k x), (after e x d0).
           split; [apply (in_replaceTask_new _ _ _ _ Hn)|].
           split; [apply Hnext; exact Hd0|apply Hnew].
      * apply (perform_known e x _ _ Hp); [apply (Hnext d0 Hd0)|exact K].
      * rewrite (perform_message e x _ _ Hp). exact M.
      * apply (perform_error e x _ _ Hp); [apply (Hnext d0 Hd0)|exact E].
  - (* an awaited call settles *)
    unfold moveTask.
    destruct (nth_error (tasks sys) i) as [t|] eqn:Hn; [|constructor; assumption].
    destruct (T t (nth_error_In _ _ Hn)) as [d0 Hd0].
    unfold settleTask. destruct (observe t) as [r|t'|X e k] eqn:Ht;
      try (constructor; assumption).
    destruct (perform e (world sys)) as [[x w1]|] eqn:Hp;
      [constructor; assumption|].
    destruct (coerce e a) as [x|]; [|constructor; assumption].
    assert (Hnext : forall d, pays cleared d t -> pays cleared d (k x)).
    { intros d Hd. apply pays_next in Hd. rewrite Ht in Hd.
      rewrite <- (awaited_after e _ Hp x d). apply Hd. }
    constructor; cbn [tasks world record app timers]; try assumption.
    + intros u Hin. apply in_replaceTask in Hin. destruct Hin as [Hin|Eo].
      * apply T. exact Hin.
      * injection Eo as <-. exists d0. apply Hnext. exact Hd0.
    + intros tm Hin.
      apply (task_moves (fun d => In (timerId tm) (running d)) _ _ _ _ Hn);
        [|apply O; exact Hin].
      intros d Hd Hr. exists d. split; [apply Hnext; exact Hd|exact Hr].
    + intros Hb.
      apply (task_moves (fun d => busy d = true) _ _ _ _ Hn); [|apply B; exact Hb].
      intros d Hd Hr. exists d. split; [apply Hnext; exact Hd|exact Hr].
  - (* an interval fires *)
    destruct (TickerFacts.tick_frame interval (world sys))
      as ((_ & _ & _ & Eb & Ee & _) & _).
    constructor; cbn [tasks world].
    + exact T.
    + intros tm Hin. destruct (tick_timers _ _ _ Hin) as (tm0 & Hin0 & <- & _).
      apply O. exact Hin0.
    + rewrite Eb. exact B.
    + intros tm Hin. destruct (tick_timers _ _ _ Hin) as (tm0 & Hin0 & _ & <- & <-).
      apply K. exact Hin0.
    + apply tick_message; assumption.
    + rewrite Ee. exact E.
Qed.

Lemma tidy_runInputs (inputs : list Input) : tidy (runInputs inputs).
Proof.
  unfold runInputs.
  induction inputs as [|input inputs IH] using rev_ind.
  - apply tidy_initial.
  - rewrite fold_left_app. cbn. apply tidy_react. exact IH.
Qed.


Lemma tidy_more (more : list Input) : forall sys,
  tidy sys -> tidy (fold_left react more sys).
Proof.
  induction more as [|input more IH]; intros sys Hs; [exact Hs|].
  cbn [fold_left]. apply IH, tidy_react, Hs.
Qed.

(** Once the step is not Setup, no input sets it back. *)
Lemma react_keeps_past_setup (sys : System) (input : Input) :
  tidy sys ->
  step (app (world sys)) <> Setup ->
  step (app (world (react sys input))) <> Setup.
Proof.
  intros [T _ _ _ _ _] Hs. destruct input as [c|i|i a|interval]; cbn [react].
  - destruct (rendered (app (world sys)) c); exact Hs.
  - unfold moveTask.
    destruct (nth_error (tasks sys) i) as [t|] eqn:Hn; [|exact Hs].
    destruct (T t (nth_error_In _ _ Hn)) as [d0 Hd0].
    unfold stepTask. destruct (observe t) as [r|t'|X e k] eqn:Ht;
      [exact Hs|exact Hs|].
    destruct (perform e (world sys)) as [[x w1]|] eqn:Hp; [|exact Hs].
    cbn [world record app]. apply (perform_step e x _ _ Hp); [|exact Hs].
    apply pays_next in Hd0. rewrite Ht in Hd0. apply Hd0.
  - unfold moveTask.
    destruct (nth_error (tasks sys) i) as [t|]; [|exact Hs].
    unfold settleTask. destruct (observe t) as [r|t'|X e k]; try exact Hs.
    destruct (perform e (world sys)) as [[x w1]|]; [exact Hs|].
    destruct (coerce e a) as [x|]; exact Hs.
  - cbn [world].
    destruct (TickerFacts.tick_frame interval (world sys)) as ((Es & _) & _).
    rewrite Es. exact Hs.
Qed.

Lemma more_keeps_past_setup (more : list Input) : forall sys,
  tidy sys ->
  step (app (world sys)) <> Setup ->
  step (app (world (fold_left react more sys))) <> Setup.
Proof.
  induction more as [|input more IH]; intros sys Ht Hs; [exact Hs|].
  cbn [fold_left]. apply IH; [apply tidy_react, Ht|].
  apply react_keeps_past_setup; assumption.
Qed.

(** *** The key picker opens for cause *)

Ltac then_quiet :=
  eapply keeps_seq;
    [apply keeps_owing_call; [exact I|reflexivity]
    |intros ? ? ->
    |intros ? ? _; exact I].

Lemma picks_checkApiKey (c : bool) : picks c checkApiKey.
Proof.
  unfold picks, checkApiKey.
  apply keeps_tryCatch with (Q1 := whatever).
  - eapply keeps_seq
      with (Q1 := fun r c' => c' = causeAfter _ HasSelectedApiKey r c).
    + apply keeps_await; [exact I|reflexivity].
    + intros [|] c' ->; cbn [causeAfter].
      * apply keeps_call; [exact I|intros; exact I].
      * eapply keeps_seq with (Q1 := whatever).
        -- apply keeps_await; [reflexivity|intros; exact I].
        -- intros a c1 _. apply keeps_call; [exact I|intros; exact I].
        -- intros; exact I.
    + intros; exact I.
  - intros; exact I.
  - intros e c' _. apply keeps_call; [exact I|intros; exact I].
Qed.

Lemma picks_generationFlow {X} (c : bool) (messages : list string) (ms : Z)
    (media : AppE (Settled X)) (onSuccess : X -> Async AppE unit)
    (fallback : string) :
  (forall c0, pickerFine _ media c0) ->
  (forall err c0, causeAfter _ media (Rejected err) c0 = c0 || entityNotFound err) ->
  (forall x c0,
      keeps pickerFine causeAfter (fun r _ => exists u, r = Resolved u) c0
        (onSuccess x)) ->
  picks c (generationFlow messages ms media onSuccess fallback).
Proof.
  intros Hm Hc Hok. unfold picks, generationFlow.
  then_quiet. then_quiet. then_quiet.
  apply keeps_tryFinally with (Q1 := whatever) (P := fun _ => True).
  - apply keeps_tryCatch
      with (Q1 := fun r c' => match r with
                              | Rejected err => entityNotFound err = true -> c' = true
                              | Resolved _ => True
                              end).
    + eapply keeps_seq
        with (Q1 := fun r c' => match r with
                                | Rejected err => c' = c || entityNotFound err
                                | Resolved _ => True
                                end).
      * apply keeps_await; [apply Hm|]. intros [x|err]; [exact I|apply Hc].
      * intros x c' _. eapply keeps_weaken; [apply Hok|].
        intros r c1 (u & ->). exact I.
      * intros err c' -> He. rewrite He. apply orb_true_r.
    + intros; exact I.
    + intros err c' Hc'. destruct (entityNotFound err) eqn:He.
      * specialize (Hc' eq_refl). subst c'.
        eapply keeps_seq with (Q1 := owing true).
        -- apply keeps_owing_call; [exact I|reflexivity].
        -- intros u1 k1 ->. apply keeps_await; [reflexivity|intros; exact I].
        -- intros; exact I.
      * apply keeps_call; [exact I|intros; exact I].
  - intros r c' _.
    eapply keeps_seq with (Q1 := whatever).
    + apply keeps_call; [exact I|intros; exact I].
    + intros u2 k2 _. apply keeps_call; [exact I|intros; exact I].
    + intros; exact I.
Qed.

Lemma stores_resolve {X Y} (e1 : AppE X) (e2 : AppE Y) (c : bool) :
  (forall c0, pickerFine _ e1 c0) ->
  (forall c0, pickerFine _ e2 c0) ->
  keeps pickerFine causeAfter (fun r _ => exists u, r = Resolved u) c
    (Js.bind (call e1) (fun _ => call e2)).
Proof.
  intros H1 H2.
  eapply keeps_seq;
    [apply keeps_call_then; apply H1| |intros e c1 (x & E & _); discriminate E].
  intros x1 c1 _. apply keeps_call; [apply H2|]. intros u. exists u. reflexivity.
Qed.

(** Every handler of the page opens the picker with cause only. *)
Lemma picks_onClick (s : AppState) (control : Control) (c : bool) :
  picks c (onClick s control).
Proof.
  destruct control; cbn [onClick];
    try apply picks_checkApiKey;
    try (unfold picks; apply keeps_call; [exact I|intros; exact I]).
  - destruct (isSome (logo s)); unfold picks;
      [apply keeps_call; [exact I|intros; exact I]|apply keeps_pure; exact I].
  - rewrite handleGenerateLogo_flow. apply picks_generationFlow.
    + intros; exact I.
    + reflexivity.
    + intros x c0. apply stores_resolve; intros; exact I.
  - destruct (logo s) as [l|]; [|apply keeps_pure; exact I].
    rewrite handleAnimate_flow. apply picks_generationFlow.
    + intros; exact I.
    + reflexivity.
    + intros x c0. apply stores_resolve; intros; exact I.
Qed.

Lemma snoc_split {A} (xs before rest : list A) (x o : A) :
  xs ++ [x] = before ++ o :: rest ->
  (rest = [] /\ before = xs /\ o = x) \/
  (exists rest', rest = rest' ++ [x] /\ xs = before ++ o :: rest').
Proof.
  intros E. destruct rest as [|r rest] using rev_ind.
  - left. apply app_inj_tail in E. destruct E as [-> ->]. repeat split.
  - right. clear IHrest.
    change (before ++ o :: rest ++ [r]) with (before ++ (o :: rest) ++ [r]) in E.
    rewrite app_assoc in E. apply app_inj_tail in E. destruct E as [-> ->].
    exists rest. split; reflexivity.
Qed.

Lemma pickerHasCause_snoc (tr : list Obs) (o : Obs) :
  pickerHasCause tr ->
  (isPicker o = true -> exists cause, In cause tr /\ isCause cause = true) ->
  pickerHasCause (tr ++ [o]).
Proof.
  intros H Ho before o' rest E Hp.
  apply snoc_split in E. destruct E as [(-> & -> & ->)|(rest' & -> & ->)].
  - apply Ho. exact Hp.
  - apply (H before o' rest' eq_refl Hp).
Qed.

Lemma performed_is_no_picker {X} (e : AppE X) (x : X) (w w1 : World) :
  perform e w = Some (x, w1) ->
  isPicker (mkObs e x) = false /\ forall c, causeAfter _ e x c = c.
Proof.
  intros Hp. destruct e; cbn in Hp; try discriminate Hp; split; reflexivity.
Qed.

Lemma causeAfter_true {X} (e : AppE X) (x : X) (c : bool) :
  causeAfter _ e x c = true -> c = true \/ isCause (mkObs e x) = true.
Proof.
  destruct e; cbn; auto.
  - destruct x as [[|]|err]; auto.
  - destruct x as [r|err]; auto. intros H. apply orb_true_iff in H. exact H.
  - destruct x as [r|err]; auto. intros H. apply orb_true_iff in H. exact H.
Qed.

Lemma picker_needs_cause {X} (e : AppE X) (x : X) (c : bool) :
  pickerFine _ e c -> isPicker (mkObs e x) = true -> c = true.
Proof. destruct e; cbn; try discriminate. auto. Qed.

Lemma causal_initial : causal initialSystem.
Proof.
  split.
  - intros before o rest E. destruct before; discriminate E.
  - intros t [].
Qed.

Lemma causal_react (sys : System) (input : Input) :
  causal sys -> causal (react sys input).
Proof.
  intros [P T]. destruct input as [control|i|i a|interval]; cbn [react].
  - (* a click *)
    destruct (rendered (app (world sys)) control); [|split; assumption].
    split; [exact P|]. cbn [tasks world]. intros t Hin.
    apply in_app_or in Hin. destruct Hin as [Hin|[<-|[]]].
    + apply T. exact Hin.
    + exists false. split; [apply picks_onClick|discriminate].
  - (* the next synchronous move of a task *)
    unfold moveTask.
    destruct (nth_error (tasks sys) i) as [t|] eqn:Hn; [|split; assumption].
    destruct (T t (nth_error_In _ _ Hn)) as (c0 & Hc0 & Hcause0).
    apply keeps_next in Hc0.
    unfold stepTask. destruct (observe t) as [r|t'|X e k] eqn:Ht.
    + split; [exact P|]. cbn [tasks world]. intros u Hin.
      apply in_replaceTask in Hin.
      destruct Hin as [Hin|Eo]; [apply T; exact Hin|discriminate Eo].
    + split; [exact P|]. cbn [tasks world]. intros u Hin.
      apply in_replaceTask in Hin. destruct Hin as [Hin|Eo].
      * apply T. exact Hin.
      * injection Eo as <-. exists c0. split; assumption.
    + destruct (perform e (world sys)) as [[x w1]|] eqn:Hp; [|split; assumption].
      destruct (performed_is_no_picker e x _ _ Hp) as [Hnp Hsame].
      split; cbn [tasks world]; rewrite (trace_perform _ _ _ _ Hp).
      * apply pickerHasCause_snoc; [exact P|]. rewrite Hnp. discriminate.
      * intros u Hin. apply in_replaceTask in Hin. destruct Hin as [Hin|Eo].
        -- destruct (T u Hin) as (c & Hc & Hcause). exists c. split; [exact Hc|].
           intros E. destruct (Hcause E) as (cause & Hi & Hic).
           exists cause. split; [apply in_or_app; left; exact Hi|exact Hic].
        -- injection Eo as <-. exists c0. split.
           ++ rewrite <- (Hsame c0). apply Hc0.
           ++ intros E. destruct (Hcause0 E) as (cause & Hi & Hic).
              exists cause. split; [apply in_or_app; left; exact Hi|exact Hic].
  - (* an awaited call settles *)
    unfold moveTask.
    destruct (nth_error (tasks sys) i) as [t|] eqn:Hn; [|split; assumption].
    destruct (T t (nth_error_In _ _ Hn)) as (c0 & Hc0 & Hcause0).
    apply keeps_next in Hc0.
    unfold settleTask. destruct (observe t) as [r|t'|X e k] eqn:Ht;
      try (split; assumption).
    destruct (perform e (world sys)) as [[x w1]|] eqn:Hp; [split; assumption|].
    destruct (coerce e a) as [x|]; [|split; assumption].
    destruct Hc0 as [Hfine Hk].
    split; cbn [tasks world record trace].
    + apply pickerHasCause_snoc; [exact P|]. intros Hpick.
      apply Hcause0. apply (picker_needs_cause e x c0 Hfine Hpick).
    + intros u Hin. apply in_replaceTask in Hin. destruct Hin as [Hin|Eo].
      * destruct (T u Hin) as (c & Hc & Hcause). exists c. split; [exact Hc|].
        intros E. destruct (Hcause E) as (cause & Hi & Hic).
        exists cause. split; [apply in_or_app; left; exact Hi|exact Hic].
      * injection Eo as <-. exists (causeAfter _ e x c0). split; [apply Hk|].
        intros E. apply causeAfter_true in E. destruct E as [E|E].
        -- destruct (Hcause0 E) as (cause & Hi & Hic).
           exists cause. split; [apply in_or_app; left; exact Hi|exact Hic].
        -- exists (mkObs e x). split; [apply in_or_app; right; left; reflexivity|].
           exact E.
  - (* an interval fires *)
    assert (Et : trace (tick interval (world sys)) = trace (world sys)).
    { apply TickerFacts.tick_frame. }
    split; cbn [tasks world]; rewrite Et; assumption.
Qed.

Lemma causal_runInputs (inputs : list Input) : causal (runInputs inputs).
Proof.
  unfold runInputs.
  induction inputs as [|input inputs IH] using rev_ind.
  - apply causal_initial.
  - rewrite fold_left_app. cbn. apply causal_react. exact IH.
Qed.

End TidyFacts.

(* ===================================================================== *)
(** ** The page in every state it can reach, and what it shows *)
(* ===================================================================== *)

Module ReachFacts.

Import GeminiService App AppSpec AppFacts PageSpec PageFacts.
Import Render HandlerSpec TidySpec TidyFacts.
Local Open Scope list_scope.

(** The JSX of [<main>].  In every state the page can reach, with any
    number of handlers in flight and in any interleaving, exactly one
    screen is rendered, the one of the current step: the Animate screen is
    never held back for want of a logo, nor the View screen for want of an
    animation; and the View screen has the logo to show whose details it
    reads through [logo?.]. *)
Theorem main_area_never_blank (inputs : list Input) :
  let s := app (world (runInputs inputs)) in
  exists screen,
    screens (render s) = [screen] /\
    screenStep screen = step s /\
    showsItsLogo screen.
Proof.
  intros s. destruct (good_runInputs inputs) as [[_ _ C3 C4 C5 C6 _ _] _].
  fold s in C3, C4, C5, C6.
  unfold render, stepIs. cbn [screens].
  destruct (step s) eqn:Es; cbn [app].
  - eexists. repeat split.
  - eexists. repeat split.
  - specialize (C3 (C5 (or_introl eq_refl))).
    destruct (logo s) as [l|]; [|congruence]. eexists. repeat split.
  - specialize (C3 (C5 (or_intror eq_refl))). specialize (C4 (C6 eq_refl)).
    destruct (animation s) as [a|]; [|congruence].
    destruct (logo s) as [l|]; [|congruence].
    eexists. split; [reflexivity|]. split; [reflexivity|].
    cbn. split; discriminate.
Qed.

(** [setInterval]/[clearInterval] and [setIsGenerating] across the page.
    In every state the page can reach, when no handler is in flight no
    interval is running and [isGenerating] is false, so the overlay is not
    shown: every handler that returns has cleared the interval it started
    and has written [false] last. *)
Theorem idle_page_is_clean (inputs : list Input) :
  tasks (runInputs inputs) = [] ->
  timers (world (runInputs inputs)) = []
  /\ isGenerating (app (world (runInputs inputs))) = false
  /\ overlay (render (app (world (runInputs inputs)))) = None.
Proof.
  intros Hidle. destruct (tidy_runInputs inputs) as [_ O B _ _ _].
  rewrite Hidle in O, B.
  assert (Hb : isGenerating (app (world (runInputs inputs))) = false).
  { destruct (isGenerating _); [|reflexivity].
    destruct (B eq_refl) as (t & d & [] & _). }
  split; [|split; [exact Hb|]].
  - destruct (timers _) as [|tm tms]; [reflexivity|].
    destruct (O tm (or_introl eq_refl)) as (t & d & [] & _).
  - unfold render. cbn [overlay]. rewrite Hb. reflexivity.
Qed.

Lemma idle_page_is_clean_witness :
  timers (world (runInputs secondLogoSession)) = []
  /\ isGenerating (app (world (runInputs secondLogoSession))) = false.
Proof.
  assert (Hidle : tasks (runInputs secondLogoSession) = [])
    by (vm_compute; reflexivity).
  destruct (idle_page_is_clean secondLogoSession Hidle) as (Ht & Hb & _).
  split; assumption.
Defined.

(** The progress overlay.  In every state the page can reach, the progress
    message is the empty text it starts with or one of the twelve phrases
    of the two handlers, so the overlay shows nothing else; and every
    running interval is the 3 s one over the loading phrases or the 4 s one
    over the animation phrases. *)
Theorem overlay_shows_a_known_phrase (inputs : list Input) :
  let w := world (runInputs inputs) in
  In (progressMessage (app w)) phrases
  /\ (forall m, overlay (render (app w)) = Some m -> In m phrases)
  /\ (forall tm, In tm (timers w) ->
                 knownInterval (timerMessages tm) (timerPeriod tm)).
Proof.
  intros w. destruct (tidy_runInputs inputs) as [_ _ _ K M _]. fold w in K, M.
  split; [exact M|]. split; [|exact K].
  intros m. unfold render. cbn [overlay].
  destruct (isGenerating (app w)); [|discriminate].
  intros Em. injection Em as <-. exact M.
Qed.

(** The error banner.  In every state the page can reach, the error is
    never the empty text (an error without a message, or with an empty
    one, is shown as the handler's fallback text), so the banner is shown
    exactly when an error is set, with that error. *)
Theorem error_banner_is_never_blank (inputs : list Input) :
  let s := app (world (runInputs inputs)) in
  error s <> Some ""%string /\ banner (render s) = error s.
Proof.
  intros s. destruct (tidy_runInputs inputs) as [_ _ _ _ _ E]. fold s in E.
  split; [exact E|]. unfold render. cbn [banner].
  destruct (error s) as [[|c m]|]; [congruence|reflexivity|reflexivity].
Qed.

(** The Designer button of the header.  It is on every screen, the Setup
    screen included, and its handler is [setStep(Design)] alone: from any
    state of the page, clicking it and letting its handler run sets the
    step to Design and adds nothing else to the trace, so no key check and
    no key selection is made on the way. *)
Theorem designer_button_skips_key_check (sys : System) :
  let sys' := react (react sys (Click NavDesigner))
                (Step (List.length (tasks sys))) in
  step (app (world sys')) = Design
  /\ trace (world sys') = trace (world sys) ++ [obs (SetStep Design) tt]
  /\ keyChecks (trace (world sys')) = keyChecks (trace (world sys))
  /\ keySelections (trace (world sys')) = keySelections (trace (world sys)).
Proof.
  cbn [react rendered onClick]. unfold moveTask. cbn [tasks world].
  rewrite nth_error_app2, Nat.sub_diag by apply Nat.le_refl.
  cbn - [keyChecks keySelections replaceTask].
  rewrite HandlerFacts.keyChecks_app, keySelections_app. cbn.
  repeat split; lia.
Qed.

(** No handler calls [setStep(Setup)].  Once the page has left the Setup
    screen, nothing that happens later brings it back: whatever the clicks,
    the answers of the host and the interleaving, the step is never Setup
    again and the Setup screen is not rendered, so the key check of "Get
    Started" cannot be started again. *)
Theorem setup_is_never_shown_again (inputs more : list Input) :
  step (app (world (runInputs inputs))) <> Setup ->
  let s := app (world (runInputs (inputs ++ more))) in
  step s <> Setup
  /\ ~ In SetupScreen (screens (render s))
  /\ rendered s GetStarted = false.
Proof.
  intros Hs s.
  assert (Hs' : step s <> Setup).
  { subst s. unfold runInputs. rewrite fold_left_app.
    apply more_keeps_past_setup; [apply tidy_runInputs|exact Hs]. }
  split; [exact Hs'|].
  unfold render, rendered, stepIs. cbn [screens].
  destruct (step s); [congruence| | |]; cbn.
  - split; [|reflexivity]. intros [E|[]]. discriminate E.
  - split; [|reflexivity]. destruct (logo s); cbn; [intros [E|[]]; discriminate E|auto].
  - split; [|reflexivity].
    destruct (animation s); cbn; [intros [E|[]]; discriminate E|auto].
Qed.

Lemma setup_is_never_shown_again_witness :
  step (app (world (runInputs
                      ([Click NavDesigner; Step 0]
                         ++ [Click GetStarted; Click (Generate "blue owl logo")]))))
  <> Setup.
Proof.
  apply (setup_is_never_shown_again [Click NavDesigner; Step 0]
           [Click GetStarted; Click (Generate "blue owl logo")]).
  vm_compute. discriminate.
Defined.

(** [window.aistudio.openSelectKey()] across the page.  In every history
    the page can reach, with any number of handlers in flight and in any
    interleaving, every opening of the key picker comes after a cause for
    it: a key check answered "no", or a call of [generateLogo] or
    [animateLogo] rejected with an error whose message contains "Requested
    entity was not found".  Nothing else opens the picker. *)
Theorem key_picker_opens_for_cause (inputs : list Input)
    (before rest : list Obs) (o : Obs) :
  trace (world (runInputs inputs)) = before ++ o :: rest ->
  isPicker o = true ->
  exists cause, In cause before /\ isCause cause = true.
Proof.
  intros E Hp. exact (proj1 (causal_runInputs inputs) before o rest E Hp).
Qed.

Lemma key_picker_opens_for_cause_witness :
  exists cause,
    In cause [obs HasSelectedApiKey (Resolved false)] /\ isCause cause = true.
Proof.
  apply (key_picker_opens_for_cause keySelectionSession
           [obs HasSelectedApiKey (Resolved false)] []
           (obs OpenSelectKey (Resolved tt))); reflexivity.
Defined.

(** What the page shows after a success.  After a generation that
    resolved, the Design screen is shown with the new logo as its preview
    and the "Next" button, the description box defaults to the description
    given (to the sample text when that was empty), and there is no overlay
    and no banner.  After an animation that resolved, the View screen is
    shown with the new video, the logo's details and the prompt given, and
    there is no overlay and no banner. *)
Theorem page_after_success (h : Host) (w : World) :
  (forall description result,
      generateLogoAnswer h description (imageSize (app w)) = Some (Resolved result) ->
      let s' := app (fst (run 9 h (handleGenerateLogo (imageSize (app w)) description)
                            w)) in
      render s' =
      mkPage false None None
        [DesignScreen (or_else (Some description) sampleDescription)
           (imageSize (app w)) (Some (r_url result)) true])
  /\
  (forall l animPrompt videoUrl,
      logo (app w) = Some l ->
      animateLogoAnswer h (mkImageArg (base64 l) (mimeType l)) animPrompt
        (aspectRatio (app w)) = Some (Resolved videoUrl) ->
      let s' := app (fst (run 9 h (handleAnimate (logo (app w)) (aspectRatio (app w))
                                     animPrompt) w)) in
      render s' =
      mkPage false None None
        [ViewScreen videoUrl (videoFrame (aspectRatio (app w)))
           (Some (url l)) (Some (prompt l)) animPrompt videoUrl]).
Proof.
  split.
  - intros description result Hg s'. subst s'. rewrite handleGenerateLogo_flow.
    rewrite (flow_resolved h _ _ _ _ _ (generateLogo_awaited _ _) w _ result 2 9
               Hg (runs_storeLogo h _ _ _) ltac:(lia)).
    reflexivity.
  - intros l animPrompt videoUrl Hl Hg s'. subst s'. rewrite Hl, handleAnimate_flow.
    rewrite (flow_resolved h _ _ _ _ _ (animateLogo_awaited _ _ _) w _ videoUrl 2 9
               Hg (runs_storeAnimation h _ _ _) ltac:(lia)).
    unfold render. cbn. rewrite Hl. reflexivity.
Qed.

Lemma page_after_success_witness :
  screens (render (app (fst (run 9 obligingHost (handleGenerateLogo Size1K "")
                               initialWorld))))
  = [DesignScreen sampleDescription Size1K (Some "data:image/png;base64,AAAA")
       true].
Proof.
  change (handleGenerateLogo Size1K "")
    with (handleGenerateLogo (imageSize (app initialWorld)) "").
  rewrite (proj1 (page_after_success obligingHost initialWorld) ""%string
             sampleLogo eq_refl).
  reflexivity.
Defined.

End ReachFacts.
